(** * PEPit example scripts: a shallow embedding

    The repository's sources are the example scripts ([wc_gd],
    [wc_alternate_projections], [wc_past_extragradient], [wc_no_lips2],
    [wc_adrs], [wc_accelerated_proximal_gradient],
    [wc_gradient_descent_quadratics], [wc_heavyball]).  Each script is
    embedded as a computation in a state-and-exception monad over the
    symbolic engine ([PEP], [Function], [Point], [Expression], the primitive
    steps), whose code the scripts import.

    Python floats are embedded as exact rationals ([Q]); Python integers as
    [Z]; an unbound local variable as [None]; a raised exception as
    [Raise]. *)

From Stdlib Require Import ZArith QArith Qminmax Qpower Qabs Lia Lqa String.
From stdpp Require Import base list.

Open Scope Q_scope.

(** ** Exceptions and the external solver's vocabulary *)

Inductive SolverStatus := optimal | infeasible | unbounded | solver_error.

Inductive exn :=
| NameError (name : string)          (* also UnboundLocalError, its subclass *)
| ZeroDivisionError
| IndexError
| FrozenTrajectory                   (* oracle call after solve *)
| SolveFailure (st : SolverStatus).

Inductive result (A : Type) :=
| Ok (a : A)
| Raise (e : exn).
Arguments Ok {A} a.
Arguments Raise {A} e.

(** ** Coefficient mappings

    A Python [dict] from keys to floats, in insertion order.  [merge_dict]
    adds the values of shared keys and appends the new ones, as the Point,
    Expression and Function algebra do with their decompositions. *)

Section Dict.
Context {K : Type} (eqb : K -> K -> bool).

Fixpoint dict_add (k : K) (c : Q) (d : list (K * Q)) : list (K * Q) :=
  match d with
  | [] => [(k, c)]
  | (k', c') :: d' =>
      if eqb k' k then (k', c' + c) :: d' else (k', c') :: dict_add k c d'
  end.

Definition merge_dict (d1 d2 : list (K * Q)) : list (K * Q) :=
  fold_left (fun acc kc => dict_add (fst kc) (snd kc) acc) d2 d1.

Definition scale_dict (a : Q) (d : list (K * Q)) : list (K * Q) :=
  map (fun kc => (fst kc, snd kc * a)) d.

Fixpoint dict_get (k : K) (d : list (K * Q)) : option Q :=
  match d with
  | [] => None
  | (k', c') :: d' => if eqb k' k then Some c' else dict_get k d'
  end.
End Dict.

(** ** Points and Expressions *)

(** A Point: an identity (creation-order key) and its coefficients on the
    basis generators. *)
Record Point := mkPoint { pkey : nat; pdec : list (nat * Q) }.

Definition pair_eqb (a b : Point * Point) : bool :=
  (pkey (fst a) =? pkey (fst b))%nat && (pkey (snd a) =? pkey (snd b))%nat.

(** An Expression: affine in the scalar unknowns, plus weighted inner
    products of pairs of Points, plus a constant. *)
Record Expression := mkExpr {
  elin : list (nat * Q);
  ebil : list ((Point * Point) * Q);
  econst : Q
}.

Definition Expr_add (e1 e2 : Expression) : Expression :=
  {| elin := merge_dict Nat.eqb (elin e1) (elin e2);
     ebil := merge_dict pair_eqb (ebil e1) (ebil e2);
     econst := econst e1 + econst e2 |}.

Definition Expr_rmul (a : Q) (e : Expression) : Expression :=
  {| elin := scale_dict a (elin e);
     ebil := scale_dict a (ebil e);
     econst := econst e * a |}.

Definition Expr_neg (e : Expression) : Expression := Expr_rmul (-1) e.

Definition Expr_sub (e1 e2 : Expression) : Expression :=
  Expr_add e1 (Expr_neg e2).

Definition Expr_const (c : Q) : Expression :=
  {| elin := []; ebil := []; econst := c |}.

(** Inner product of two Points; the key is the symmetrized pair. *)
Definition inner (p q : Point) : Expression :=
  {| elin := [];
     ebil := [(if (pkey p <=? pkey q)%nat then (p, q) else (q, p), 1)];
     econst := 0 |}.

(** [p ** 2] *)
Definition Point_sq (p : Point) : Expression := inner p p.

(** The function and operator classes the scripts declare, with their
    parameters ([None] stands for the Python [inf]). *)
Inductive FunctionClass :=
| ConvexFunction (is_differentiable : bool)
| SmoothStronglyConvexFunction (mu L : Q)
| ConvexIndicatorFunction (D : option Q)
| LipschitzStronglyMonotoneOperator (mu L : Q)
| SmoothStronglyConvexQuadraticFunction (mu L : Q).

(** An oracle triple: (point, gradient, value). *)
Definition Triple : Type := Point * Point * Expression.

Inductive Constraint :=
| Le0 (e : Expression)                         (* e <= 0 *)
| Eq0 (e : Expression)                         (* e == 0 *)
| Interpolation (cls : FunctionClass) (k : nat) (ti tj : Triple).
                     (* the k-th pairwise inequality of class cls *)

(** [e1 <= e2] and [e <= c] build a Constraint without registering it. *)
Definition Expr_le (e1 e2 : Expression) : Constraint := Le0 (Expr_sub e1 e2).
Definition Expr_le_const (e : Expression) (c : Q) : Constraint :=
  Le0 (Expr_sub e (Expr_const c)).

(** ** Functions, the Problem and the solver interface *)

Record Function := mkFunction {
  fclass : option FunctionClass;     (* [None]: a derived Function *)
  fdec : list (nat * Q);             (* leaf Functions and their weights *)
  fpoints : list Triple              (* recorded triples, in call order *)
}.

Definition empty_function : Function :=
  {| fclass := None; fdec := []; fpoints := [] |}.

(** The standard-form problem handed to the external solver. *)
Record SDP := mkSDP {
  sdp_dim : nat;                       (* side of the Gram matrix *)
  sdp_scalars : nat;                   (* length of the free vector *)
  sdp_constraints : list Constraint;
  sdp_objectives : list Expression     (* the bound is their minimum *)
}.

Record SolverOutput := mkOutput {
  status : SolverStatus;
  objective : Q;
  gram : nat -> nat -> Q;
  scalars : nat -> Q
}.

(** Lifecycle calls on the Problem, in program order. *)
Inductive Event :=
| EvInitialCondition (c : Constraint)
| EvPerformanceMetric (e : Expression)
| EvSolve (sdp : SDP).

(** The Problem together with the registries of Points, basis generators,
    scalar unknowns and Function objects (a Function is referred to by its
    index in [functions]). *)
Record PEP := mkPEP {
  counter_points : nat;
  counter_gens : nat;
  counter_scalars : nat;
  functions : list Function;
  declared : list nat;
  list_of_conditions : list Constraint;
  list_of_performance_metrics : list Expression;
  frozen : bool;
  trace : list Event;
  stdout : list string
}.

Definition PEP_init : PEP :=
  {| counter_points := 0; counter_gens := 0; counter_scalars := 0;
     functions := []; declared := [];
     list_of_conditions := []; list_of_performance_metrics := [];
     frozen := false; trace := []; stdout := [] |}.

(** ** The monad: state, kept when an exception is raised *)

Definition M (A : Type) : Type := PEP -> PEP * result A.

Definition ret {A} (a : A) : M A := fun s => (s, Ok a).
Definition raise {A} (e : exn) : M A := fun s => (s, Raise e).
Definition bind {A B} (m : M A) (f : A -> M B) : M B :=
  fun s => match m s with
           | (s', Ok a) => f a s'
           | (s', Raise e) => (s', Raise e)
           end.
Definition get : M PEP := fun s => (s, Ok s).
Definition modify (f : PEP -> PEP) : M unit := fun s => (f s, Ok tt).

Declare Scope pep_scope.
Delimit Scope pep_scope with pep.
Notation "'let*' x ':=' m 'in' k" := (bind m (fun x => k))
  (at level 10, x name, m at level 100, k at level 200, only parsing)
  : pep_scope.
Notation "'let*' ' pat ':=' m 'in' k" :=
  (bind m (fun x => match x with pat => k end))
  (at level 10, pat pattern, m at level 100, k at level 200, only parsing)
  : pep_scope.
Notation "'do*' m 'in' k" := (bind m (fun _ => k))
  (at level 10, m at level 100, k at level 200, only parsing) : pep_scope.
Open Scope pep_scope.

(** A local variable that may still be unbound. *)
Definition read_var {A} (name : string) (v : option A) : M A :=
  match v with
  | Some a => ret a
  | None => raise (NameError name)
  end.

(** Python's true division [a / b]. *)
Definition py_div (a b : Q) : M Q :=
  if Qeq_bool b 0 then raise ZeroDivisionError else ret (a / b).

(** Python's [a ** k] for an integer exponent. *)
Definition py_pow (a : Q) (k : Z) : M Q :=
  if (k <? 0)%Z && Qeq_bool a 0 then raise ZeroDivisionError
  else ret (a ^ k).

(** [for i in range(n): acc = body(i, acc)] *)
Fixpoint for_loop {A} (body : Z -> A -> M A) (rng : list Z) (acc : A) : M A :=
  match rng with
  | [] => ret acc
  | i :: rng' => let* acc' := body i acc in for_loop body rng' acc'
  end.

Definition range (n : Z) : list Z := map Z.of_nat (seq 0 (Z.to_nat n)).

(** Python's [l[i]] and [l[i] = v], negative indices counting from the end. *)
Definition py_index (len : nat) (i : Z) : option nat :=
  if (0 <=? i)%Z then
    (if (i <? Z.of_nat len)%Z then Some (Z.to_nat i) else None)
  else
    (if (- Z.of_nat len <=? i)%Z then Some (Z.to_nat (Z.of_nat len + i)) else None).

Definition list_get {A} (l : list A) (i : Z) : M A :=
  match py_index (length l) i with
  | Some k => match l !! k with
              | Some a => ret a
              | None => raise IndexError
              end
  | None => raise IndexError
  end.

Definition list_set {A} (l : list A) (i : Z) (v : A) : M (list A) :=
  match py_index (length l) i with
  | Some k => ret (<[k := v]> l)
  | None => raise IndexError
  end.

Definition Qlt_bool (a b : Q) : bool := negb (Qle_bool b a).

Definition print (line : string) : M unit :=
  modify (fun s => mkPEP (counter_points s) (counter_gens s) (counter_scalars s)
                    (functions s) (declared s) (list_of_conditions s)
                    (list_of_performance_metrics s) (frozen s) (trace s)
                    (stdout s ++ [line])).

(** ** The engine

    Modelled from the spec: the engine ([PEP], [Function], [Point],
    [Expression], [proximal_step], [bregman_gradient_step]) is imported by
    the scripts and its code is not part of the sources.  The operations
    below follow the contracts of the specification's component design:
    Point and Expression algebra returning new values, [oracle] with its
    cache, stationary points recorded with a zero gradient, algebraic
    combination of Functions that delegates to the leaf Functions, and the
    Problem's lifecycle calls. *)

Definition set_counters (kp kg ks : nat) (s : PEP) : PEP :=
  mkPEP kp kg ks (functions s) (declared s) (list_of_conditions s)
        (list_of_performance_metrics s) (frozen s) (trace s) (stdout s).

Definition set_functions (fs : list Function) (s : PEP) : PEP :=
  mkPEP (counter_points s) (counter_gens s) (counter_scalars s) fs
        (declared s) (list_of_conditions s) (list_of_performance_metrics s)
        (frozen s) (trace s) (stdout s).

(** *** Point algebra *)

(** A new basis generator, as a Point. *)
Definition Point_leaf : M Point := fun s =>
  (set_counters (S (counter_points s)) (S (counter_gens s)) (counter_scalars s) s,
   Ok (mkPoint (counter_points s) [(counter_gens s, 1)])).

(** A new Point with given coefficients. *)
Definition Point_new (d : list (nat * Q)) : M Point := fun s =>
  (set_counters (S (counter_points s)) (counter_gens s) (counter_scalars s) s,
   Ok (mkPoint (counter_points s) d)).

Definition Point_zero : M Point := Point_new [].

Definition Point_add (p q : Point) : M Point :=
  Point_new (merge_dict Nat.eqb (pdec p) (pdec q)).

Definition Point_rmul (a : Q) (p : Point) : M Point :=
  Point_new (scale_dict a (pdec p)).

Definition Point_neg (p : Point) : M Point := Point_rmul (-1) p.

Definition Point_sub (p q : Point) : M Point :=
  let* nq := Point_neg q in Point_add p nq.

Definition Point_div (p : Point) (a : Q) : M Point :=
  let* r := py_div 1 a in Point_rmul r p.

(** A new scalar unknown, as an Expression. *)
Definition Expr_leaf : M Expression := fun s =>
  (set_counters (counter_points s) (counter_gens s) (S (counter_scalars s)) s,
   Ok (mkExpr [(counter_scalars s, 1)] [] 0)).

(** *** Functions *)

Definition get_function (f : nat) : M Function :=
  fun s => (s, Ok (default empty_function (functions s !! f))).

Definition new_function (fn : Function) : M nat := fun s =>
  (set_functions (functions s ++ [fn]) s, Ok (length (functions s))).

(** [problem.declare_function(cls, ...)] *)
Definition declare_function (cls : FunctionClass) : M nat := fun s =>
  let f := length (functions s) in
  (mkPEP (counter_points s) (counter_gens s) (counter_scalars s)
         (functions s ++ [mkFunction (Some cls) [(f, 1)] []])
         (declared s ++ [f]) (list_of_conditions s)
         (list_of_performance_metrics s) (frozen s) (trace s) (stdout s),
   Ok f).

(** [f + g], [a * f], [-f], [f - g], [f / a]: derived Functions. *)
Definition Function_add (f g : nat) : M nat :=
  let* ff := get_function f in
  let* gg := get_function g in
  new_function (mkFunction None (merge_dict Nat.eqb (fdec ff) (fdec gg)) []).

Definition Function_rmul (a : Q) (f : nat) : M nat :=
  let* ff := get_function f in
  new_function (mkFunction None (scale_dict a (fdec ff)) []).

Definition Function_neg (f : nat) : M nat := Function_rmul (-1) f.

Definition Function_sub (f g : nat) : M nat :=
  let* ng := Function_neg g in Function_add f ng.

Definition Function_div (f : nat) (a : Q) : M nat :=
  let* r := py_div 1 a in Function_rmul r f.

(** The recorded pair of a point, looked up by the point's identity. *)
Fixpoint find_triple (p : Point) (l : list Triple) : option (Point * Expression) :=
  match l with
  | [] => None
  | (x, g, v) :: l' =>
      if (pkey x =? pkey p)%nat then Some (g, v) else find_triple p l'
  end.

Definition record_triple (f : nat) (t : Triple) : M unit := fun s =>
  let ff := default empty_function (functions s !! f) in
  (set_functions
     (<[f := mkFunction (fclass ff) (fdec ff) (fpoints ff ++ [t])]> (functions s)) s,
   Ok tt).

Definition check_not_frozen : M unit :=
  fun s => if frozen s then (s, Raise FrozenTrajectory) else (s, Ok tt).

(** [oracle] on a single Function object: the cached pair if the point was
    recorded, else a new gradient generator and a new value unknown. *)
Definition oracle_leaf (f : nat) (p : Point) : M (Point * Expression) :=
  do* check_not_frozen in
  let* ff := get_function f in
  match find_triple p (fpoints ff) with
  | Some gv => ret gv
  | None =>
      let* g := Point_leaf in
      let* v := Expr_leaf in
      do* record_triple f (p, g, v) in
      ret (g, v)
  end.

(** Weighted sum of the operands' oracles at [p]. *)
Fixpoint oracle_sum (dec : list (nat * Q)) (p : Point) (g : Point) (v : Expression)
  : M (Point * Expression) :=
  match dec with
  | [] => ret (g, v)
  | (leaf, w) :: dec' =>
      let* '(gl, vl) := oracle_leaf leaf p in
      let* wg := Point_rmul w gl in
      let* g' := Point_add g wg in
      oracle_sum dec' p g' (Expr_add v (Expr_rmul w vl))
  end.

(** [f.oracle(p)] *)
Definition oracle (f : nat) (p : Point) : M (Point * Expression) :=
  do* check_not_frozen in
  let* ff := get_function f in
  match find_triple p (fpoints ff) with
  | Some gv => ret gv
  | None =>
      match fclass ff with
      | Some _ => oracle_leaf f p
      | None =>
          let* g0 := Point_zero in
          let* '(g, v) := oracle_sum (fdec ff) p g0 (Expr_const 0) in
          do* record_triple f (p, g, v) in
          ret (g, v)
      end
  end.

Definition gradient (f : nat) (p : Point) : M Point :=
  let* '(g, _) := oracle f p in ret g.

Definition value (f : nat) (p : Point) : M Expression :=
  let* '(_, v) := oracle f p in ret v.

(** Distribute a given triple of a derived Function on its leaves: every
    leaf but the last answers through its oracle, the last one receives the
    remainder. *)
Fixpoint distribute (dec : list (nat * Q)) (p : Point) (g : Point) (v : Expression)
  : M unit :=
  match dec with
  | [] => ret tt
  | [(leaf, w)] =>
      let* gl := Point_div g w in
      let* r := py_div 1 w in
      record_triple leaf (p, gl, Expr_rmul r v)
  | (leaf, w) :: dec' =>
      let* '(gl, vl) := oracle_leaf leaf p in
      let* wg := Point_rmul w gl in
      let* g' := Point_sub g wg in
      distribute dec' p g' (Expr_sub v (Expr_rmul w vl))
  end.

(** [f.add_point((p, g, v))] *)
Definition add_point (f : nat) (t : Triple) : M unit :=
  do* check_not_frozen in
  let* ff := get_function f in
  match fclass ff with
  | Some _ => record_triple f t
  | None =>
      do* record_triple f t in
      distribute (fdec ff) (fst (fst t)) (snd (fst t)) (snd t)
  end.

(** [f.stationary_point()] *)
Definition stationary_point (f : nat) : M Point :=
  let* p := Point_leaf in
  let* g := Point_zero in
  let* v := Expr_leaf in
  do* add_point f (p, g, v) in
  ret p.

(** *** Primitive steps *)

(** [proximal_step(x0, f, step)] *)
Definition proximal_step (x0 : Point) (f : nat) (step : Q)
  : M (Point * Point * Expression) :=
  let* gx := Point_leaf in
  let* fx := Expr_leaf in
  let* sg := Point_rmul step gx in
  let* x := Point_sub x0 sg in
  do* add_point f (x, gx, fx) in
  ret (x, gx, fx).

(** [bregman_gradient_step(gx0, sx0, mirror_map, step)] *)
Definition bregman_gradient_step (gx0 sx0 : Point) (mirror_map : nat) (step : Q)
  : M (Point * Point * Expression) :=
  let* x := Point_leaf in
  let* hx := Expr_leaf in
  let* sg := Point_rmul step gx0 in
  let* sx := Point_sub sx0 sg in
  do* add_point mirror_map (x, sx, hx) in
  ret (x, sx, hx).

(** *** Interpolation constraints

    One class-specific inequality for every ordered pair of distinct
    recorded triples of a declared Function (two for a Lipschitz strongly
    monotone operator: monotonicity and Lipschitz continuity), and for an
    indicator function the equality [f_i == 0] of every recorded value.  The
    closed form of the inequality is the class's policy; a constraint names
    the class, with its parameters, and the two triples. *)

Definition enumerate {A} (l : list A) : list (nat * A) :=
  combine (seq 0 (length l)) l.

Definition pairwise (l : list Triple) : list (Triple * Triple) :=
  flat_map (fun it =>
    flat_map (fun jt =>
      if (fst it =? fst jt)%nat then [] else [(snd it, snd jt)])
      (enumerate l))
    (enumerate l).

Definition class_constraints (cls : FunctionClass) (l : list Triple)
  : list Constraint :=
  match cls with
  | ConvexIndicatorFunction _ =>
      map (fun tt => Interpolation cls 0 (fst tt) (snd tt)) (pairwise l)
      ++ map (fun t => Eq0 (snd t)) l
  | LipschitzStronglyMonotoneOperator _ _ =>
      flat_map (fun tt => [Interpolation cls 0 (fst tt) (snd tt);
                           Interpolation cls 1 (fst tt) (snd tt)]) (pairwise l)
  | _ => map (fun tt => Interpolation cls 0 (fst tt) (snd tt)) (pairwise l)
  end.

Definition function_constraints (fn : Function) : list Constraint :=
  match fclass fn with
  | Some cls => class_constraints cls (fpoints fn)
  | None => []
  end.

(** The constraints emitted at solve time by the declared Functions. *)
Definition interpolation_constraints (s : PEP) : list Constraint :=
  flat_map (fun f => function_constraints (default empty_function (functions s !! f)))
           (declared s).

(** Number of triples recorded on Function [f]. *)
Definition triple_count (f : nat) (s : PEP) : nat :=
  length (fpoints (default empty_function (functions s !! f))).

(** *** The Problem's lifecycle calls *)

Definition set_initial_point : M Point := Point_leaf.

Definition set_initial_condition (c : Constraint) : M unit :=
  modify (fun s => mkPEP (counter_points s) (counter_gens s) (counter_scalars s)
                    (functions s) (declared s) (list_of_conditions s ++ [c])
                    (list_of_performance_metrics s) (frozen s)
                    (trace s ++ [EvInitialCondition c]) (stdout s)).

Definition set_performance_metric (e : Expression) : M unit :=
  modify (fun s => mkPEP (counter_points s) (counter_gens s) (counter_scalars s)
                    (functions s) (declared s) (list_of_conditions s)
                    (list_of_performance_metrics s ++ [e]) (frozen s)
                    (trace s ++ [EvPerformanceMetric e]) (stdout s)).

(** The problem assembled from the recorded trajectory. *)
Definition assemble (s : PEP) : SDP :=
  {| sdp_dim := counter_gens s;
     sdp_scalars := counter_scalars s;
     sdp_constraints := list_of_conditions s ++ interpolation_constraints s;
     sdp_objectives := list_of_performance_metrics s |}.

Section Scripts.

(** The external SDP solver (with the dimension-reduction heuristic it is
    asked to run, if any): a black box from the assembled problem to its
    answer. *)
Variable solver : option string -> SDP -> SolverOutput.

(** [problem.solve(verbose=..., dimension_reduction_heuristic=...)]:
    freeze the trajectory, emit the interpolation constraints, dispatch,
    and return the worst-case value or raise on a status other than
    optimal. *)
Definition solve (verbose : Z) (heuristic : option string) : M Q := fun s =>
  let sdp := assemble s in
  let out := solver heuristic sdp in
  let s' := mkPEP (counter_points s) (counter_gens s) (counter_scalars s)
              (functions s) (declared s) (list_of_conditions s)
              (list_of_performance_metrics s) true
              (trace s ++ [EvSolve sdp]) (stdout s) in
  match status out with
  | optimal => (s', Ok (objective out))
  | st => (s', Raise (SolveFailure st))
  end.

(** ** The scripts *)

(** gradient_descent.py *)
Definition wc_gd (L gamma : Q) (n : Z) (verbose : bool) : M (Q * Q) :=
  let* func := declare_function (SmoothStronglyConvexFunction 0 L) in
  let* xs := stationary_point func in
  let* fs := value func xs in
  let* x0 := set_initial_point in
  let* d := Point_sub x0 xs in
  do* set_initial_condition (Expr_le_const (Point_sq d) 1) in
  let* x := for_loop (fun _ x =>
              let* g := gradient func x in
              let* sg := Point_rmul gamma g in
              Point_sub x sg) (range n) x0 in
  let* fx := value func x in
  do* set_performance_metric (Expr_sub fx fs) in
  let* pepit_tau := solve (Z.b2z verbose) None in
  let* theoretical_tau := py_div L (inject_Z (2 * (2 * n + 1))) in
  do* (if verbose then
         do* print "*** Example file: worst-case performance of gradient descent with fixed step sizes ***" in
         do* print "PEP-it guarantee: f(x_n)-f_* <= {:.6} ||x_0 - x_*||^2" in
         print "Theoretical guarantee: f(x_n)-f_* <= {:.6} ||x_0 - x_*||^2"
       else ret tt) in
  ret (pepit_tau, theoretical_tau).

(** alternate_projections.py *)
Definition wc_alternate_projections (n : Z) (verbose : Z) : M (Q * option Q) :=
  let* ind_Q1 := declare_function (ConvexIndicatorFunction None) in
  let* ind_Q2 := declare_function (ConvexIndicatorFunction None) in
  let* func := Function_add ind_Q1 ind_Q2 in
  let* xs := stationary_point func in
  let* x0 := set_initial_point in
  let* x := for_loop (fun _ x =>
              let* '(y, _, _) := proximal_step x ind_Q1 1 in
              let* '(x, _, _) := proximal_step y ind_Q2 1 in
              ret x) (range n) x0 in
  let* '(proj1_x, _, _) := proximal_step x ind_Q1 1 in
  let proj2_x := x in
  let* d := Point_sub proj2_x proj1_x in
  do* set_performance_metric (Point_sq d) in
  let* d0 := Point_sub x0 xs in
  do* set_initial_condition (Expr_le_const (Point_sq d0) 1) in
  let pepit_verbose := Z.max verbose 0 in
  let* pepit_tau := solve pepit_verbose (Some "logdet1"%string) in
  let theoretical_tau : option Q := None in
  do* (if (verbose =? -1)%Z then ret tt else
         do* print "*** Example file: worst-case performance of the alternate projection method ***" in
         print "PEPit example: ||Proj_Q1 (xn) - Proj_Q2 (xn)||^2 == {:.6} ||x0 - x_*||^2") in
  ret (pepit_tau, theoretical_tau).

(** past_extragradient.py *)
Definition wc_past_extragradient (n : Z) (gamma L : Q) (verbose : Z)
  : M (Q * option Q) :=
  let* ind_C := declare_function (ConvexIndicatorFunction None) in
  let* F := declare_function (LipschitzStronglyMonotoneOperator 0 L) in
  let* total_problem := Function_add F ind_C in
  let* xs := stationary_point total_problem in
  let* x0 := set_initial_point in
  let* d0 := Point_sub x0 xs in
  do* set_initial_condition (Expr_le_const (Point_sq d0) 1) in
  let* '(x, _, _) := proximal_step x0 ind_C gamma in
  let xtilde := x in
  let* V := gradient F xtilde in
  let* '(x, xtilde, V, previous_x) :=
    for_loop (fun _ '(x, xtilde, V, previous_x) =>
        let* gV := Point_rmul gamma V in
        let* a := Point_sub x gV in
        let* '(xtilde, _, _) := proximal_step a ind_C gamma in
        let* V := gradient F xtilde in
        let previous_x := Some x in
        let* gV := Point_rmul gamma V in
        let* b := Point_sub x gV in
        let* '(x, _, _) := proximal_step b ind_C gamma in
        ret (x, xtilde, V, previous_x))
      (range n) (x, xtilde, V, None) in
  let* previous_x := read_var "previous_x" previous_x in
  let* d := Point_sub x previous_x in
  do* set_performance_metric (Point_sq d) in
  let pepit_verbose := Z.max verbose 0 in
  let* pepit_tau := solve pepit_verbose None in
  let theoretical_tau : option Q := None in
  do* (if (verbose =? -1)%Z then ret tt else
         do* print "*** Example file: worst-case performance of the Past Extragradient Method***" in
         print "PEPit guarantee: ||x(n) - x(n-1)||^2 <= {:.6} ||x0 - xs||^2") in
  ret (pepit_tau, theoretical_tau).

(** no_lips_2.py *)
Definition wc_no_lips2 (L gamma : Q) (n : Z) (verbose : bool) : M (Q * Q) :=
  let* d1 := declare_function (ConvexFunction true) in
  let* d2 := declare_function (ConvexFunction true) in
  let* d21 := Function_sub d2 d1 in
  let* func1 := Function_div d21 2 in
  let* d12 := Function_add d1 d2 in
  let* d12L := Function_div d12 L in
  let* h := Function_div d12L 2 in
  let* func2 := declare_function (ConvexIndicatorFunction None) in
  let* func := Function_add func1 func2 in
  let* x0 := set_initial_point in
  let* '(gh0, h0) := oracle h x0 in
  let* '(gf0, f0) := oracle func1 x0 in
  let* '(_, F0) := oracle func x0 in
  let* '(x1, x2, gfx, ghx, hx1, hx2) :=
    for_loop (fun i '(x1, x2, gfx, ghx, hx1, hx2) =>
        let* mirror := Function_add func2 h in
        let* '(x2, _, _) := bregman_gradient_step gfx ghx mirror gamma in
        let* '(gfx, _) := oracle func1 x2 in
        let* '(ghx, hx2) := oracle h x2 in
        let* dx := Point_sub x1 x2 in
        let Dhx := Expr_sub (Expr_sub hx1 hx2) (inner ghx dx) in
        let x1 := x2 in
        let hx1 := hx2 in
        do* set_performance_metric Dhx in
        ret (x1, x2, gfx, ghx, hx1, hx2))
      (range n) (x0, x0, gf0, gh0, h0, h0) in
  let* '(_, Fx) := oracle func x2 in
  do* set_initial_condition (Expr_le_const (Expr_sub F0 Fx) 1) in
  let* pepit_tau := solve (Z.b2z verbose) None in
  let* theoretical_tau := py_div gamma (inject_Z n) in
  do* (if verbose then
         do* print "*** Example file: worst-case performance of the NoLips_2 in Bregman distance ***" in
         do* print "PEP-it guarantee: min_n Dh(y_n, y_(n-1)) <= {:.6} Dh(y_0, x_*)" in
         print "Theoretical guarantee : min_n Dh(y_n, y_(n-1)) <= {:.6} Dh(y_0, x_*) "
       else ret tt) in
  ret (pepit_tau, theoretical_tau).

(** accelerated_douglas_rachford_splitting.py, from the declaration of the
    two functions to [fs = func.value(xs)]. *)
Definition wc_adrs_declarations (mu L : Q)
  : M (nat * nat * nat * Point * Expression) :=
  let* func1 := declare_function (ConvexFunction false) in
  let* func2 := declare_function (SmoothStronglyConvexFunction mu L) in
  let* func := Function_add func1 func2 in
  let* xs := stationary_point func in
  let* fs := value func xs in
  ret (func1, func2, func, xs, fs).

(** accelerated_douglas_rachford_splitting.py *)
Definition wc_adrs (mu L alpha : Q) (n : Z) (verbose : bool) : M (Q * Q) :=
  let* '(func1, func2, func, xs, fs) := wc_adrs_declarations mu L in
  let* '(g1s, _) := oracle func1 xs in
  let* '(g2s, _) := oracle func2 xs in
  let* x0 := set_initial_point in
  let* f0 := value func x0 in
  let* theta := py_div (1 - alpha * L) (1 + alpha * L) in
  let* ag := Point_rmul alpha g2s in
  let* ws := Point_add xs ag in
  let* d0 := Point_sub ws x0 in
  do* set_initial_condition (Expr_le_const (Point_sq d0) 1) in
  let x := map (fun _ => x0) (range n) in
  let w := map (fun _ => x0) (range (n + 1)) in
  let u := map (fun _ => x0) (range (n + 1)) in
  let* '(x, w, u, y, fy) :=
    for_loop (fun i '(x, w, u, y, fy) =>
        let* ui := list_get u i in
        let* '(xi, _, _) := proximal_step ui func2 alpha in
        let* x := list_set x i xi in
        let* xi := list_get x i in
        let* xi2 := Point_rmul 2 xi in
        let* ui := list_get u i in
        let* a := Point_sub xi2 ui in
        let* '(y, _, fy) := proximal_step a func1 alpha in
        let* ui := list_get u i in
        let* xi := list_get x i in
        let* yx := Point_sub y xi in
        let* tyx := Point_rmul theta yx in
        let* wi1 := Point_add ui tyx in
        let* w := list_set w (i + 1) wi1 in
        let* u :=
          if (1 <=? i)%Z then
            let* wi1 := list_get w (i + 1) in
            let* c := py_div (inject_Z (i - 1)) (inject_Z (i + 2)) in
            let* wi1' := list_get w (i + 1) in
            let* wi := list_get w i in
            let* dw := Point_sub wi1' wi in
            let* cdw := Point_rmul c dw in
            let* ui1 := Point_add wi1 cdw in
            list_set u (i + 1) ui1
          else
            let* wi1 := list_get w (i + 1) in
            list_set u (i + 1) wi1 in
        ret (x, w, u, Some y, Some fy))
      (range n) (x, w, u, None, None) in
  let* y := read_var "y" y in
  let* f2y := value func2 y in
  let* fy := read_var "fy" fy in
  do* set_performance_metric (Expr_sub (Expr_add f2y fy) fs) in
  let* pepit_tau := solve (Z.b2z verbose) None in
  let* theoretical_tau := py_div 2 (alpha * theta * inject_Z ((n + 3) ^ 2)) in
  do* (if verbose then
         do* print "*** Example file: worst-case performance of the Accelerated Douglas Rachford Splitting in function values ***" in
         do* print "PEP-it guarantee: F(y_n)-F_* <= {:.6} ||x0 - ws||^2" in
         print "Theoretical guarantee for quadratics : F(y_n)-F_* <= {:.6} ||x0 - ws||^2 "
       else ret tt) in
  ret (pepit_tau, theoretical_tau).

(** accelerated_proximal_gradient.py *)
Definition wc_accelerated_proximal_gradient (mu L : Q) (n : Z) (verbose : bool)
  : M (Q * Q) :=
  let* f := declare_function (SmoothStronglyConvexFunction mu L) in
  let* h := declare_function (ConvexFunction false) in
  let* F := Function_add f h in
  let* xs := stationary_point F in
  let* Fs := value F xs in
  let* x0 := set_initial_point in
  let* d0 := Point_sub x0 xs in
  do* set_initial_condition (Expr_le_const (Point_sq d0) 1) in
  let* '(x_new, y, x_old, hx_new) :=
    for_loop (fun i '(x_new, y, x_old, hx_new) =>
        let x_old := x_new in
        let* invL := py_div 1 L in
        let* gy := gradient f y in
        let* sg := Point_rmul invL gy in
        let* a := Point_sub y sg in
        let* step := py_div 1 L in
        let* '(x_new, _, hx_new) := proximal_step a h step in
        let* c := py_div (inject_Z i) (inject_Z (i + 3)) in
        let* dx := Point_sub x_new x_old in
        let* cdx := Point_rmul c dx in
        let* y := Point_add x_new cdx in
        ret (x_new, y, Some x_old, Some hx_new))
      (range n) (x0, x0, None, None) in
  let* fx := value f x_new in
  let* hx_new := read_var "hx_new" hx_new in
  do* set_performance_metric (Expr_sub (Expr_add fx hx_new) Fs) in
  let* pepit_tau := solve (Z.b2z verbose) None in
  let* theoretical_tau :=
    if Qeq_bool mu 0 then
      py_div (2 * L) (inject_Z (n ^ 2 + 5 * n + 2))
    else
      let* t := py_div (2 * L) (inject_Z (n ^ 2 + 5 * n + 2)) in
      do* print "Warning: momentum is tuned for non-strongly convex functions." in
      ret t in
  do* (if verbose then
         do* print "*** Example file: worst-case performance of the Fast Proximal Gradient Method in function values***" in
         do* print "PEP-it guarantee: f(x_n)-f_* <= {:.6} ||x0 - xs||^2" in
         print "Theoretical guarantee : f(x_n)-f_* <= {:.6} ||x0 - xs||^2 "
       else ret tt) in
  ret (pepit_tau, theoretical_tau).

(** gradient_descent_quadratics.py, the block "Compute theoretical guarantee
    (for comparison)": the local [alpha] and [theoretical_tau]. *)
Definition gdq_theoretical_tau (mu L gamma : Q) (n : Z) : M (Q * Q) :=
  let* t := py_div 1 (L * gamma * inject_Z (2 * n + 1)) in
  let* muL := py_div mu L in
  let* alpha :=
    if Qlt_bool t muL then py_div mu L
    else if Qlt_bool 1 t then ret 1
    else ret t in
  let* p1 := py_pow (1 - alpha * L * gamma) (2 * n) in
  let* p2 := py_pow (1 - L * gamma) (2 * n) in
  let theoretical_tau := (1 # 2) * L * Qmax (alpha * p1) p2 in
  ret (alpha, theoretical_tau).

(** gradient_descent_quadratics.py *)
Definition wc_gradient_descent_quadratics (mu L gamma : Q) (n : Z) (verbose : Z)
  : M (Q * Q) :=
  let* func := declare_function (SmoothStronglyConvexQuadraticFunction mu L) in
  let* xs := stationary_point func in
  let* fs := value func xs in
  let* x0 := set_initial_point in
  let* d0 := Point_sub x0 xs in
  do* set_initial_condition (Expr_le_const (Point_sq d0) 1) in
  let* x := for_loop (fun _ x =>
              let* g := gradient func x in
              let* sg := Point_rmul gamma g in
              Point_sub x sg) (range n) x0 in
  let* fx := value func x in
  do* set_performance_metric (Expr_sub fx fs) in
  let pepit_verbose := Z.max verbose 0 in
  let* pepit_tau := solve pepit_verbose None in
  let* '(alpha, theoretical_tau) := gdq_theoretical_tau mu L gamma n in
  do* (if (verbose =? -1)%Z then ret tt else
         do* print "*** Example file: worst-case performance of gradient descent on quadratics with fixed step-sizes ***" in
         do* print "PEPit guarantee: f(x_n)-f_* <= {:.6} ||x_0 - x_*||^2" in
         print "Theoretical guarantee: f(x_n)-f_* <= {:.6} ||x_0 - x_*||^2") in
  ret (pepit_tau, theoretical_tau).

(** HeavyBallMethod.py *)
Definition wc_heavyball (mu L alpha beta : Q) (n : Z) : M Q :=
  let* func := declare_function (SmoothStronglyConvexFunction mu L) in
  let* xs := stationary_point func in
  let* fs := value func xs in
  let* x0 := set_initial_point in
  let* d0 := Point_sub x0 xs in
  do* set_initial_condition (Expr_le_const (Point_sq d0) 1) in
  let x_old := x0 in
  let* g_old := gradient func x_old in
  let* invL := py_div 1 L in
  let* sg := Point_rmul (invL * alpha) g_old in
  let* x_new := Point_sub x_old sg in
  let* g_new := gradient func x_new in
  let* '(x_new, x_old, g_new) :=
    for_loop (fun _ '(x_new, x_old, g_new) =>
        let* aL := py_div alpha L in
        let* ag := Point_rmul aL g_new in
        let* a := Point_sub x_new ag in
        let* dx := Point_sub x_new x_old in
        let* bdx := Point_rmul beta dx in
        let* nx := Point_add a bdx in
        let '(x_new, x_old) := (nx, x_new) in
        let* g_new := gradient func x_new in
        ret (x_new, x_old, g_new))
      (range n) (x_new, x_old, g_new) in
  let* fx := value func x_new in
  do* set_performance_metric (Expr_sub fx fs) in
  let* wc := solve 1 None in
  do* print "*** Example file: worst-case performance of the heavy-ball method (HBM) in function values ***" in
  do* print "PEP-it guarantee: f(y_n)-f_* <= " in
  ret wc.

End Scripts.

(** ** A solver stub for concrete runs: it answers [optimal] with value [v]
    and the zero Gram matrix. *)
Definition stub_solver (v : Q) : option string -> SDP -> SolverOutput :=
  fun _ _ => mkOutput optimal v (fun _ _ => 0) (fun _ => 0).

(** ** Lifecycle traces *)

Inductive Kind := KInitialCondition | KPerformanceMetric | KSolve.

Definition kind (e : Event) : Kind :=
  match e with
  | EvInitialCondition _ => KInitialCondition
  | EvPerformanceMetric _ => KPerformanceMetric
  | EvSolve _ => KSolve
  end.

Definition kinds (s : PEP) : list Kind := map kind (trace s).

(** The claim's order on a trace: every initial condition comes before every
    performance metric, and there is exactly one solve. *)
Definition conditions_before_metrics (K : list Kind) : Prop :=
  forall i j, K !! i = Some KPerformanceMetric ->
              K !! j = Some KInitialCondition -> (j < i)%nat.

(** A computation that makes no lifecycle call, whatever its outcome. *)
Definition silent {A} (m : M A) : Prop :=
  forall s, trace (fst (m s)) = trace s.

(** A computation whose lifecycle calls are [K] when it returns, and a
    prefix of [K] when it raises. *)
Definition emits {A} (m : M A) (K : list Kind) : Prop :=
  forall s, exists K',
    kinds (fst (m s)) = kinds s ++ K' /\
    match snd (m s) with
    | Ok _ => K' = K
    | Raise _ => K' `prefix_of` K
    end.

(** ** Reasoning about runs *)

(** The run returns a value, and the value and final state satisfy [Q]. *)
Definition ok {A} (m : M A) (s : PEP) (Q : A -> PEP -> Prop) : Prop :=
  exists a s', m s = (s', Ok a) /\ Q a s'.

(** Every Function object of [s] is still in [s'], with its class and its
    decomposition. *)
Definition preserved (s s' : PEP) : Prop :=
  forall f fn, functions s !! f = Some fn ->
    exists fn', functions s' !! f = Some fn' /\
                fclass fn' = fclass fn /\ fdec fn' = fdec fn.

(** A step of trajectory recording: no lifecycle call, nothing registered
    on the Problem, the trajectory not frozen by it. *)
Record steady (s s' : PEP) : Prop := mk_steady {
  steady_frozen : frozen s' = frozen s;
  steady_trace : trace s' = trace s;
  steady_conditions : list_of_conditions s' = list_of_conditions s;
  steady_metrics : list_of_performance_metrics s' = list_of_performance_metrics s;
  steady_functions : preserved s s'
}.

(** A declared (leaf) Function. *)
Definition leaf (f : nat) (s : PEP) : Prop :=
  exists fn cls, functions s !! f = Some fn /\
                 fclass fn = Some cls /\ fdec fn = [(f, 1)].

(** The weight by which [distribute] divides is not zero. *)
Definition weights_ok (dec : list (nat * Q)) : Prop :=
  match last dec with
  | Some (_, w) => Qeq_bool w 0 = false
  | None => True
  end.

(** A Function on which a triple can be recorded by [add_point]. *)
Definition recordable (f : nat) (s : PEP) : Prop :=
  exists fn, functions s !! f = Some fn /\
             (is_Some (fclass fn) \/ weights_ok (fdec fn)).

(** A computation that, on a trajectory not yet frozen where the Functions
    of [R] are recordable, returns a value satisfying [P] after steady
    steps. *)
Definition engine (R : list nat) {A} (m : M A) (P : A -> Prop) : Prop :=
  forall s, frozen s = false -> (forall f, f ∈ R -> recordable f s) ->
    ok m s (fun a s' => steady s s' /\ P a).

(** The outcome of a run, returned or raised, satisfies [Q]. *)
Definition wp {A} (m : M A) (s : PEP) (Q : PEP -> result A -> Prop) : Prop :=
  Q (fst (m s)) (snd (m s)).

(** A Problem under construction: not frozen, with lifecycle trace [T],
    registered conditions [C] and metrics [Ms], the Functions of [R]
    recordable. *)
Definition ready (T : list Event) (C : list Constraint) (Ms : list Expression)
  (R : list nat) (s : PEP) : Prop :=
  frozen s = false /\ trace s = T /\ list_of_conditions s = C /\
  list_of_performance_metrics s = Ms /\ forall f, f ∈ R -> recordable f s.

(** A computation outside the engine (arithmetic, printing): it returns a
    value satisfying [P] and makes no lifecycle call. *)
Definition plain {A} (m : M A) (P : A -> Prop) : Prop :=
  forall s, ok m s (fun a s' => trace s' = trace s /\ P a).

(** The outcome of a script that registers one initial condition, then one
    performance metric, and solves: the lifecycle trace, and the result
    [K tau] computed from the solver's value [tau], or the solve failure. *)
Definition solved_with {A} (solver : option string -> SDP -> SolverOutput)
  (h : option string) (K : Q -> result A) (s' : PEP) (r : result A) : Prop :=
  exists c e sdp,
    trace s' = [EvInitialCondition c; EvPerformanceMetric e; EvSolve sdp] /\
    sdp_objectives sdp = [e] /\
    r = match status (solver h sdp) with
        | optimal => K (objective (solver h sdp))
        | st => Raise (SolveFailure st)
        end.

(** A computation that does not touch the state: it has the same result
    [r] from every state. *)
Definition pure_result {A} (m : M A) (r : result A) : Prop :=
  forall s, m s = (s, r).

(** The projection of [t] onto the interval [[lo, hi]]. *)
Definition proj_interval (lo hi t : Q) : Q := Qmax lo (Qmin hi t).

(** The lengths of the lists [x], [w], [u] of the script. *)
Definition adrs_lists (n : Z)
  (acc : list Point * list Point * list Point * option Point * option Expression)
  : Prop :=
  let '(x, w, u, _, _) := acc in
  length x = Z.to_nat n /\ length w = S (Z.to_nat n) /\ length u = S (Z.to_nat n).

Definition adrs_bound (n : Z)
  (acc : list Point * list Point * list Point * option Point * option Expression)
  : Prop :=
  adrs_lists n acc /\ is_Some (snd (fst acc)) /\ is_Some (snd acc).


(** ** Realized values

    The value of an Expression at a Gram matrix [G] (inner products of the
    basis generators) and a vector [F] of scalar values. *)
Definition inner_gram (G : nat -> nat -> Q) (p q : list (nat * Q)) : Q :=
  fold_right (fun ia acc =>
    fold_right (fun jb acc' => snd ia * snd jb * G (fst ia) (fst jb) + acc') 0 q
    + acc) 0 p.

Definition eval_expr (G : nat -> nat -> Q) (F : nat -> Q) (e : Expression) : Q :=
  econst e
  + fold_right (fun sc acc => snd sc * F (fst sc) + acc) 0 (elin e)
  + fold_right (fun pqc acc =>
      snd pqc * inner_gram G (pdec (fst (fst pqc))) (pdec (snd (fst pqc))) + acc)
      0 (ebil e).

(** The bound is the minimum of the candidate metrics. *)
Definition objective_value (G : nat -> nat -> Q) (F : nat -> Q)
  (es : list Expression) : Q :=
  match map (eval_expr G F) es with
  | [] => 0
  | v :: vs => fold_left Qmin vs v
  end.

(** A positive semidefinite Gram matrix, as a quadratic form on coefficient
    lists. *)
Definition psd (G : nat -> nat -> Q) : Prop :=
  forall v : list (nat * Q), 0 <= inner_gram G v v.

(** The solver's contract used for the sign of the returned value: when it
    reports [optimal], its objective value is the one realized by the
    metrics at the Gram matrix and scalars it returns, and that Gram matrix
    is positive semidefinite. *)
Definition realizes (sdp : SDP) (out : SolverOutput) : Prop :=
  psd (gram out) /\
  objective out == objective_value (gram out) (scalars out) (sdp_objectives sdp).

Definition exact_solver (solver : option string -> SDP -> SolverOutput) : Prop :=
  forall h sdp, status (solver h sdp) = optimal -> realizes sdp (solver h sdp).

(** A solver answering with the zero Gram matrix and zero scalars. *)
Definition zero_solver : option string -> SDP -> SolverOutput :=
  fun _ sdp =>
    mkOutput optimal
      (objective_value (fun _ _ => 0) (fun _ => 0) (sdp_objectives sdp))
      (fun _ _ => 0) (fun _ => 0).

(** ** The engine's invariants *)

(** Every decomposition refers to declared (leaf) Functions of the
    registry. *)
Definition well_formed (s : PEP) : Prop :=
  forall f fn, functions s !! f = Some fn ->
    forall lw, lw ∈ fdec fn ->
      exists fl cls, functions s !! (fst lw) = Some fl /\ fclass fl = Some cls.

(** A computation that leaves an observation [obs] of the state as it
    finds it, whatever its outcome. *)
Definition keeps {X A} (obs : PEP -> X) (m : M A) : Prop :=
  forall s, obs (fst (m s)) = obs s.

(** What [oracle] on Function [f] does not change when it records on other
    Functions: the record of [f] and the frozen flag. *)
Definition function_view (f : nat) (s : PEP) : option Function * bool :=
  (functions s !! f, frozen s).

(** ** Trajectories on a combined Function *)

Definition has_key (k : nat) (d : list (nat * Q)) : Prop :=
  exists c, (k, c) ∈ d.

(** A reference to a Function in a trajectory: the combined Function under
    study, or another Function of the registry. *)
Inductive FRef := Combined | Other (f : nat).

Definition resolve (F : nat) (r : FRef) : nat :=
  match r with
  | Combined => F
  | Other f => f
  end.

(** The steps of a trajectory; Points are referred to by their position in
    the list of the Points built so far. *)
Inductive Step :=
| StInitialPoint                                   (* set_initial_point() *)
| StStationary (f : FRef)                          (* f.stationary_point() *)
| StOracle (f : FRef) (p : nat)                    (* f.oracle(points[p]) *)
| StProximal (p : nat) (f : FRef) (step : Q)       (* proximal_step(points[p], f, step) *)
| StCombine (a : Q) (p : nat) (b : Q) (q : nat)    (* a * points[p] + b * points[q] *)
| StInitialCondition (p : nat) (c : Q)             (* points[p] ** 2 <= c *)
| StMetric (p : nat).                              (* points[p] ** 2 *)

Definition point_at (env : list Point) (i : nat) : M Point :=
  match env !! i with
  | Some p => ret p
  | None => raise IndexError
  end.

Definition run_step (F : nat) (st : Step) (env : list Point) : M (list Point) :=
  match st with
  | StInitialPoint =>
      let* x := set_initial_point in ret (env ++ [x])
  | StStationary f =>
      let* x := stationary_point (resolve F f) in ret (env ++ [x])
  | StOracle f p =>
      let* x := point_at env p in
      let* gv := oracle (resolve F f) x in
      ret (env ++ [fst gv])
  | StProximal p f step =>
      let* x := point_at env p in
      let* ygv := proximal_step x (resolve F f) step in
      ret (env ++ [fst (fst ygv)])
  | StCombine a p b q =>
      let* x := point_at env p in
      let* y := point_at env q in
      let* ax := Point_rmul a x in
      let* bq := Point_rmul b y in
      let* z := Point_add ax bq in
      ret (env ++ [z])
  | StInitialCondition p c =>
      let* x := point_at env p in
      do* set_initial_condition (Expr_le_const (Point_sq x) c) in
      ret env
  | StMetric p =>
      let* x := point_at env p in
      do* set_performance_metric (Point_sq x) in
      ret env
  end.

Fixpoint run_steps (F : nat) (steps : list Step) (env : list Point)
  : M (list Point) :=
  match steps with
  | [] => ret env
  | st :: steps' =>
      let* env' := run_step F st env in run_steps F steps' env'
  end.

(** The other Functions a step refers to exist before the combination. *)
Definition step_refs_below (k : nat) (st : Step) : Prop :=
  match st with
  | StStationary (Other f) | StOracle (Other f) _ | StProximal _ (Other f) _ =>
      (f < k)%nat
  | _ => True
  end.

(** The same trajectory on [(f1 + f2) + f3] and on [f1 + (f2 + f3)]. *)
Definition problem_left (f1 f2 f3 : nat) (steps : list Step) : M (list Point) :=
  let* f12 := Function_add f1 f2 in
  let* F := Function_add f12 f3 in
  run_steps F steps [].

Definition problem_right (f1 f2 f3 : nat) (steps : list Step) : M (list Point) :=
  let* f23 := Function_add f2 f3 in
  let* F := Function_add f1 f23 in
  run_steps F steps [].

Definition declared_in_registry (s : PEP) : Prop :=
  forall f, f ∈ declared s -> (f < length (functions s))%nat.

(** The state with the Function object [k] blanked out. *)
Definition erase (k : nat) (s : PEP) : PEP :=
  set_functions (<[k := empty_function]> (functions s)) s.

(** No decomposition and no declaration refers to Function [k]. *)
Definition hidden (k : nat) (s : PEP) : Prop :=
  (forall i fn, functions s !! i = Some fn ->
     forall lw, lw ∈ fdec fn -> fst lw <> k) /\
  k ∉ declared s.

(** A computation whose outcome and effect do not depend on the Function
    object [k]. *)
Definition blind (k : nat) {A} (m : M A) (P : A -> Prop) : Prop :=
  forall s, hidden k s ->
    snd (m s) = snd (m (erase k s)) /\
    erase k (fst (m s)) = erase k (fst (m (erase k s))) /\
    hidden k (fst (m s)) /\
    (forall a, snd (m s) = Ok a -> P a).

(** ** Outcomes of a script that raises before it solves *)

(** The script raised [e] once its initial condition was registered: no
    performance metric was registered and the solver was not called. *)
Definition raised_after_condition {A} (e : exn) (s' : PEP) (r : result A) : Prop :=
  r = Raise e /\ exists c, trace s' = [EvInitialCondition c].

(** The script raised [e] before any lifecycle call on the Problem. *)
Definition raised_before_any_call {A} (e : exn) (s' : PEP) (r : result A) : Prop :=
  r = Raise e /\ trace s' = [].

(** ** The NoLips script's loop *)

(** Function [f] of the registry has decomposition [d]. *)
Definition has_dec (f : nat) (d : list (nat * Q)) (s : PEP) : Prop :=
  exists fn, functions s !! f = Some fn /\ fdec fn = d.

(** no_lips_2.py, the body of the loop, with the Functions and the step
    size it refers to as parameters. *)
Definition no_lips2_body (func1 func2 h : nat) (gamma : Q) (i : Z)
  (acc : Point * Point * Point * Point * Expression * Expression)
  : M (Point * Point * Point * Point * Expression * Expression) :=
  let '(x1, x2, gfx, ghx, hx1, hx2) := acc in
  let* mirror := Function_add func2 h in
  let* '(x2, _, _) := bregman_gradient_step gfx ghx mirror gamma in
  let* '(gfx, _) := oracle func1 x2 in
  let* '(ghx, hx2) := oracle h x2 in
  let* dx := Point_sub x1 x2 in
  let Dhx := Expr_sub (Expr_sub hx1 hx2) (inner ghx dx) in
  let x1 := x2 in
  let hx1 := hx2 in
  do* set_performance_metric Dhx in
  ret (x1, x2, gfx, ghx, hx1, hx2).

(** ** The size of the problem of gradient descent *)

(** The registries during the loop of [wc_gd], after [k] gradient steps,
    the current iterate being [x]: one declared Function, of the class of
    the script, holding [k + 1] triples recorded at Points older than [x];
    [k + 2] basis generators and [k + 1] scalar unknowns; one condition
    and no metric on the Problem. *)
Definition gd_state (L : Q) (k : nat) (x : Point) (s : PEP) : Prop :=
  frozen s = false /\
  counter_gens s = (k + 2)%nat /\
  counter_scalars s = (k + 1)%nat /\
  declared s = [0%nat] /\
  length (list_of_conditions s) = 1%nat /\
  list_of_performance_metrics s = [] /\
  (exists c, trace s = [EvInitialCondition c]) /\
  (pkey x < counter_points s)%nat /\
  exists fn,
    functions s = [fn] /\
    fclass fn = Some (SmoothStronglyConvexFunction 0 L) /\
    length (fpoints fn) = (k + 1)%nat /\
    forall t, t ∈ fpoints fn -> (pkey (fst (fst t)) < pkey x)%nat.

(** gradient_descent.py, one step of the loop. *)
Definition gd_body (func : nat) (gamma : Q) (i : Z) (x : Point) : M Point :=
  let* g := gradient func x in
  let* sg := Point_rmul gamma g in
  Point_sub x sg.

(** ** The size of the problem of alternate projections *)

(** The registries during the loop of [wc_alternate_projections], after
    [k] pairs of projections: the two declared indicator Functions hold
    [k + 1] triples each, [2k + 3] basis generators exist, and nothing is
    registered on the Problem yet. *)
Definition alt_state (k : nat) (s : PEP) : Prop :=
  frozen s = false /\
  counter_gens s = (2 * k + 3)%nat /\
  declared s = [0%nat; 1%nat] /\
  list_of_conditions s = [] /\
  list_of_performance_metrics s = [] /\
  trace s = [] /\
  exists f1 f2 F,
    functions s = [f1; f2; F] /\
    fclass f1 = Some (ConvexIndicatorFunction None) /\
    fclass f2 = Some (ConvexIndicatorFunction None) /\
    length (fpoints f1) = (k + 1)%nat /\
    length (fpoints f2) = (k + 1)%nat.

(** alternate_projections.py, one step of the loop. *)
Definition alt_body (ind_Q1 ind_Q2 : nat) (i : Z) (x : Point) : M Point :=
  let* '(y, _, _) := proximal_step x ind_Q1 1 in
  let* '(x, _, _) := proximal_step y ind_Q2 1 in
  ret x.

(** ** The size of the problem of the past extragradient method *)

(** The registries of [wc_past_extragradient] once its initial condition
    is registered: [g] basis generators, the indicator function (Function
    0) holding [a] triples and the operator (Function 1) holding [b]
    triples, all recorded at Points that exist. *)
Definition pe_regs (L : Q) (g a b : nat) (s : PEP) : Prop :=
  frozen s = false /\
  counter_gens s = g /\
  declared s = [0%nat; 1%nat] /\
  length (list_of_conditions s) = 1%nat /\
  list_of_performance_metrics s = [] /\
  (exists c, trace s = [EvInitialCondition c]) /\
  exists f0 f1 F,
    functions s = [f0; f1; F] /\
    fclass f0 = Some (ConvexIndicatorFunction None) /\
    fclass f1 = Some (LipschitzStronglyMonotoneOperator 0 L) /\
    length (fpoints f0) = a /\
    length (fpoints f1) = b /\
    forall t, t ∈ fpoints f1 -> (pkey (fst (fst t)) < counter_points s)%nat.

(** past_extragradient.py, one step of the loop. *)
Definition pe_body (ind_C F : nat) (gamma : Q) (i : Z)
  (acc : Point * Point * Point * option Point)
  : M (Point * Point * Point * option Point) :=
  let '(x, xtilde, V, previous_x) := acc in
  let* gV := Point_rmul gamma V in
  let* a := Point_sub x gV in
  let* '(xtilde, _, _) := proximal_step a ind_C gamma in
  let* V := gradient F xtilde in
  let previous_x := Some x in
  let* gV := Point_rmul gamma V in
  let* b := Point_sub x gV in
  let* '(x, _, _) := proximal_step b ind_C gamma in
  ret (x, xtilde, V, previous_x).

(** * Properties *)

Section Silent.

Lemma silent_ret {A} (a : A) : silent (ret a).
Proof. intros s; reflexivity. Qed.

Lemma silent_raise {A} (e : exn) : silent (@raise A e).
Proof. intros s; reflexivity. Qed.

Lemma silent_bind {A B} (m : M A) (f : A -> M B) :
  silent m -> (forall a, silent (f a)) -> silent (bind m f).
Proof.
  intros Hm Hf s. unfold bind. specialize (Hm s).
  destruct (m s) as [s1 [a|e]]; simpl in *.
  - rewrite Hf. exact Hm.
  - exact Hm.
Qed.

Lemma silent_for_loop {A} (body : Z -> A -> M A) rng acc :
  (forall i a, silent (body i a)) -> silent (for_loop body rng acc).
Proof.
  intros Hb. revert acc. induction rng as [|i rng IH]; intros acc; simpl.
  - apply silent_ret.
  - apply silent_bind; auto.
Qed.

Lemma silent_read_var {A} name (v : option A) : silent (read_var name v).
Proof. destruct v; intros s; reflexivity. Qed.

Lemma silent_py_div a b : silent (py_div a b).
Proof. unfold py_div. destruct (Qeq_bool b 0); intros s; reflexivity. Qed.

Lemma silent_py_pow a k : silent (py_pow a k).
Proof. unfold py_pow. destruct (_ && _); intros s; reflexivity. Qed.

Lemma silent_list_get {A} (l : list A) i : silent (list_get l i).
Proof.
  unfold list_get. destruct (py_index _ _); [destruct (l !! _)|];
    intros s; reflexivity.
Qed.

Lemma silent_list_set {A} (l : list A) i v : silent (list_set l i v).
Proof. unfold list_set. destruct (py_index _ _); intros s; reflexivity. Qed.

Lemma silent_print line : silent (print line).
Proof. intros s; reflexivity. Qed.

Lemma silent_Point_leaf : silent Point_leaf.
Proof. intros s; reflexivity. Qed.

Lemma silent_Point_new d : silent (Point_new d).
Proof. intros s; reflexivity. Qed.

Lemma silent_Expr_leaf : silent Expr_leaf.
Proof. intros s; reflexivity. Qed.

Lemma silent_get_function f : silent (get_function f).
Proof. intros s; reflexivity. Qed.

Lemma silent_new_function fn : silent (new_function fn).
Proof. intros s; reflexivity. Qed.

Lemma silent_declare_function cls : silent (declare_function cls).
Proof. intros s; reflexivity. Qed.

Lemma silent_record_triple f t : silent (record_triple f t).
Proof. intros s; reflexivity. Qed.

Lemma silent_check_not_frozen : silent check_not_frozen.
Proof. intros s. unfold check_not_frozen. destruct (frozen s); reflexivity. Qed.

End Silent.

Create HintDb silent.
#[export] Hint Resolve silent_ret silent_raise silent_read_var silent_py_div
  silent_py_pow silent_list_get silent_list_set silent_print silent_Point_leaf
  silent_Point_new silent_Expr_leaf silent_get_function silent_new_function
  silent_declare_function silent_record_triple silent_check_not_frozen
  : silent.

(** Decompose a [silent] goal along the structure of the computation. *)
Ltac silent_tac :=
  repeat first
    [ progress cbv beta
    | solve [auto with silent]
    | apply silent_bind; [ | intros ]
    | apply silent_for_loop; intros
    | match goal with
      | |- silent (match ?x with _ => _ end) => destruct x
      | |- silent (let '(_, _) := ?x in _) => destruct x
      end ].

Section SilentEngine.

Lemma silent_Point_add p q : silent (Point_add p q).
Proof. unfold Point_add. silent_tac. Qed.

Lemma silent_Point_rmul a p : silent (Point_rmul a p).
Proof. unfold Point_rmul. silent_tac. Qed.

Lemma silent_Point_zero : silent Point_zero.
Proof. unfold Point_zero. silent_tac. Qed.

Lemma silent_Point_sub p q : silent (Point_sub p q).
Proof. unfold Point_sub, Point_neg, Point_add, Point_rmul. silent_tac. Qed.

Lemma silent_Point_div p a : silent (Point_div p a).
Proof. unfold Point_div, Point_rmul. silent_tac. Qed.

Lemma silent_Function_add f g : silent (Function_add f g).
Proof. unfold Function_add. silent_tac. Qed.

Lemma silent_Function_rmul a f : silent (Function_rmul a f).
Proof. unfold Function_rmul. silent_tac. Qed.

Lemma silent_Function_sub f g : silent (Function_sub f g).
Proof.
  unfold Function_sub, Function_neg, Function_add, Function_rmul. silent_tac.
Qed.

Lemma silent_Function_div f a : silent (Function_div f a).
Proof. unfold Function_div, Function_rmul. silent_tac. Qed.

Lemma silent_oracle_leaf f p : silent (oracle_leaf f p).
Proof. unfold oracle_leaf. silent_tac. Qed.

Lemma silent_oracle_sum dec p g v : silent (oracle_sum dec p g v).
Proof.
  revert g v. induction dec as [|[leaf w] dec IH]; intros g v; simpl.
  - silent_tac.
  - pose proof silent_oracle_leaf. pose proof silent_Point_rmul.
    pose proof silent_Point_add. silent_tac.
Qed.

Lemma silent_oracle f p : silent (oracle f p).
Proof.
  unfold oracle. pose proof silent_oracle_leaf. pose proof silent_oracle_sum.
  pose proof silent_Point_zero. silent_tac.
Qed.

Lemma silent_gradient f p : silent (gradient f p).
Proof. unfold gradient. pose proof silent_oracle. silent_tac. Qed.

Lemma silent_value f p : silent (value f p).
Proof. unfold value. pose proof silent_oracle. silent_tac. Qed.

Lemma silent_distribute dec p g v : silent (distribute dec p g v).
Proof.
  revert g v. induction dec as [|[leaf w] dec IH]; intros g v.
  - simpl. silent_tac.
  - pose proof silent_oracle_leaf. pose proof silent_Point_rmul.
    pose proof silent_Point_sub. pose proof silent_Point_div.
    destruct dec as [|lw dec]; [simpl; silent_tac|].
    change (silent (let* '(gl, vl) := oracle_leaf leaf p in
                    let* wg := Point_rmul w gl in
                    let* g' := Point_sub g wg in
                    distribute (lw :: dec) p g' (Expr_sub v (Expr_rmul w vl)))).
    silent_tac.
Qed.

Lemma silent_add_point f t : silent (add_point f t).
Proof. unfold add_point. pose proof silent_distribute. silent_tac. Qed.

Lemma silent_stationary_point f : silent (stationary_point f).
Proof.
  unfold stationary_point. pose proof silent_add_point.
  pose proof silent_Point_zero. silent_tac.
Qed.

Lemma silent_proximal_step x f step : silent (proximal_step x f step).
Proof.
  unfold proximal_step. pose proof silent_add_point.
  pose proof silent_Point_rmul. pose proof silent_Point_sub. silent_tac.
Qed.

Lemma silent_bregman_gradient_step g sx f step :
  silent (bregman_gradient_step g sx f step).
Proof.
  unfold bregman_gradient_step. pose proof silent_add_point.
  pose proof silent_Point_rmul. pose proof silent_Point_sub. silent_tac.
Qed.

Lemma silent_set_initial_point : silent set_initial_point.
Proof. apply silent_Point_leaf. Qed.

End SilentEngine.

#[export] Hint Resolve silent_Point_add silent_Point_rmul silent_Point_zero
  silent_Point_sub silent_Point_div silent_Function_add silent_Function_rmul
  silent_Function_sub silent_Function_div silent_oracle_leaf silent_oracle
  silent_gradient silent_value silent_add_point silent_stationary_point
  silent_proximal_step silent_bregman_gradient_step silent_set_initial_point
  : silent.

Section Emits.
Variable solver : option string -> SDP -> SolverOutput.

Lemma emits_silent {A} (m : M A) : silent m -> emits m [].
Proof.
  intros Hm s. exists []. unfold kinds. rewrite Hm, app_nil_r. split; [done|].
  destruct (snd (m s)); [done | by exists []].
Qed.

Lemma emits_bind {A B} (m : M A) (f : A -> M B) K1 K2 :
  emits m K1 -> (forall a, emits (f a) K2) -> emits (bind m f) (K1 ++ K2).
Proof.
  intros Hm Hf s. unfold bind. destruct (Hm s) as (K' & HK & Hr).
  destruct (m s) as [s1 [a|e]]; simpl in *.
  - subst K'. destruct (Hf a s1) as (K'' & HK' & Hr').
    exists (K1 ++ K''). rewrite HK', HK, app_assoc. split; [done|].
    destruct (snd (f a s1)).
    + by subst.
    + by apply prefix_app.
  - exists K'. split; [done|]. by apply prefix_app_r.
Qed.

Lemma emits_bind_silent {A B} (m : M A) (f : A -> M B) K :
  silent m -> (forall a, emits (f a) K) -> emits (bind m f) K.
Proof. intros Hm Hf. apply (emits_bind m f [] K); auto using emits_silent. Qed.

Lemma emits_bind_event {A B} (m : M A) (f : A -> M B) k K :
  emits m [k] -> (forall a, emits (f a) K) -> emits (bind m f) (k :: K).
Proof. intros Hm Hf. apply (emits_bind m f [k] K); auto. Qed.

Lemma emits_set_initial_condition c :
  emits (set_initial_condition c) [KInitialCondition].
Proof.
  intros s. exists [KInitialCondition]. split; [|done].
  unfold kinds; simpl. by rewrite map_app.
Qed.

Lemma emits_set_performance_metric e :
  emits (set_performance_metric e) [KPerformanceMetric].
Proof.
  intros s. exists [KPerformanceMetric]. split; [|done].
  unfold kinds; simpl. by rewrite map_app.
Qed.

Lemma emits_solve v h : emits (solve solver v h) [KSolve].
Proof.
  intros s. exists [KSolve]. unfold solve.
  destruct (status _); simpl; unfold kinds; simpl; rewrite map_app; done.
Qed.

Lemma emits_for_loop {A} (body : Z -> A -> M A) rng acc k :
  (forall i a, emits (body i a) [k]) ->
  emits (for_loop body rng acc) (repeat k (length rng)).
Proof.
  intros Hb. revert acc. induction rng as [|i rng IH]; intros acc; simpl.
  - apply emits_silent, silent_ret.
  - apply emits_bind_event; auto.
Qed.

End Emits.

Create HintDb emits.
#[export] Hint Resolve emits_set_initial_condition emits_set_performance_metric
  emits_solve : emits.

Ltac emits_tac :=
  repeat first
    [ progress cbv beta
    | apply emits_silent; solve [silent_tac]
    | apply emits_bind_silent; [ solve [silent_tac] | intros ]
    | apply emits_bind_event; [ solve [auto with emits] | intros ]
    | match goal with
      | |- emits (match ?x with _ => _ end) _ => destruct x
      end ].

Section ScriptTraces.
Variable solver : option string -> SDP -> SolverOutput.

Lemma emits_wc_gd L gamma n verbose :
  emits (wc_gd solver L gamma n verbose)
        [KInitialCondition; KPerformanceMetric; KSolve].
Proof. unfold wc_gd. emits_tac. Qed.

Lemma emits_wc_alternate_projections n verbose :
  emits (wc_alternate_projections solver n verbose)
        [KPerformanceMetric; KInitialCondition; KSolve].
Proof. unfold wc_alternate_projections. emits_tac. Qed.

Lemma emits_wc_past_extragradient n gamma L verbose :
  emits (wc_past_extragradient solver n gamma L verbose)
        [KInitialCondition; KPerformanceMetric; KSolve].
Proof. unfold wc_past_extragradient. emits_tac. Qed.

Lemma emits_wc_adrs mu L alpha n verbose :
  emits (wc_adrs solver mu L alpha n verbose)
        [KInitialCondition; KPerformanceMetric; KSolve].
Proof. unfold wc_adrs, wc_adrs_declarations. emits_tac. Qed.

Lemma emits_wc_accelerated_proximal_gradient mu L n verbose :
  emits (wc_accelerated_proximal_gradient solver mu L n verbose)
        [KInitialCondition; KPerformanceMetric; KSolve].
Proof. unfold wc_accelerated_proximal_gradient. emits_tac. Qed.

Lemma emits_wc_gradient_descent_quadratics mu L gamma n verbose :
  emits (wc_gradient_descent_quadratics solver mu L gamma n verbose)
        [KInitialCondition; KPerformanceMetric; KSolve].
Proof. unfold wc_gradient_descent_quadratics. emits_tac. Qed.

Lemma emits_wc_heavyball mu L alpha beta n :
  emits (wc_heavyball solver mu L alpha beta n)
        [KInitialCondition; KPerformanceMetric; KSolve].
Proof. unfold wc_heavyball. emits_tac. Qed.

Lemma length_range n : length (range n) = Z.to_nat n.
Proof. unfold range. by rewrite length_map, length_seq. Qed.

Lemma emits_wc_no_lips2 L gamma n verbose :
  emits (wc_no_lips2 solver L gamma n verbose)
        (repeat KPerformanceMetric (Z.to_nat n) ++ [KInitialCondition; KSolve]).
Proof.
  unfold wc_no_lips2.
  repeat first [ progress cbv beta
               | apply emits_bind_silent; [ solve [silent_tac] | intros ]
               | match goal with
                 | |- emits (match ?x with _ => _ end) _ => destruct x
                 end ].
  rewrite <- (length_range n).
  apply emits_bind.
  - apply emits_for_loop. intros ? ?. emits_tac.
  - intros ?. emits_tac.
Qed.

End ScriptTraces.

(** ** Steady steps *)

Section Steady.

Lemma preserved_refl s : preserved s s.
Proof. intros f fn H. by exists fn. Qed.

Lemma preserved_trans s1 s2 s3 :
  preserved s1 s2 -> preserved s2 s3 -> preserved s1 s3.
Proof.
  intros H12 H23 f fn H. destruct (H12 f fn H) as (fn2 & H2 & Hc2 & Hd2).
  destruct (H23 f fn2 H2) as (fn3 & H3 & Hc3 & Hd3).
  exists fn3. repeat split; congruence.
Qed.

Lemma steady_refl s : steady s s.
Proof. split; auto using preserved_refl. Qed.

Lemma steady_trans s1 s2 s3 : steady s1 s2 -> steady s2 s3 -> steady s1 s3.
Proof.
  intros [] []. split; try congruence. eauto using preserved_trans.
Qed.

Lemma leaf_preserved f s s' : preserved s s' -> leaf f s -> leaf f s'.
Proof.
  intros Hp (fn & cls & H & Hc & Hd). destruct (Hp f fn H) as (fn' & H' & Hc' & Hd').
  exists fn', cls. repeat split; congruence.
Qed.

Lemma recordable_preserved f s s' :
  preserved s s' -> recordable f s -> recordable f s'.
Proof.
  intros Hp (fn & H & Hr). destruct (Hp f fn H) as (fn' & H' & Hc' & Hd').
  exists fn'. split; [done|]. by rewrite Hc', Hd'.
Qed.

Lemma leaf_recordable f s : leaf f s -> recordable f s.
Proof. intros (fn & cls & H & Hc & Hd). exists fn. split; [done|]. left. by rewrite Hc. Qed.

Lemma preserved_app s fs :
  preserved s (set_functions (functions s ++ fs) s).
Proof.
  intros f fn H. exists fn. split; [|done]. simpl.
  by apply lookup_app_l_Some.
Qed.

Lemma preserved_record s f t :
  preserved s (fst (record_triple f t s)).
Proof.
  intros g fn H. simpl.
  destruct (decide (f = g)) as [->|Hne].
  - rewrite H. simpl. eexists. split.
    + apply list_lookup_insert_eq. by eapply lookup_lt_Some.
    + done.
  - exists fn. split; [|done]. by rewrite list_lookup_insert_ne.
Qed.

End Steady.

(** ** Runs that return *)

Section Engine.

Lemma ok_bind {A B} (m : M A) (f : A -> M B) s Q :
  ok m s (fun a s1 => ok (f a) s1 Q) -> ok (bind m f) s Q.
Proof.
  intros (a & s1 & Hm & b & s2 & Hf & HQ). exists b, s2.
  unfold bind. by rewrite Hm.
Qed.

Lemma ok_weaken {A} (m : M A) s (Q Q' : A -> PEP -> Prop) :
  ok m s Q -> (forall a s', Q a s' -> Q' a s') -> ok m s Q'.
Proof. intros (a & s1 & Hm & HQ) H. exists a, s1. auto. Qed.

Lemma ok_ret {A} (a : A) s (Q : A -> PEP -> Prop) : Q a s -> ok (ret a) s Q.
Proof. intros H. by exists a, s. Qed.

Lemma engine_ret R {A} (a : A) (P : A -> Prop) : P a -> engine R (ret a) P.
Proof. intros H s _ _. apply ok_ret. auto using steady_refl. Qed.

Lemma engine_weaken R {A} (m : M A) (P P' : A -> Prop) :
  engine R m P -> (forall a, P a -> P' a) -> engine R m P'.
Proof.
  intros Hm H s Hf HR. eapply ok_weaken; [by apply Hm|].
  intros a s' [? ?]. auto.
Qed.

Lemma engine_bind R {A B} (m : M A) (f : A -> M B) P1 P2 :
  engine R m P1 -> (forall a, P1 a -> engine R (f a) P2) ->
  engine R (bind m f) P2.
Proof.
  intros Hm Hf s Hfr HR. apply ok_bind.
  eapply ok_weaken; [by apply Hm|]. intros a s1 [Hst Ha]. simpl.
  eapply ok_weaken.
  - apply (Hf a Ha s1).
    + by rewrite (steady_frozen _ _ Hst).
    + intros g Hg. eapply recordable_preserved; [apply Hst | auto].
  - intros b s2 [Hst2 Hb]. split; [|done]. by eapply steady_trans.
Qed.

Lemma engine_for_loop R {A} (body : Z -> A -> M A) rng acc (P : A -> Prop) :
  (forall i a, i ∈ rng -> P a -> engine R (body i a) P) ->
  P acc -> engine R (for_loop body rng acc) P.
Proof.
  revert acc. induction rng as [|i rng IH]; intros acc Hb Hacc; simpl.
  - by apply engine_ret.
  - eapply engine_bind.
    + apply Hb; [apply list_elem_of_here | done].
    + intros a Ha. apply IH; [|done].
      intros j b Hj. apply Hb. by apply list_elem_of_further.
Qed.

(** Steps that only move the registries' counters. *)
Lemma steady_counters kp kg ks s : steady s (set_counters kp kg ks s).
Proof. split; try done. intros f fn H. by exists fn. Qed.

Lemma engine_Point_leaf R : engine R Point_leaf (fun _ => True).
Proof. intros s _ _. eexists _, _. split; [reflexivity|]. split; [apply steady_counters|done]. Qed.

Lemma engine_Point_new R d : engine R (Point_new d) (fun _ => True).
Proof. intros s _ _. eexists _, _. split; [reflexivity|]. split; [apply steady_counters|done]. Qed.

Lemma engine_Expr_leaf R : engine R Expr_leaf (fun _ => True).
Proof. intros s _ _. eexists _, _. split; [reflexivity|]. split; [apply steady_counters|done]. Qed.

Lemma engine_get_function R f : engine R (get_function f) (fun _ => True).
Proof. intros s _ _. eexists _, _. split; [reflexivity|]. split; [apply steady_refl|done]. Qed.

Lemma engine_print R line : engine R (print line) (fun _ => True).
Proof.
  intros s _ _. eexists _, _. split; [reflexivity|].
  split; [|done]. split; try done. intros f fn H. by exists fn.
Qed.

Lemma engine_check_not_frozen R : engine R check_not_frozen (fun _ => True).
Proof.
  intros s Hf _. unfold ok, check_not_frozen. rewrite Hf.
  eexists _, _. split; [reflexivity|]. split; [apply steady_refl|done].
Qed.

Lemma engine_record_triple R f t : engine R (record_triple f t) (fun _ => True).
Proof.
  intros s _ _. eexists _, _. split; [reflexivity|]. split; [|done].
  split; try done. apply (preserved_record s f t).
Qed.

Lemma engine_new_function R fn : engine R (new_function fn) (fun _ => True).
Proof.
  intros s _ _. eexists _, _. split; [reflexivity|]. split; [|done].
  split; try done. apply preserved_app.
Qed.

Lemma engine_py_div R a b :
  Qeq_bool b 0 = false -> engine R (py_div a b) (fun q => q = a / b).
Proof. intros Hb. unfold py_div. rewrite Hb. by apply engine_ret. Qed.

Lemma engine_read_var R {A} name (a : A) :
  engine R (read_var name (Some a)) (fun x => x = a).
Proof. by apply engine_ret. Qed.

End Engine.

Create HintDb engine.
#[export] Hint Resolve engine_Point_leaf engine_Point_new engine_Expr_leaf
  engine_get_function engine_print engine_check_not_frozen
  engine_record_triple engine_new_function engine_read_var : engine.
#[export] Hint Extern 1 (engine _ (ret _) _) => apply engine_ret; exact I : engine.

(** Decompose an [engine] goal whose steps need no side condition. *)
Ltac engine_tac :=
  repeat first
    [ progress cbv beta
    | solve [eauto with engine]
    | eapply engine_bind; [ solve [eauto with engine] | intros ? _ ]
    | eapply engine_for_loop; [ intros ? ? _ _ | exact I ]
    | match goal with
      | |- engine _ (match ?x with _ => _ end) _ => destruct x
      end ].

Section EngineOps.

Lemma engine_Point_zero R : engine R Point_zero (fun _ => True).
Proof. unfold Point_zero. engine_tac. Qed.

Lemma engine_Point_add R p q : engine R (Point_add p q) (fun _ => True).
Proof. unfold Point_add. engine_tac. Qed.

Lemma engine_Point_rmul R a p : engine R (Point_rmul a p) (fun _ => True).
Proof. unfold Point_rmul. engine_tac. Qed.

Lemma engine_Point_sub R p q : engine R (Point_sub p q) (fun _ => True).
Proof. unfold Point_sub, Point_neg, Point_add, Point_rmul. engine_tac. Qed.

Lemma engine_oracle_leaf R f p : engine R (oracle_leaf f p) (fun _ => True).
Proof. unfold oracle_leaf. engine_tac. Qed.

Lemma engine_oracle_sum R dec p g v :
  engine R (oracle_sum dec p g v) (fun _ => True).
Proof.
  revert g v. induction dec as [|[l w] dec IH]; intros g v; simpl.
  - engine_tac.
  - pose proof (engine_oracle_leaf R). pose proof (engine_Point_rmul R).
    pose proof (engine_Point_add R). engine_tac.
Qed.

Lemma engine_oracle R f p : engine R (oracle f p) (fun _ => True).
Proof.
  unfold oracle. pose proof (engine_oracle_leaf R).
  pose proof (engine_oracle_sum R). pose proof (engine_Point_zero R).
  engine_tac.
Qed.

Lemma engine_gradient R f p : engine R (gradient f p) (fun _ => True).
Proof. unfold gradient. pose proof (engine_oracle R). engine_tac. Qed.

Lemma engine_value R f p : engine R (value f p) (fun _ => True).
Proof. unfold value. pose proof (engine_oracle R). engine_tac. Qed.

Lemma engine_Point_div R p a :
  Qeq_bool a 0 = false -> engine R (Point_div p a) (fun _ => True).
Proof.
  intros Ha. unfold Point_div. eapply engine_bind.
  - by apply engine_py_div.
  - intros r _. apply engine_Point_rmul.
Qed.

Lemma engine_distribute R dec p g v :
  weights_ok dec -> engine R (distribute dec p g v) (fun _ => True).
Proof.
  revert g v. induction dec as [|[l w] dec IH]; intros g v Hw.
  - simpl. engine_tac.
  - destruct dec as [|lw dec].
    + simpl in *. eapply engine_bind; [by apply engine_Point_div|].
      intros gl _. eapply engine_bind; [by apply engine_py_div|].
      intros r _. engine_tac.
    + change (engine R (let* '(gl, vl) := oracle_leaf l p in
                        let* wg := Point_rmul w gl in
                        let* g' := Point_sub g wg in
                        distribute (lw :: dec) p g' (Expr_sub v (Expr_rmul w vl)))
                     (fun _ => True)).
      assert (weights_ok (lw :: dec)) as Hw' by exact Hw.
      pose proof (engine_oracle_leaf R). pose proof (engine_Point_rmul R).
      pose proof (engine_Point_sub R). engine_tac.
Qed.

Lemma engine_add_point R f t :
  f ∈ R -> engine R (add_point f t) (fun _ => True).
Proof.
  intros Hin s Hfr HR. destruct (HR f Hin) as (fn & Hl & Hrec).
  assert (engine R
            (match fclass fn with
             | Some _ => record_triple f t
             | None => do* record_triple f t in
                       distribute (fdec fn) (fst (fst t)) (snd (fst t)) (snd t)
             end) (fun _ => True)) as He.
  { destruct (fclass fn) eqn:Hc; [engine_tac|].
    destruct Hrec as [[? ?]|Hw]; [done|].
    pose proof (engine_distribute R (fdec fn) (fst (fst t)) (snd (fst t)) (snd t) Hw).
    engine_tac. }
  specialize (He s Hfr HR). unfold ok in *.
  unfold add_point, bind, check_not_frozen, get_function.
  rewrite Hfr, Hl. exact He.
Qed.

Lemma engine_stationary_point R f :
  f ∈ R -> engine R (stationary_point f) (fun _ => True).
Proof.
  intros Hin. unfold stationary_point.
  pose proof (engine_add_point R f). pose proof (engine_Point_zero R).
  engine_tac.
Qed.

Lemma engine_proximal_step R x f step :
  f ∈ R -> engine R (proximal_step x f step) (fun _ => True).
Proof.
  intros Hin. unfold proximal_step.
  pose proof (engine_add_point R f). pose proof (engine_Point_rmul R).
  pose proof (engine_Point_sub R). engine_tac.
Qed.

Lemma engine_set_initial_point R : engine R set_initial_point (fun _ => True).
Proof. apply engine_Point_leaf. Qed.

End EngineOps.

#[export] Hint Resolve engine_Point_zero engine_Point_add engine_Point_rmul
  engine_Point_sub engine_oracle_leaf engine_oracle engine_gradient
  engine_value engine_set_initial_point : engine.
Ltac in_list :=
  solve [ repeat first [ apply list_elem_of_here | apply list_elem_of_further ] ].
#[export] Hint Extern 2 (engine _ (proximal_step _ _ _) _) =>
  apply engine_proximal_step; in_list : engine.
#[export] Hint Extern 2 (engine _ (stationary_point _) _) =>
  apply engine_stationary_point; in_list : engine.

(** ** Stepping through a script *)

Section Stepping.
Variable solver : option string -> SDP -> SolverOutput.

Lemma wp_ret {A} (a : A) s (Q : PEP -> result A -> Prop) :
  Q s (Ok a) -> wp (ret a) s Q.
Proof. done. Qed.

Lemma wp_bind_ok {A B} (m : M A) (k : A -> M B) s Q :
  ok m s (fun a s1 => wp (k a) s1 Q) -> wp (bind m k) s Q.
Proof.
  intros (a & s1 & Hm & HQ). unfold wp, bind in *. by rewrite Hm.
Qed.

Lemma wp_bind_raise {A B} (m : M A) (k : A -> M B) s s1 e Q :
  m s = (s1, Raise e) -> Q s1 (Raise e) -> wp (bind m k) s Q.
Proof. intros Hm HQ. unfold wp, bind. by rewrite Hm. Qed.

Lemma ready_steady T C Ms R s s' :
  steady s s' -> ready T C Ms R s -> ready T C Ms R s'.
Proof.
  intros [Hf Ht Hc Hm Hp] (? & ? & ? & ? & HR).
  repeat split; try congruence.
  intros f Hin. eapply recordable_preserved; eauto.
Qed.

Lemma ready_init : ready [] [] [] [] PEP_init.
Proof. repeat split. intros f Hf. by apply elem_of_nil in Hf. Qed.

Lemma wp_engine {A B} (m : M A) (k : A -> M B) P T C Ms R s Q :
  engine R m P -> ready T C Ms R s ->
  (forall a s1, P a -> steady s s1 -> ready T C Ms R s1 -> wp (k a) s1 Q) ->
  wp (bind m k) s Q.
Proof.
  intros Hm Hr Hk. apply wp_bind_ok.
  eapply ok_weaken; [apply Hm; apply Hr|].
  intros a s1 [Hst Ha]. simpl. apply Hk; eauto using ready_steady.
Qed.

Lemma wp_declare_function {B} cls (k : nat -> M B) T C Ms R s Q :
  ready T C Ms R s ->
  (forall s1, steady s s1 -> leaf (length (functions s)) s1 ->
              length (functions s1) = S (length (functions s)) ->
              ready T C Ms (length (functions s) :: R) s1 ->
              wp (k (length (functions s))) s1 Q) ->
  wp (bind (declare_function cls) k) s Q.
Proof.
  intros Hr Hk. apply wp_bind_ok. eexists _, _. split; [reflexivity|].
  assert (steady s (fst (declare_function cls s))) as Hst.
  { split; try done. intros f fn H. exists fn. split; [|done].
    simpl. by apply lookup_app_l_Some. }
  assert (leaf (length (functions s)) (fst (declare_function cls s))) as Hl.
  { eexists _, cls. split.
    - simpl. rewrite lookup_app_r by done. by rewrite Nat.sub_diag.
    - done. }
  apply Hk; try done.
  - simpl. rewrite length_app. simpl. lia.
  - pose proof (ready_steady _ _ _ _ _ _ Hst Hr) as (? & ? & ? & ? & HR).
    repeat split; try done. intros f Hin.
    apply elem_of_cons in Hin as [->|Hin]; auto using leaf_recordable.
Qed.

Lemma merge_leaves f g :
  f <> g -> merge_dict Nat.eqb [(f, 1)] [(g, 1)] = [(f, 1); (g, 1)].
Proof.
  intros Hne. unfold merge_dict. simpl.
  destruct (Nat.eqb_spec f g); [done|reflexivity].
Qed.

Lemma wp_Function_add {B} f g (k : nat -> M B) T C Ms R s Q :
  ready T C Ms R s -> leaf f s -> leaf g s -> f <> g ->
  (forall s1, steady s s1 ->
              length (functions s1) = S (length (functions s)) ->
              ready T C Ms (length (functions s) :: R) s1 ->
              wp (k (length (functions s))) s1 Q) ->
  wp (bind (Function_add f g) k) s Q.
Proof.
  intros Hr (ff & cf & Hf & _ & Hdf) (gg & cg & Hg & _ & Hdg) Hne Hk.
  apply wp_bind_ok. unfold Function_add, bind, get_function, new_function, ok.
  rewrite Hf, Hg. simpl. eexists _, _. split; [reflexivity|].
  match goal with |- wp _ ?s1 _ => assert (steady s s1) as Hst end.
  { split; try done. apply preserved_app. }
  apply Hk; [done| |].
  { simpl. rewrite length_app. simpl. lia. }
  pose proof (ready_steady _ _ _ _ _ _ Hst Hr) as (? & ? & ? & ? & HR).
  repeat split; try done. intros h Hin.
  apply elem_of_cons in Hin as [->|Hin]; auto.
  eexists. split.
  - simpl. rewrite lookup_app_r by done. by rewrite Nat.sub_diag.
  - right. simpl. rewrite Hdf, Hdg, merge_leaves by done. reflexivity.
Qed.

Lemma wp_set_initial_condition {B} c (k : unit -> M B) T C Ms R s Q :
  ready T C Ms R s ->
  (forall s1, ready (T ++ [EvInitialCondition c]) (C ++ [c]) Ms R s1 ->
              functions s1 = functions s -> wp (k tt) s1 Q) ->
  wp (bind (set_initial_condition c) k) s Q.
Proof.
  intros (Hf & Ht & Hc & Hm & HR) Hk. apply wp_bind_ok.
  eexists _, _. split; [reflexivity|]. apply Hk; [|done].
  repeat split; simpl; try congruence. intros f Hin.
  destruct (HR f Hin) as (fn & ? & ?). by exists fn.
Qed.

Lemma wp_set_performance_metric {B} e (k : unit -> M B) T C Ms R s Q :
  ready T C Ms R s ->
  (forall s1, ready (T ++ [EvPerformanceMetric e]) C (Ms ++ [e]) R s1 ->
              functions s1 = functions s -> wp (k tt) s1 Q) ->
  wp (bind (set_performance_metric e) k) s Q.
Proof.
  intros (Hf & Ht & Hc & Hm & HR) Hk. apply wp_bind_ok.
  eexists _, _. split; [reflexivity|]. apply Hk; [|done].
  repeat split; simpl; try congruence. intros f Hin.
  destruct (HR f Hin) as (fn & ? & ?). by exists fn.
Qed.

Lemma wp_solve {B} v h (k : Q -> M B) T C Ms R s Q0 :
  ready T C Ms R s ->
  (forall s1 sdp, trace s1 = T ++ [EvSolve sdp] ->
     sdp_objectives sdp = Ms ->
     match status (solver h sdp) with
     | optimal => wp (k (objective (solver h sdp))) s1 Q0
     | st => Q0 s1 (Raise (SolveFailure st))
     end) ->
  wp (bind (solve solver v h) k) s Q0.
Proof.
  intros (Hf & Ht & Hc & Hm & HR) Hk.
  set (s1 := mkPEP (counter_points s) (counter_gens s) (counter_scalars s)
                (functions s) (declared s) (list_of_conditions s)
                (list_of_performance_metrics s) true
                (trace s ++ [EvSolve (assemble s)]) (stdout s)).
  specialize (Hk s1 (assemble s)).
  assert (trace s1 = T ++ [EvSolve (assemble s)]) as H1 by (simpl; congruence).
  specialize (Hk H1 Hm).
  unfold wp, bind, solve in *. fold s1.
  destruct (status (solver h (assemble s))); simpl; exact Hk.
Qed.

Lemma plain_ret {A} (a : A) (P : A -> Prop) : P a -> plain (ret a) P.
Proof. intros H s. by apply ok_ret. Qed.

Lemma plain_bind {A B} (m : M A) (f : A -> M B) P1 P2 :
  plain m P1 -> (forall a, P1 a -> plain (f a) P2) -> plain (bind m f) P2.
Proof.
  intros Hm Hf s. apply ok_bind. eapply ok_weaken; [apply Hm|].
  intros a s1 [Ht Ha]. simpl. eapply ok_weaken; [by apply Hf|].
  intros b s2 [Ht2 Hb]. split; [congruence|done].
Qed.

Lemma plain_print line : plain (print line) (fun _ => True).
Proof. intros s. eexists _, _. split; [reflexivity|]. done. Qed.

Lemma plain_py_div a b :
  Qeq_bool b 0 = false -> plain (py_div a b) (fun q => q = a / b).
Proof. intros Hb. unfold py_div. rewrite Hb. by apply plain_ret. Qed.

Lemma wp_plain {A B} (m : M A) (k : A -> M B) P s Q :
  plain m P ->
  (forall a s1, P a -> trace s1 = trace s -> wp (k a) s1 Q) ->
  wp (bind m k) s Q.
Proof.
  intros Hm Hk. apply wp_bind_ok. eapply ok_weaken; [apply Hm|].
  intros a s1 [Ht Ha]. by apply Hk.
Qed.

End Stepping.

Ltac wp_destruct :=
  repeat match goal with
         | |- wp (match ?x with _ => _ end) _ _ => destruct x
         end.

Ltac wp_eng :=
  eapply wp_engine; cycle 1;
  [ eassumption | intros ? ? _ ? ?; wp_destruct | solve [engine_tac] ].

(** ** Gradient descent *)

Section GradientDescent.
Variable solver : option string -> SDP -> SolverOutput.

Lemma odd_double_nonzero (n : Z) : Qeq_bool (inject_Z (2 * (2 * n + 1))) 0 = false.
Proof.
  apply not_true_is_false. intros H. apply Qeq_bool_eq in H.
  unfold Qeq, inject_Z in H. simpl in H. lia.
Qed.

(** Every run of [wc_gd]: one initial condition, one metric, one solve; the
    result pairs the solver's value with [L / (2 * (2 * n + 1))]. *)
Lemma wc_gd_run L gamma n verbose :
  wp (wc_gd solver L gamma n verbose) PEP_init
     (solved_with solver None
        (fun tau => Ok (tau, L / inject_Z (2 * (2 * n + 1))))).
Proof.
  unfold wc_gd.
  eapply wp_declare_function; [apply ready_init|].
  intros s1 Hst1 Hleaf1 Hlen1 Hr1. simpl in Hr1 |- *.
  do 4 wp_eng.
  eapply wp_set_initial_condition; [eassumption|]. intros s6 Hr6 _.
  do 2 wp_eng.
  eapply wp_set_performance_metric; [eassumption|]. intros s9 Hr9 _.
  eapply wp_solve; [eassumption|]. intros s10 sdp Ht Hobj.
  destruct (status (solver None sdp)) eqn:Hstat;
    try (eexists _, _, sdp; rewrite Hstat, Ht; done).
  eapply wp_plain; [apply plain_py_div, odd_double_nonzero|].
  intros theta s11 -> Ht11.
  eapply (wp_plain _ _ (fun _ => True)).
  { destruct verbose; [|by apply plain_ret].
    repeat (eapply plain_bind; [apply plain_print|intros _ _]).
    apply plain_print. }
  intros _ s12 _ Ht12. apply wp_ret.
  eexists _, _, sdp. rewrite Hstat, Ht12, Ht11, Ht. done.
Qed.

End GradientDescent.

Section GradientDescentBounds.
Variable solver : option string -> SDP -> SolverOutput.

Lemma inject_Z_gd (n : Z) :
  inject_Z (2 * (2 * n + 1)) == 2 * (2 * inject_Z n + 1).
Proof. rewrite !inject_Z_mult, inject_Z_plus, inject_Z_mult. reflexivity. Qed.

Lemma inject_Z_gd_pos (n : Z) : (0 <= n)%Z -> 0 < inject_Z (2 * (2 * n + 1)).
Proof. intros Hn. unfold Qlt, inject_Z. simpl. lia. Qed.

(** The second component of [wc_gd] when every solve succeeds. *)
Lemma wc_gd_returns L gamma n verbose :
  (forall h sdp, status (solver h sdp) = optimal) ->
  exists tau,
    snd (wc_gd solver L gamma n verbose PEP_init)
    = Ok (tau, L / inject_Z (2 * (2 * n + 1))).
Proof.
  intros Hopt. destruct (wc_gd_run solver L gamma n verbose)
    as (c & e & sdp & _ & _ & Hr).
  rewrite Hopt in Hr. eauto.
Qed.

End GradientDescentBounds.



(** C2, as the code has it. For n = 2, L = 1 and gamma = 1, the reference
    value that [wc_gd] returns is 1/10: the closed form L / (2 * (2n + 1))
    evaluates to 0.1 there. *)
Theorem wc_gd_reference_value_n2_L1
  (solver : option string -> SDP -> SolverOutput) (verbose : bool) :
  wp (wc_gd solver 1 1 2 verbose) PEP_init
     (solved_with solver None (fun tau => Ok (tau, 1 # 10))).
Proof. exact (wc_gd_run solver 1 1 2 verbose). Qed.

(** C2, refuted as stated. At n = 2, L = 1, gamma = 1 the reference value
    is 1/10, at distance 1/10 from 0.2. *)
Lemma wc_gd_reference_value_not_one_fifth :
  exists tau theoretical_tau,
    snd (wc_gd (stub_solver (1 # 10)) 1 1 2 true PEP_init)
    = Ok (tau, theoretical_tau) /\
    theoretical_tau = 1 # 10 /\
    Qabs (theoretical_tau - (2 # 10)) == 1 # 10.
Proof. exists (1 # 10), (1 # 10). vm_compute. done. Qed.

(** C3, as the code has it. With L > 0 and step size 1/L, the reference
    bound L / (2 * (2n + 1)) returned by [wc_gd] strictly decreases when the
    iteration count grows: bound(n + 1) < bound(n) for all n >= 1. *)
Theorem wc_gd_reference_bound_decreasing
  (solver : option string -> SDP -> SolverOutput) (L : Q) (n : Z) (verbose : bool) :
  0 < L -> (1 <= n)%Z ->
  (forall h sdp, status (solver h sdp) = optimal) ->
  exists tau bound tau' bound',
    snd (wc_gd solver L (/ L) n verbose PEP_init) = Ok (tau, bound) /\
    snd (wc_gd solver L (/ L) (n + 1) verbose PEP_init) = Ok (tau', bound') /\
    bound' < bound.
Proof.
  intros HL Hn Hopt.
  destruct (wc_gd_returns solver L (/ L) n verbose Hopt) as (tau & Hr).
  destruct (wc_gd_returns solver L (/ L) (n + 1) verbose Hopt) as (tau' & Hr').
  eexists _, _, _, _. split; [exact Hr|]. split; [exact Hr'|].
  unfold Qdiv. apply Qmult_lt_l; [done|].
  apply -> Qinv_lt_contravar.
  - unfold Qlt, inject_Z. simpl. lia.
  - apply inject_Z_gd_pos. lia.
  - apply inject_Z_gd_pos. lia.
Qed.

Lemma wc_gd_reference_bound_decreasing_witness :
  0 < 1 /\ (1 <= 1)%Z /\
  (forall h sdp, status (stub_solver (1 # 6) h sdp) = optimal) /\
  exists tau bound tau' bound',
    snd (wc_gd (stub_solver (1 # 6)) 1 (/ 1) 1 true PEP_init) = Ok (tau, bound) /\
    snd (wc_gd (stub_solver (1 # 6)) 1 (/ 1) (1 + 1) true PEP_init) = Ok (tau', bound') /\
    bound' < bound.
Proof.
  split; [reflexivity|]. split; [lia|]. split; [reflexivity|].
  apply (wc_gd_reference_bound_decreasing (stub_solver (1 # 6)) 1 1 true);
    [reflexivity | lia | reflexivity].
Defined.

(** C3, refuted as stated. With L = 1 and gamma = 1, going from n = 1 to
    n = 2 lowers the bound from 1/6 to 1/10. *)
Lemma wc_gd_bound_drops_from_1_to_2 :
  exists tau bound tau' bound',
    snd (wc_gd (stub_solver (1 # 6)) 1 1 1 true PEP_init) = Ok (tau, bound) /\
    snd (wc_gd (stub_solver (1 # 10)) 1 1 2 true PEP_init) = Ok (tau', bound') /\
    bound = 1 # 6 /\ bound' = 1 # 10 /\ bound' < bound.
Proof. exists (1 # 6), (1 # 6), (1 # 10), (1 # 10). vm_compute. done. Qed.

(** ** Gradient descent on quadratics *)

Section Quadratics.
Variable solver : option string -> SDP -> SolverOutput.

Lemma wp_pure {A B} (m : M A) (k : A -> M B) r s Q :
  pure_result m r ->
  match r with
  | Ok a => wp (k a) s Q
  | Raise e => Q s (Raise e)
  end ->
  wp (bind m k) s Q.
Proof.
  intros Hm Hk. unfold wp, bind in *. rewrite Hm. by destruct r.
Qed.

Lemma gdq_theoretical_tau_pure mu L gamma n :
  pure_result (gdq_theoretical_tau mu L gamma n)
              (snd (gdq_theoretical_tau mu L gamma n PEP_init)).
Proof.
  intros s. unfold gdq_theoretical_tau, bind, py_div, py_pow, ret, raise.
  repeat match goal with
         | |- context [if ?b then _ else _] => destruct b; simpl
         end; reflexivity.
Qed.

Lemma Qeq_bool_pos q : 0 < q -> Qeq_bool q 0 = false.
Proof.
  intros H. apply not_true_is_false. intros He.
  apply Qeq_bool_eq in He. lra.
Qed.

Lemma Qpower_even_nonneg (a : Q) (n : Z) : 0 <= a ^ (2 * n).
Proof.
  rewrite Qpower_mult. apply Qpower_0_le.
  change (a ^ 2) with (a * a). nra.
Qed.

(** The block returns, and its [alpha] is the projection of
    [1 / (L * gamma * (2n + 1))] onto [[mu / L, 1]]. *)
Lemma gdq_theoretical_tau_value mu L gamma n :
  0 <= mu -> mu <= L -> 0 < L -> 0 < gamma -> (0 <= n)%Z ->
  exists alpha,
    pure_result (gdq_theoretical_tau mu L gamma n)
      (Ok (alpha, (1 # 2) * L * Qmax (alpha * (1 - alpha * L * gamma) ^ (2 * n))
                                     ((1 - L * gamma) ^ (2 * n)))) /\
    alpha == proj_interval (mu / L) 1 (1 / (L * gamma * inject_Z (2 * n + 1))).
Proof.
  intros Hmu HmuL HL Hg Hn.
  set (d := L * gamma * inject_Z (2 * n + 1)).
  assert (0 < d) as Hd.
  { unfold d. apply Qmult_lt_0_compat; [by apply Qmult_lt_0_compat|].
    unfold Qlt, inject_Z. simpl. lia. }
  assert (mu / L <= 1) as HmuL1 by (apply Qle_shift_div_r; lra).
  assert ((2 * n <? 0)%Z = false) as Hpow by lia.
  unfold proj_interval. fold d.
  unfold pure_result, gdq_theoretical_tau, bind, py_div, py_pow, ret, Qlt_bool.
  fold d. rewrite (Qeq_bool_pos d Hd), (Qeq_bool_pos L HL), Hpow. simpl.
  destruct (Qle_bool (mu / L) (1 / d)) eqn:H1; simpl.
  - apply Qle_bool_iff in H1.
    destruct (Qle_bool (1 / d) 1) eqn:H2; simpl.
    + apply Qle_bool_iff in H2. exists (1 / d). split; [done|].
      rewrite Q.min_r, Q.max_r by done. reflexivity.
    + exists 1. split; [done|].
      assert (~ 1 / d <= 1) as H3 by (rewrite <- Qle_bool_iff; congruence).
      rewrite Q.min_l, Q.max_r by lra. reflexivity.
  - exists (mu / L). split; [done|].
    assert (~ mu / L <= 1 / d) as H3 by (rewrite <- Qle_bool_iff; congruence).
    rewrite Q.min_r, Q.max_l by lra. reflexivity.
Qed.

(** Every run of [wc_gradient_descent_quadratics]. *)
Lemma wc_gradient_descent_quadratics_run mu L gamma n verbose :
  wp (wc_gradient_descent_quadratics solver mu L gamma n verbose) PEP_init
     (solved_with solver None
        (fun tau =>
           match snd (gdq_theoretical_tau mu L gamma n PEP_init) with
           | Ok (_, theoretical_tau) => Ok (tau, theoretical_tau)
           | Raise e => Raise e
           end)).
Proof.
  unfold wc_gradient_descent_quadratics.
  eapply wp_declare_function; [apply ready_init|].
  intros s1 Hst1 Hleaf1 Hlen1 Hr1. simpl in Hr1 |- *.
  do 4 wp_eng.
  eapply wp_set_initial_condition; [eassumption|]. intros s6 Hr6 _.
  do 2 wp_eng.
  eapply wp_set_performance_metric; [eassumption|]. intros s9 Hr9 _.
  eapply wp_solve; [eassumption|]. intros s10 sdp Ht Hobj.
  destruct (status (solver None sdp)) eqn:Hstat;
    try (eexists _, _, sdp; rewrite Hstat, Ht; done).
  eapply wp_pure; [apply gdq_theoretical_tau_pure|].
  destruct (snd (gdq_theoretical_tau mu L gamma n PEP_init)) as [[alpha theta]|e] eqn:Hb.
  - eapply (wp_plain _ _ (fun _ => True)).
    { destruct (verbose =? -1)%Z; [by apply plain_ret|].
      repeat (eapply plain_bind; [apply plain_print|intros _ _]).
      apply plain_print. }
    intros _ s12 _ Ht12. apply wp_ret.
    eexists _, _, sdp. rewrite Hstat, Ht12, Ht. done.
  - eexists _, _, sdp. rewrite Hstat, Ht. done.
Qed.

End Quadratics.




(** ** Past extragradient *)

Section PastExtragradient.
Variable solver : option string -> SDP -> SolverOutput.

Lemma range_nonpos n : (n <= 0)%Z -> range n = [].
Proof. intros H. unfold range. by replace (Z.to_nat n) with 0%nat by lia. Qed.

Lemma range_pos n : (1 <= n)%Z -> range n <> [].
Proof.
  intros H. unfold range. destruct (Z.to_nat n) eqn:E; [lia|]. done.
Qed.

Lemma engine_for_loop_nonempty R {A} (body : Z -> A -> M A) rng acc (P : A -> Prop) :
  rng <> [] ->
  (forall i a, i ∈ rng -> engine R (body i a) P) ->
  engine R (for_loop body rng acc) P.
Proof.
  intros Hne Hb. destruct rng as [|i rng]; [done|]. simpl.
  eapply engine_bind.
  - apply Hb. apply list_elem_of_here.
  - intros a Ha. apply engine_for_loop; [|done].
    intros j b Hj _. apply Hb. by apply list_elem_of_further.
Qed.

(** The state reached by the script before its loop is stepped through once
    for both cases. *)
Lemma wc_past_extragradient_run n gamma L verbose :
  wp (wc_past_extragradient solver n gamma L verbose) PEP_init
     (fun s' r =>
        if (n <=? 0)%Z then
          r = Raise (NameError "previous_x") /\
          exists c, trace s' = [EvInitialCondition c]
        else
          solved_with solver None (fun tau => Ok (tau, None)) s' r).
Proof.
  unfold wc_past_extragradient.
  eapply wp_declare_function; [apply ready_init|].
  intros s1 Hst1 Hleaf1 Hlen1 Hr1. simpl in Hleaf1, Hlen1, Hr1 |- *.
  eapply wp_declare_function; [eassumption|].
  intros s2 Hst2 Hleaf2 Hlen2 Hr2. rewrite Hlen1 in Hleaf2, Hlen2, Hr2 |- *.
  eapply wp_Function_add; [eassumption|exact Hleaf2| |done|].
  { eapply leaf_preserved; [apply Hst2|exact Hleaf1]. }
  intros s3 Hst3 Hlen3 Hr3. rewrite Hlen2 in Hlen3, Hr3 |- *.
  do 3 wp_eng.
  eapply wp_set_initial_condition; [eassumption|]. intros s7 Hr7 _.
  eapply wp_engine; cycle 1;
    [eassumption| |apply engine_proximal_step; in_list].
  intros [[x gx] fx] s8 _ Hst8 Hr8.
  wp_eng.
  destruct (Z.leb_spec n 0) as [Hn|Hn].
  - rewrite range_nonpos by done. simpl.
    apply wp_bind_ok, ok_ret.
    eapply wp_bind_raise; [reflexivity|].
    split; [done|].
    match goal with H : ready _ _ _ _ ?s |- context [trace ?s] =>
      destruct H as (_ & -> & _) end.
    eauto.
  - eapply (wp_engine _ _ (fun acc => is_Some (snd acc))); cycle 1.
    { eassumption. }
    2:{ apply engine_for_loop_nonempty; [apply range_pos; lia|].
      intros i [[[x' xt'] V'] prev'] _.
      eapply engine_weaken with (P := fun acc => is_Some (snd acc)).
      - repeat first
          [ progress cbv beta
          | eapply engine_bind; [ solve [eauto with engine] | intros ? _ ]
          | match goal with
            | |- engine _ (match ?x with _ => _ end) _ => destruct x
            end ].
        apply engine_ret. simpl. eauto.
      - auto. }
    intros [[[xn xtn] Vn] [prev|]] s10 Hsome Hst10 Hr10;
      [|by destruct Hsome].
    do 2 wp_eng.
    eapply wp_set_performance_metric; [eassumption|]. intros s13 Hr13 _.
    eapply wp_solve; [eassumption|]. intros s14 sdp Ht Hobj.
    destruct (status (solver None sdp)) eqn:Hstat;
      try (eexists _, _, sdp; rewrite Hstat, Ht; done).
    eapply (wp_plain _ _ (fun _ => True)).
    { destruct (verbose =? -1)%Z; [by apply plain_ret|].
      repeat (eapply plain_bind; [apply plain_print|intros _ _]).
      apply plain_print. }
    intros _ s15 _ Ht15. apply wp_ret.
    eexists _, _, sdp. rewrite Hstat, Ht15, Ht. done.
Qed.

End PastExtragradient.

(** C8. Called with n = 0 (or a negative n), [wc_past_extragradient] raises
    the unbound-variable error on [previous_x] when it builds the
    performance metric: the initial condition is registered, no metric is,
    and the solver is not called.  For every n >= 1 the metric is built and
    registered, and the script goes on to its single solve. *)
Theorem wc_past_extragradient_previous_x
  (solver : option string -> SDP -> SolverOutput)
  (n : Z) (gamma L : Q) (verbose : Z) :
  ((n <= 0)%Z ->
     snd (wc_past_extragradient solver n gamma L verbose PEP_init)
     = Raise (NameError "previous_x") /\
     exists c, trace (fst (wc_past_extragradient solver n gamma L verbose PEP_init))
               = [EvInitialCondition c]) /\
  ((1 <= n)%Z ->
     wp (wc_past_extragradient solver n gamma L verbose) PEP_init
        (solved_with solver None (fun tau => Ok (tau, None)))).
Proof.
  pose proof (wc_past_extragradient_run solver n gamma L verbose) as H.
  unfold wp in H. split; intros Hn.
  - replace (n <=? 0)%Z with true in H by lia. exact H.
  - replace (n <=? 0)%Z with false in H by lia. exact H.
Qed.

Lemma wc_past_extragradient_previous_x_witness :
  ((0 <= 0)%Z /\
   snd (wc_past_extragradient (stub_solver 0) 0 (1 # 4) 1 1 PEP_init)
   = Raise (NameError "previous_x")) /\
  ((1 <= 5)%Z /\
   wp (wc_past_extragradient (stub_solver 0) 5 (1 # 4) 1 1) PEP_init
      (solved_with (stub_solver 0) None (fun tau => Ok (tau, None)))).
Proof.
  split.
  - split; [lia|].
    exact (proj1 (proj1 (wc_past_extragradient_previous_x
                           (stub_solver 0) 0 (1 # 4) 1 1) ltac:(lia))).
  - split; [lia|].
    exact (proj2 (wc_past_extragradient_previous_x
                    (stub_solver 0) 5 (1 # 4) 1 1) ltac:(lia)).
Defined.

(** ** Accelerated Douglas-Rachford splitting *)

Section DouglasRachford.
Variable solver : option string -> SDP -> SolverOutput.

Lemma ok_of_wp {A} (m : M A) s (Q : A -> PEP -> Prop) :
  wp m s (fun s1 r => exists a, r = Ok a /\ Q a s1) -> ok m s Q.
Proof.
  unfold wp, ok. destruct (m s) as [s1 r]. simpl.
  intros (a & -> & H). eauto.
Qed.

(** The declarations: [func1] is Function 0, [func2] Function 1 and their
    sum Function 2; all three are recordable. *)
Lemma wc_adrs_declarations_run mu L :
  ok (wc_adrs_declarations mu L) PEP_init
     (fun a s0 => (exists xs fs, a = (0, 1, 2, xs, fs)%nat) /\
                  ready [] [] [] [2; 1; 0]%nat s0).
Proof.
  apply ok_of_wp. unfold wc_adrs_declarations.
  eapply wp_declare_function; [apply ready_init|].
  intros s1 Hst1 Hleaf1 Hlen1 Hr1. simpl in Hleaf1, Hlen1, Hr1 |- *.
  eapply wp_declare_function; [eassumption|].
  intros s2 Hst2 Hleaf2 Hlen2 Hr2. rewrite Hlen1 in Hleaf2, Hlen2, Hr2 |- *.
  eapply wp_Function_add; [eassumption| |exact Hleaf2|done|].
  { eapply leaf_preserved; [apply Hst2|exact Hleaf1]. }
  intros s3 Hst3 Hlen3 Hr3. rewrite Hlen2 in Hlen3, Hr3 |- *.
  do 2 wp_eng. apply wp_ret. eauto 6.
Qed.


Lemma elem_of_range i n : i ∈ range n -> (0 <= i < n)%Z.
Proof.
  unfold range. intros H. apply list_elem_of_fmap in H as (k & -> & Hk).
  apply elem_of_seq in Hk. lia.
Qed.

Lemma engine_list_get R {A} (l : list A) i :
  (0 <= i < Z.of_nat (length l))%Z -> engine R (list_get l i) (fun _ => True).
Proof.
  intros Hi. unfold list_get, py_index.
  replace (0 <=? i)%Z with true by lia.
  replace (i <? Z.of_nat (length l))%Z with true by lia.
  destruct (lookup_lt_is_Some_2 l (Z.to_nat i)) as [a Ha]; [lia|].
  rewrite Ha. by apply engine_ret.
Qed.

Lemma engine_list_set R {A} (l : list A) i v :
  (0 <= i < Z.of_nat (length l))%Z ->
  engine R (list_set l i v) (fun l' => length l' = length l).
Proof.
  intros Hi. unfold list_set, py_index.
  replace (0 <=? i)%Z with true by lia.
  replace (i <? Z.of_nat (length l))%Z with true by lia.
  apply engine_ret. apply length_insert.
Qed.

Lemma Qeq_bool_inject_Z z : z <> 0%Z -> Qeq_bool (inject_Z z) 0 = false.
Proof.
  intros Hz. apply not_true_is_false. intros H. apply Qeq_bool_eq in H.
  unfold Qeq, inject_Z in H. simpl in H. lia.
Qed.

Lemma engine_for_loop_first R {A} (body : Z -> A -> M A) rng acc (I P : A -> Prop) :
  rng <> [] ->
  (forall i a, i ∈ rng -> I a -> engine R (body i a) P) ->
  (forall a, P a -> I a) ->
  I acc -> engine R (for_loop body rng acc) P.
Proof.
  intros Hne Hb HPI Hacc. destruct rng as [|i rng]; [done|]. simpl.
  eapply engine_bind.
  - apply Hb; [apply list_elem_of_here | done].
  - intros a Ha. apply engine_for_loop; [|done].
    intros j b Hj Hb'. apply Hb; [by apply list_elem_of_further | auto].
Qed.

Lemma py_div_zero a b s :
  Qeq_bool b 0 = true -> py_div a b s = (s, Raise ZeroDivisionError).
Proof. intros H. unfold py_div. by rewrite H. Qed.


Ltac adrs_step :=
  first
    [ progress cbv beta in *
    | match goal with
      | |- engine _ (match ?x with _ => _ end) _ => destruct x
      end
    | eapply engine_bind; [ apply engine_list_get; lia | intros ? _ ]
    | eapply engine_bind; [ apply engine_list_set; lia | intros ? ? ]
    | eapply engine_bind;
      [ apply engine_py_div, Qeq_bool_inject_Z; lia | intros ? _ ]
    | eapply engine_bind; [ solve [eauto with engine] | intros ? _ ]
    | apply engine_list_set; lia ].

(** Every run of [wc_adrs] with at least one iteration and a denominator
    [alpha * theta * (n + 3) ** 2] equal to zero. *)
Lemma wc_adrs_run mu L alpha n verbose :
  (1 <= n)%Z -> alpha * L == 1 \/ alpha == 0 ->
  wp (wc_adrs solver mu L alpha n verbose) PEP_init
     (solved_with solver None (fun _ => Raise ZeroDivisionError)).
Proof.
  intros Hn Halpha. unfold wc_adrs.
  apply wp_bind_ok. eapply ok_weaken; [apply wc_adrs_declarations_run|].
  intros a s0 [(xs & fs & ->) Hr0]. cbv beta iota.
  do 4 wp_eng.
  assert (Qeq_bool (1 + alpha * L) 0 = false) as Hden.
  { apply not_true_is_false. intros Hz. apply Qeq_bool_eq in Hz.
    destruct Halpha as [Ha|Ha]; [lra|]. rewrite Ha in Hz. lra. }
  eapply wp_engine; cycle 1; [eassumption| |by apply engine_py_div].
  intros theta s5 -> Hst5 Hr5.
  do 3 wp_eng.
  eapply wp_set_initial_condition; [eassumption|]. intros s9 Hr9 _.
  eapply (wp_engine _ _ (adrs_bound n)); cycle 1.
  { eassumption. }
  2:{ apply (engine_for_loop_first _ _ _ _ (adrs_lists n)).
      - apply range_pos. lia.
      - intros i [[[[x w] u] y] fy] Hi (Hx & Hw & Hu).
        apply elem_of_range in Hi.
        eapply engine_weaken with (P := adrs_bound n); [|auto].
        repeat adrs_step.
        eapply engine_bind with (P1 := fun l' => length l' = length u).
        { destruct (1 <=? i)%Z; repeat adrs_step. }
        intros u0 Hu0. apply engine_ret.
        unfold adrs_bound, adrs_lists; simpl. repeat split; eauto; lia.
      - intros acc [Hacc _]. exact Hacc.
      - unfold adrs_lists. rewrite !length_map, !length_range.
        repeat split; lia. }
  intros [[[[x w] u] [y|]] [fy|]] s10 (_ & Hy & Hfy) Hst10 Hr10;
    try (by destruct Hy); try (by destruct Hfy).
  do 3 wp_eng.
  eapply wp_set_performance_metric; [eassumption|]. intros s14 Hr14 _.
  eapply wp_solve; [eassumption|]. intros s15 sdp Ht Hobj.
  destruct (status (solver None sdp)) eqn:Hstat;
    try (eexists _, _, sdp; rewrite Hstat, Ht; done).
  eapply wp_bind_raise.
  - apply py_div_zero. apply Qeq_eq_bool.
    destruct Halpha as [Ha|Ha].
    + assert ((1 - alpha * L) / (1 + alpha * L) == 0) as ->.
      { rewrite Ha. reflexivity. }
      ring.
    + rewrite Ha. ring.
  - eexists _, _, sdp. rewrite Hstat, Ht. done.
Qed.

End DouglasRachford.




(** ** Lifecycle order of the scripts *)

(** C5, as the code has it. Every script makes its lifecycle calls in a
    fixed order ending with a single solve: an invocation that returns has
    made exactly the calls listed, one that raises has made a prefix of
    them.  The initial condition is registered before the metric in
    [wc_gd], [wc_gradient_descent_quadratics], [wc_heavyball], [wc_adrs],
    [wc_accelerated_proximal_gradient] and [wc_past_extragradient]; the
    metric comes first in [wc_alternate_projections], and the n metrics of
    [wc_no_lips2] all come before its initial condition. *)
Theorem scripts_lifecycle_order (solver : option string -> SDP -> SolverOutput) :
  (forall L gamma n verbose,
     emits (wc_gd solver L gamma n verbose)
           [KInitialCondition; KPerformanceMetric; KSolve]) /\
  (forall mu L gamma n verbose,
     emits (wc_gradient_descent_quadratics solver mu L gamma n verbose)
           [KInitialCondition; KPerformanceMetric; KSolve]) /\
  (forall mu L alpha beta n,
     emits (wc_heavyball solver mu L alpha beta n)
           [KInitialCondition; KPerformanceMetric; KSolve]) /\
  (forall mu L alpha n verbose,
     emits (wc_adrs solver mu L alpha n verbose)
           [KInitialCondition; KPerformanceMetric; KSolve]) /\
  (forall mu L n verbose,
     emits (wc_accelerated_proximal_gradient solver mu L n verbose)
           [KInitialCondition; KPerformanceMetric; KSolve]) /\
  (forall n gamma L verbose,
     emits (wc_past_extragradient solver n gamma L verbose)
           [KInitialCondition; KPerformanceMetric; KSolve]) /\
  (forall n verbose,
     emits (wc_alternate_projections solver n verbose)
           [KPerformanceMetric; KInitialCondition; KSolve]) /\
  (forall L gamma n verbose,
     emits (wc_no_lips2 solver L gamma n verbose)
           (repeat KPerformanceMetric (Z.to_nat n)
            ++ [KInitialCondition; KSolve])).
Proof.
  repeat split; intros.
  - apply emits_wc_gd.
  - apply emits_wc_gradient_descent_quadratics.
  - apply emits_wc_heavyball.
  - apply emits_wc_adrs.
  - apply emits_wc_accelerated_proximal_gradient.
  - apply emits_wc_past_extragradient.
  - apply emits_wc_alternate_projections.
  - apply emits_wc_no_lips2.
Qed.

(** C5, refuted as stated. [wc_alternate_projections(n=10)] registers its
    performance metric before its initial condition, as does
    [wc_no_lips2(1, 1, 3)] with its three metrics. *)
Lemma alternate_projections_metric_first :
  kinds (fst (wc_alternate_projections (stub_solver 0) 10 1 PEP_init))
  = [KPerformanceMetric; KInitialCondition; KSolve] /\
  kinds (fst (wc_no_lips2 (stub_solver 0) 1 1 3 true PEP_init))
  = [KPerformanceMetric; KPerformanceMetric; KPerformanceMetric;
     KInitialCondition; KSolve] /\
  ~ conditions_before_metrics
      (kinds (fst (wc_alternate_projections (stub_solver 0) 10 1 PEP_init))).
Proof.
  assert (kinds (fst (wc_alternate_projections (stub_solver 0) 10 1 PEP_init))
          = [KPerformanceMetric; KInitialCondition; KSolve]) as H
    by (vm_compute; reflexivity).
  split; [exact H|]. split; [vm_compute; reflexivity|].
  rewrite H. intros Hc. specialize (Hc 0%nat 1%nat eq_refl eq_refl). lia.
Qed.

(** ** Alternate projections *)

Section AlternateProjections.
Variable solver : option string -> SDP -> SolverOutput.

(** Every run of [wc_alternate_projections]: the metric is the squared norm
    of a Point, the initial condition bounds a squared norm by 1. *)
Lemma wc_alternate_projections_run n verbose :
  wp (wc_alternate_projections solver n verbose) PEP_init
     (fun s' r =>
        exists d d0 sdp,
          trace s' = [EvPerformanceMetric (Point_sq d);
                      EvInitialCondition (Expr_le_const (Point_sq d0) 1);
                      EvSolve sdp] /\
          sdp_objectives sdp = [Point_sq d] /\
          r = match status (solver (Some "logdet1"%string) sdp) with
              | optimal => Ok (objective (solver (Some "logdet1"%string) sdp), None)
              | st => Raise (SolveFailure st)
              end).
Proof.
  unfold wc_alternate_projections.
  eapply wp_declare_function; [apply ready_init|].
  intros s1 Hst1 Hleaf1 Hlen1 Hr1. simpl in Hleaf1, Hlen1, Hr1 |- *.
  eapply wp_declare_function; [eassumption|].
  intros s2 Hst2 Hleaf2 Hlen2 Hr2. rewrite Hlen1 in Hleaf2, Hlen2, Hr2 |- *.
  eapply wp_Function_add; [eassumption| |exact Hleaf2|done|].
  { eapply leaf_preserved; [apply Hst2|exact Hleaf1]. }
  intros s3 Hst3 Hlen3 Hr3. rewrite Hlen2 in Hlen3, Hr3 |- *.
  do 5 wp_eng.
  eapply wp_set_performance_metric; [eassumption|]. intros s9 Hr9 _.
  wp_eng.
  eapply wp_set_initial_condition; [eassumption|]. intros s11 Hr11 _.
  eapply wp_solve; [eassumption|]. intros s12 sdp Ht Hobj.
  destruct (status (solver (Some "logdet1"%string) sdp)) eqn:Hstat;
    try (eexists _, _, sdp; rewrite Hstat, Ht; done).
  eapply (wp_plain _ _ (fun _ => True)).
  { destruct (verbose =? -1)%Z; [by apply plain_ret|].
    repeat (eapply plain_bind; [apply plain_print|intros _ _]).
    apply plain_print. }
  intros _ s13 _ Ht13. apply wp_ret.
  eexists _, _, sdp. rewrite Hstat, Ht13, Ht. done.
Qed.

Lemma eval_Point_sq G F d :
  eval_expr G F (Point_sq d) == inner_gram G (pdec d) (pdec d).
Proof.
  unfold eval_expr, Point_sq, inner. simpl.
  rewrite Nat.leb_refl. simpl. ring.
Qed.

Lemma inner_gram_zero p q : inner_gram (fun _ _ => 0) p q == 0.
Proof.
  unfold inner_gram. induction p as [|[i a] p IH]; simpl; [reflexivity|].
  rewrite IH.
  assert (forall l : list (nat * Q),
            fold_right (fun jb acc' => a * snd jb * 0 + acc') 0 l == 0) as H0.
  { induction l as [|[j b] l IHl]; simpl; [reflexivity|]. rewrite IHl. ring. }
  rewrite H0. ring.
Qed.

Lemma zero_solver_exact : exact_solver zero_solver.
Proof.
  intros h sdp _. split; [|reflexivity].
  intros v. simpl. rewrite inner_gram_zero. lra.
Qed.

End AlternateProjections.



(** ** The oracle's cache *)

Section OracleCache.

Lemma keeps_ret {X A} (obs : PEP -> X) (a : A) : keeps obs (ret a).
Proof. intros s; reflexivity. Qed.

Lemma keeps_bind {X A B} (obs : PEP -> X) (m : M A) (f : A -> M B) :
  keeps obs m -> (forall a, keeps obs (f a)) -> keeps obs (bind m f).
Proof.
  intros Hm Hf s. unfold bind. specialize (Hm s).
  destruct (m s) as [s1 [a|e]]; simpl in *.
  - rewrite Hf. exact Hm.
  - exact Hm.
Qed.

Lemma keeps_view_Point_new f d : keeps (function_view f) (Point_new d).
Proof. intros s; reflexivity. Qed.

Lemma keeps_view_Point_leaf f : keeps (function_view f) Point_leaf.
Proof. intros s; reflexivity. Qed.

Lemma keeps_view_Expr_leaf f : keeps (function_view f) Expr_leaf.
Proof. intros s; reflexivity. Qed.

Lemma keeps_view_check f : keeps (function_view f) check_not_frozen.
Proof. intros s. unfold check_not_frozen. by destruct (frozen s). Qed.

Lemma keeps_view_get f g : keeps (function_view f) (get_function g).
Proof. intros s; reflexivity. Qed.

Lemma keeps_view_record f l t :
  l <> f -> keeps (function_view f) (record_triple l t).
Proof.
  intros Hne s. unfold function_view. simpl.
  by rewrite list_lookup_insert_ne.
Qed.

Lemma keeps_view_oracle_leaf f l p :
  l <> f -> keeps (function_view f) (oracle_leaf l p).
Proof.
  intros Hne. unfold oracle_leaf.
  apply keeps_bind; [apply keeps_view_check|]. intros _.
  apply keeps_bind; [apply keeps_view_get|]. intros ff.
  destruct (find_triple p (fpoints ff)); [apply keeps_ret|].
  apply keeps_bind; [apply keeps_view_Point_leaf|]. intros g.
  apply keeps_bind; [apply keeps_view_Expr_leaf|]. intros v.
  apply keeps_bind; [by apply keeps_view_record|]. intros _.
  apply keeps_ret.
Qed.

Lemma keeps_view_oracle_sum f dec p g v :
  (forall lw, lw ∈ dec -> fst lw <> f) ->
  keeps (function_view f) (oracle_sum dec p g v).
Proof.
  revert g v. induction dec as [|[l w] dec IH]; intros g v Hdec; simpl.
  - apply keeps_ret.
  - apply keeps_bind.
    { apply keeps_view_oracle_leaf. apply (Hdec (l, w)), list_elem_of_here. }
    intros [gl vl].
    apply keeps_bind; [apply keeps_view_Point_new|]. intros wg.
    apply keeps_bind; [apply keeps_view_Point_new|]. intros g'.
    apply IH. intros lw Hlw. apply Hdec. by apply list_elem_of_further.
Qed.

Lemma find_triple_app_new p l g v :
  find_triple p l = None -> find_triple p (l ++ [(p, g, v)]) = Some (g, v).
Proof.
  induction l as [|[[x gx] vx] l IH]; simpl.
  - by rewrite Nat.eqb_refl.
  - destruct (pkey x =? pkey p)%nat; [done|auto].
Qed.

(** A call of [oracle] whose point is in the cache of [f] returns the
    cached pair and leaves the state as it is. *)
Lemma oracle_hit s f p fn gv :
  frozen s = false -> functions s !! f = Some fn ->
  find_triple p (fpoints fn) = Some gv ->
  oracle f p s = (s, Ok gv).
Proof.
  intros Hfr Hf Hc. unfold oracle, bind, check_not_frozen, get_function.
  by rewrite Hfr, Hf; simpl; rewrite Hc.
Qed.

(** After any call of [oracle], the point is in the cache of [f] with the
    pair that was returned. *)
Lemma oracle_records s f p :
  frozen s = false -> well_formed s -> (f < length (functions s))%nat ->
  exists gv s1 fn1,
    oracle f p s = (s1, Ok gv) /\ frozen s1 = false /\
    functions s1 !! f = Some fn1 /\ find_triple p (fpoints fn1) = Some gv.
Proof.
  intros Hfr Hwf Hlt.
  destruct (lookup_lt_is_Some_2 _ _ Hlt) as [fn Hf].
  destruct (find_triple p (fpoints fn)) as [gv|] eqn:Hc.
  { exists gv, s, fn. by rewrite (oracle_hit s f p fn gv). }
  unfold oracle, bind at 1 2, check_not_frozen, get_function.
  rewrite Hfr, Hf. simpl. rewrite Hc.
  destruct (fclass fn) as [cls|] eqn:Hcls.
  - unfold oracle_leaf, bind, check_not_frozen, get_function.
    rewrite Hfr, Hf. simpl. rewrite Hc. simpl.
    eexists _, _, _. split; [reflexivity|]. simpl. split; [done|].
    split; [by apply list_lookup_insert_eq|].
    rewrite Hf. simpl. by apply find_triple_app_new.
  - assert (forall lw, lw ∈ fdec fn -> fst lw <> f) as Hdec.
    { intros lw Hlw Heq. destruct (Hwf _ _ Hf lw Hlw) as (fl & c & Hl & Hc').
      rewrite Heq in Hl. congruence. }
    unfold Point_zero, Point_new, bind at 1. simpl.
    set (s' := set_counters _ _ _ s).
    set (g0 := mkPoint _ _).
    destruct (engine_oracle_sum [] (fdec fn) p g0 (Expr_const 0) s')
      as ([g v] & s2 & Hsum & Hst & _); [done | by intros ? ?%elem_of_nil |].
    pose proof (keeps_view_oracle_sum f (fdec fn) p g0 (Expr_const 0) Hdec s')
      as Hview.
    rewrite Hsum in Hview. unfold function_view in Hview. simpl in Hview.
    injection Hview as Hf2 Hfr2.
    unfold bind. rewrite Hsum. simpl.
    eexists _, _, _. split; [reflexivity|]. simpl.
    split; [congruence|].
    split.
    + apply list_lookup_insert_eq, lookup_lt_is_Some_1. rewrite Hf2. eauto.
    + rewrite Hf2, Hf. simpl. by apply find_triple_app_new.
Qed.

End OracleCache.

Section WellFormed.

Lemma well_formed_init : well_formed PEP_init.
Proof. intros f fn H. simpl in H. by rewrite lookup_nil in H. Qed.

Lemma well_formed_declare_function cls s :
  well_formed s -> well_formed (fst (declare_function cls s)).
Proof.
  intros Hwf f fn Hf lw Hlw. simpl in *.
  apply lookup_app_Some in Hf as [Hf|[Hge Hf]].
  - destruct (Hwf f fn Hf lw Hlw) as (fl & c & Hl & Hc).
    exists fl, c. split; [by apply lookup_app_l_Some|done].
  - destruct (f - length (functions s))%nat eqn:E; [|by destruct n].
    injection Hf as <-. simpl in Hlw.
    apply list_elem_of_singleton in Hlw as ->. simpl.
    assert (f = length (functions s)) as -> by lia.
    eexists _, cls. split.
    + rewrite lookup_app_r by done. by rewrite Nat.sub_diag.
    + reflexivity.
Qed.

Lemma elem_of_dict_add (k : nat) c d lw :
  lw ∈ dict_add Nat.eqb k c d -> fst lw = k \/ exists lw', lw' ∈ d /\ fst lw' = fst lw.
Proof.
  induction d as [|[k' c'] d IH]; simpl.
  - intros ->%list_elem_of_singleton. by left.
  - destruct (Nat.eqb_spec k' k) as [->|Hne].
    + intros [->|H]%elem_of_cons.
      * by left.
      * right. exists lw. split; [by apply list_elem_of_further|done].
    + intros [->|H]%elem_of_cons.
      * right. exists (k', c'). split; [apply list_elem_of_here|done].
      * destruct (IH H) as [?|(lw' & ? & ?)]; [by left|].
        right. exists lw'. split; [by apply list_elem_of_further|done].
Qed.

Lemma elem_of_merge_dict d1 d2 lw :
  lw ∈ merge_dict Nat.eqb d1 d2 ->
  exists lw', (lw' ∈ d1 \/ lw' ∈ d2) /\ fst lw' = fst lw.
Proof.
  unfold merge_dict. revert d1. induction d2 as [|[k c] d2 IH]; intros d1; simpl.
  - intros H. exists lw. auto.
  - intros H. destruct (IH _ H) as (lw' & [H'|H'] & Heq).
    + apply elem_of_dict_add in H' as [Hk|(lw'' & ? & ?)].
      * exists (k, c). split; [right; apply list_elem_of_here|]. simpl. congruence.
      * exists lw''. split; [by left|congruence].
    + exists lw'. split; [right; by apply list_elem_of_further|done].
Qed.

Lemma well_formed_Function_add f g s :
  well_formed s -> well_formed (fst (Function_add f g s)).
Proof.
  intros Hwf h fn Hh lw Hlw. simpl in *.
  assert (forall lw' fn', functions s !! f = Some fn' \/ functions s !! g = Some fn' ->
            lw' ∈ fdec fn' ->
            exists fl cls, (functions s ++ [mkFunction None
               (merge_dict Nat.eqb (fdec (default empty_function (functions s !! f)))
                                   (fdec (default empty_function (functions s !! g)))) []])
               !! fst lw' = Some fl /\ fclass fl = Some cls) as Hold.
  { intros lw' fn' [H|H] Hin; destruct (Hwf _ _ H lw' Hin) as (fl & c & Hl & Hc);
      exists fl, c; (split; [by apply lookup_app_l_Some|done]). }
  apply lookup_app_Some in Hh as [Hh|[Hge Hh]].
  - destruct (Hwf h fn Hh lw Hlw) as (fl & c & Hl & Hc).
    exists fl, c. split; [by apply lookup_app_l_Some|done].
  - destruct (h - length (functions s))%nat eqn:E; [|by destruct n].
    injection Hh as <-. simpl in Hlw.
    apply elem_of_merge_dict in Hlw as (lw' & Hin & Heq). rewrite <- Heq.
    destruct Hin as [Hin|Hin].
    + destruct (functions s !! f) as [ff|] eqn:Hf; simpl in Hin;
        [|by apply elem_of_nil in Hin].
      by apply (Hold lw' ff); [left|].
    + destruct (functions s !! g) as [gg|] eqn:Hg; simpl in Hin;
        [|by apply elem_of_nil in Hin].
      by apply (Hold lw' gg); [right|].
Qed.

Lemma well_formed_record_triple f t s :
  well_formed s -> well_formed (fst (record_triple f t s)).
Proof.
  intros Hwf h fn Hh lw Hlw. simpl in *.
  assert (forall i fi, functions s !! i = Some fi ->
            exists fi', <[f := mkFunction
                 (fclass (default empty_function (functions s !! f)))
                 (fdec (default empty_function (functions s !! f)))
                 (fpoints (default empty_function (functions s !! f)) ++ [t])]>
               (functions s) !! i = Some fi' /\
               fclass fi' = fclass fi /\ fdec fi' = fdec fi) as Hkeep.
  { intros i fi Hi. apply (preserved_record s f t i fi Hi). }
  destruct (decide (f = h)) as [->|Hne].
  - destruct (functions s !! h) as [fh|] eqn:Hfh.
    + rewrite list_lookup_insert_eq in Hh by (by eapply lookup_lt_Some).
      injection Hh as <-. simpl in Hlw.
      destruct (Hwf h fh Hfh lw Hlw) as (fl & c & Hl & Hc).
      destruct (Hkeep _ _ Hl) as (fl' & Hl' & Hc' & _).
      exists fl', c. split; [done|congruence].
    + rewrite list_insert_ge in Hh by (by apply lookup_ge_None).
      congruence.
  - rewrite list_lookup_insert_ne in Hh by done.
    destruct (Hwf h fn Hh lw Hlw) as (fl & c & Hl & Hc).
    destruct (Hkeep _ _ Hl) as (fl' & Hl' & Hc' & _).
    exists fl', c. split; [done|congruence].
Qed.

End WellFormed.



(** ** Associativity of the combination of Functions *)

Section MergeAssoc.

Lemma Qplus_assoc_eq (x y z : Q) : (x + y) + z = x + (y + z).
Proof.
  destruct x as [xn xd], y as [yn yd], z as [zn zd]. unfold Qplus. simpl.
  f_equal; [|by rewrite Pos.mul_assoc].
  rewrite !Pos2Z.inj_mul. ring.
Qed.

Lemma Qplus_swap_eq (x y z : Q) : (x + y) + z = (x + z) + y.
Proof.
  destruct x as [xn xd], y as [yn yd], z as [zn zd]. unfold Qplus. simpl.
  f_equal; [rewrite !Pos2Z.inj_mul; ring|].
  rewrite <- !Pos.mul_assoc. f_equal. apply Pos.mul_comm.
Qed.

Lemma has_key_dict_add k k' c d :
  has_key k d -> has_key k (dict_add Nat.eqb k' c d).
Proof.
  induction d as [|[k0 c0] d IH]; intros [v Hv]; simpl.
  - by apply elem_of_nil in Hv.
  - destruct (Nat.eqb_spec k0 k') as [->|Hne].
    + apply elem_of_cons in Hv as [Hv|Hv].
      * injection Hv as -> ->. eexists. apply list_elem_of_here.
      * exists v. by apply list_elem_of_further.
    + apply elem_of_cons in Hv as [Hv|Hv].
      * injection Hv as -> ->. eexists. apply list_elem_of_here.
      * destruct IH as [v' Hv']; [by exists v|].
        exists v'. by apply list_elem_of_further.
Qed.

Lemma has_key_dict_add_same k c d : has_key k (dict_add Nat.eqb k c d).
Proof.
  induction d as [|[k0 c0] d IH]; simpl.
  - eexists. apply list_elem_of_here.
  - destruct (Nat.eqb_spec k0 k) as [->|Hne].
    + eexists. apply list_elem_of_here.
    + destruct IH as [v Hv]. exists v. by apply list_elem_of_further.
Qed.

(** Adding twice under one key adds the sum. *)
Lemma dict_add_twice k c1 c2 d :
  dict_add Nat.eqb k c2 (dict_add Nat.eqb k c1 d)
  = dict_add Nat.eqb k (c1 + c2) d.
Proof.
  induction d as [|[k0 c0] d IH]; simpl.
  - by rewrite Nat.eqb_refl.
  - destruct (Nat.eqb_spec k0 k) as [->|Hne]; simpl.
    + rewrite Nat.eqb_refl. by rewrite Qplus_assoc_eq.
    + destruct (Nat.eqb_spec k0 k); [done|]. by rewrite IH.
Qed.

(** Additions under a key already present commute with any other. *)
Lemma dict_add_comm k c k' c' d :
  has_key k d ->
  dict_add Nat.eqb k c (dict_add Nat.eqb k' c' d)
  = dict_add Nat.eqb k' c' (dict_add Nat.eqb k c d).
Proof.
  induction d as [|[k0 c0] d IH]; intros [v Hv].
  - by apply elem_of_nil in Hv.
  - simpl.
    destruct (k0 =? k')%nat eqn:E1; destruct (k0 =? k)%nat eqn:E2; simpl;
      rewrite ?E1, ?E2.
    + by rewrite Qplus_swap_eq.
    + done.
    + done.
    + f_equal. apply IH.
      apply elem_of_cons in Hv as [Hv|Hv]; [|by exists v].
      injection Hv as -> ->. by rewrite Nat.eqb_refl in E2.
Qed.

Lemma merge_dict_add_present k c d b :
  has_key k d ->
  merge_dict Nat.eqb (dict_add Nat.eqb k c d) b
  = dict_add Nat.eqb k c (merge_dict Nat.eqb d b).
Proof.
  unfold merge_dict. revert d.
  induction b as [|[k' c'] b IH]; intros d Hk; simpl; [done|].
  rewrite <- dict_add_comm by done.
  apply IH. by apply has_key_dict_add.
Qed.

Lemma merge_dict_add k c a b :
  merge_dict Nat.eqb a (dict_add Nat.eqb k c b)
  = dict_add Nat.eqb k c (merge_dict Nat.eqb a b).
Proof.
  revert a. induction b as [|[k' c'] b IH]; intros a; simpl; [done|].
  destruct (Nat.eqb_spec k' k) as [->|Hne].
  - unfold merge_dict at 1 2. simpl.
    rewrite <- dict_add_twice.
    apply (merge_dict_add_present k c (dict_add Nat.eqb k c' a) b).
    apply has_key_dict_add_same.
  - unfold merge_dict at 1 2. simpl.
    apply (IH (dict_add Nat.eqb k' c' a)).
Qed.

(** [merge_dict] is associative: [(f1 + f2) + f3] and [f1 + (f2 + f3)] have
    the same decomposition. *)
Lemma merge_dict_assoc a b c :
  merge_dict Nat.eqb (merge_dict Nat.eqb a b) c
  = merge_dict Nat.eqb a (merge_dict Nat.eqb b c).
Proof.
  revert b. induction c as [|[k w] c IH]; intros b; [done|].
  change (merge_dict Nat.eqb b ((k, w) :: c))
    with (merge_dict Nat.eqb (dict_add Nat.eqb k w b) c).
  rewrite <- IH, merge_dict_add. reflexivity.
Qed.

End MergeAssoc.

(** ** Computations that do not look at one Function object *)

Create HintDb blind.

Ltac blind_prim :=
  intros s Hs; split; [reflexivity|];
  split; [unfold erase, set_functions, set_counters; cbn;
          by rewrite ?list_insert_insert_eq|];
  split; [exact Hs|done].

Ltac res_tac :=
  match goal with
  | |- resolve _ ?f <> _ => destruct f; simpl in *; [assumption|lia]
  end.

Section Blind.
Variable k : nat.

Lemma erase_idem s : erase k (erase k s) = erase k s.
Proof. unfold erase, set_functions. simpl. by rewrite list_insert_insert_eq. Qed.

Lemma hidden_erase s : hidden k s -> hidden k (erase k s).
Proof.
  intros [Hd Hk]. split; [|exact Hk].
  intros i fn Hi lw Hlw. simpl in Hi.
  apply list_lookup_insert_Some in Hi as [(-> & <- & _)|[_ Hi]].
  - by apply elem_of_nil in Hlw.
  - by apply (Hd i fn).
Qed.

Lemma blind_ret {A} (a : A) (P : A -> Prop) : P a -> blind k (ret a) P.
Proof.
  intros HP s Hs. split; [reflexivity|].
  split; [simpl; by rewrite erase_idem|].
  split; [exact Hs|].
  intros a' H. simpl in H. by injection H as <-.
Qed.

Lemma blind_ret_True {A} (a : A) : blind k (ret a) (fun _ => True).
Proof. apply blind_ret. exact I. Qed.

Lemma blind_raise {A} e (P : A -> Prop) : blind k (raise e) P.
Proof.
  intros s Hs. split; [reflexivity|].
  split; [simpl; by rewrite erase_idem|].
  split; [exact Hs|].
  intros a H. simpl in H. discriminate H.
Qed.

Lemma blind_bind {A B} (m : M A) (f : A -> M B) P1 P2 :
  blind k m P1 -> (forall a, P1 a -> blind k (f a) P2) ->
  blind k (bind m f) P2.
Proof.
  intros Hm Hf s Hs.
  destruct (Hm s Hs) as (Hr & He & Hh & HP).
  destruct (Hm (erase k s) (hidden_erase s Hs)) as (_ & _ & Hhe & _).
  unfold bind. revert Hr He Hh HP Hhe.
  destruct (m s) as [s1 r1], (m (erase k s)) as [s1e r1e]. simpl.
  intros Hr He Hh HP Hhe.
  subst r1e. destruct r1 as [a|e]; [|done].
  specialize (Hf a (HP a eq_refl)).
  destruct (Hf s1 Hh) as (Hr1 & He1 & Hh1 & HP1).
  destruct (Hf s1e Hhe) as (Hr2 & He2 & _ & _).
  split; [by rewrite Hr1, Hr2, He|].
  split; [by rewrite He1, He2, He|].
  split; [exact Hh1|exact HP1].
Qed.

Ltac bstep :=
  cbv beta iota;
  eapply blind_bind; [solve [eauto with blind]|intros ? _; cbv beta iota].

(** Steps on the registries' counters and on the Problem's lists. *)
Lemma blind_Point_leaf : blind k Point_leaf (fun _ => True).
Proof. blind_prim. Qed.

Lemma blind_Point_new d : blind k (Point_new d) (fun _ => True).
Proof. blind_prim. Qed.

Lemma blind_Expr_leaf : blind k Expr_leaf (fun _ => True).
Proof. blind_prim. Qed.

Lemma blind_set_initial_point : blind k set_initial_point (fun _ => True).
Proof. blind_prim. Qed.

Lemma blind_set_initial_condition c :
  blind k (set_initial_condition c) (fun _ => True).
Proof. blind_prim. Qed.

Lemma blind_set_performance_metric e :
  blind k (set_performance_metric e) (fun _ => True).
Proof. blind_prim. Qed.

Lemma blind_check_not_frozen : blind k check_not_frozen (fun _ => True).
Proof.
  intros s Hs. unfold check_not_frozen.
  change (frozen (erase k s)) with (frozen s).
  destruct (frozen s).
  - split; [reflexivity|]. split; [simpl; by rewrite erase_idem|].
    split; [exact Hs|done].
  - split; [reflexivity|]. split; [simpl; by rewrite erase_idem|].
    split; [exact Hs|done].
Qed.

Lemma blind_py_div a b : blind k (py_div a b) (fun _ => True).
Proof.
  unfold py_div. destruct (Qeq_bool b 0); [apply blind_raise|apply blind_ret_True].
Qed.

Lemma blind_point_at env i : blind k (point_at env i) (fun _ => True).
Proof.
  unfold point_at. destruct (env !! i); [apply blind_ret_True|apply blind_raise].
Qed.

Lemma blind_Point_add p q : blind k (Point_add p q) (fun _ => True).
Proof. unfold Point_add. apply blind_Point_new. Qed.

Lemma blind_Point_rmul a p : blind k (Point_rmul a p) (fun _ => True).
Proof. unfold Point_rmul. apply blind_Point_new. Qed.

Lemma blind_Point_zero : blind k Point_zero (fun _ => True).
Proof. unfold Point_zero. apply blind_Point_new. Qed.

#[local] Hint Resolve blind_ret_True blind_Point_leaf blind_Point_new
  blind_Expr_leaf blind_set_initial_point blind_set_initial_condition
  blind_set_performance_metric blind_check_not_frozen blind_py_div
  blind_point_at blind_Point_add blind_Point_rmul blind_Point_zero : blind.

Lemma blind_Point_sub p q : blind k (Point_sub p q) (fun _ => True).
Proof. unfold Point_sub, Point_neg. bstep. apply blind_Point_add. Qed.

Lemma blind_Point_div p a : blind k (Point_div p a) (fun _ => True).
Proof. unfold Point_div. bstep. apply blind_Point_rmul. Qed.

#[local] Hint Resolve blind_Point_sub blind_Point_div : blind.

(** Reading and updating another Function object. *)
Lemma blind_get_function f :
  f <> k ->
  blind k (get_function f) (fun ff => forall lw, lw ∈ fdec ff -> fst lw <> k).
Proof.
  intros Hne s Hs. unfold get_function.
  change (functions (erase k s)) with (<[k := empty_function]> (functions s)).
  rewrite list_lookup_insert_ne by done.
  split; [reflexivity|]. split; [simpl; by rewrite erase_idem|].
  split; [exact Hs|].
  intros ff H lw Hlw. simpl in H. injection H as <-.
  destruct (functions s !! f) as [fn|] eqn:Hf; simpl in Hlw.
  - by apply (proj1 Hs f fn).
  - by apply elem_of_nil in Hlw.
Qed.

Lemma blind_record_triple f t :
  f <> k -> blind k (record_triple f t) (fun _ => True).
Proof.
  intros Hne s [Hd Hk]. unfold record_triple.
  change (functions (erase k s)) with (<[k := empty_function]> (functions s)).
  rewrite list_lookup_insert_ne by done.
  split; [reflexivity|]. split; [|split; [split; [|exact Hk]|done]].
  - unfold erase, set_functions. cbn. f_equal.
    rewrite !(list_insert_insert_ne _ k f) by done.
    by rewrite list_insert_insert_eq.
  - intros i fn Hi lw Hlw. cbn in Hi.
    apply list_lookup_insert_Some in Hi as [(-> & <- & Hlt)|[_ Hi]].
    + simpl in Hlw. destruct (functions s !! i) as [fi|] eqn:Hfi; simpl in Hlw.
      * by apply (Hd i fi).
      * by apply elem_of_nil in Hlw.
    + by apply (Hd i fn).
Qed.

(** The oracle of a Function other than [k] whose decomposition does not
    mention [k]. *)
Lemma blind_oracle_leaf f p :
  f <> k -> blind k (oracle_leaf f p) (fun _ => True).
Proof.
  intros Hne. unfold oracle_leaf.
  bstep. eapply blind_bind; [by apply blind_get_function|]. intros ff _.
  destruct (find_triple p (fpoints ff)) as [gv|]; [apply blind_ret_True|].
  bstep. bstep.
  eapply blind_bind; [by apply blind_record_triple|]. intros _ _.
  apply blind_ret_True.
Qed.

Lemma blind_oracle_sum dec p g v :
  (forall lw, lw ∈ dec -> fst lw <> k) ->
  blind k (oracle_sum dec p g v) (fun _ => True).
Proof.
  revert g v. induction dec as [|[l w] dec IH]; intros g v H; cbn [oracle_sum].
  - apply blind_ret_True.
  - eapply blind_bind.
    { apply blind_oracle_leaf. apply (H (l, w)). apply list_elem_of_here. }
    intros [gl vl] _. bstep. bstep.
    apply IH. intros lw Hlw. apply H. by apply list_elem_of_further.
Qed.

Lemma blind_oracle f p : f <> k -> blind k (oracle f p) (fun _ => True).
Proof.
  intros Hne. unfold oracle.
  bstep. eapply blind_bind; [by apply blind_get_function|]. intros ff Hff.
  cbv beta in Hff.
  destruct (find_triple p (fpoints ff)) as [gv|]; [apply blind_ret_True|].
  destruct (fclass ff); [by apply blind_oracle_leaf|].
  bstep. eapply blind_bind; [by apply blind_oracle_sum|].
  intros [g v] _. cbv beta iota.
  eapply blind_bind; [by apply blind_record_triple|]. intros _ _.
  apply blind_ret_True.
Qed.

Lemma distribute_cons l w lw dec p g v :
  distribute ((l, w) :: lw :: dec) p g v
  = (let* '(gl, vl) := oracle_leaf l p in
     let* wg := Point_rmul w gl in
     let* g' := Point_sub g wg in
     distribute (lw :: dec) p g' (Expr_sub v (Expr_rmul w vl))).
Proof. reflexivity. Qed.

Lemma blind_distribute dec p g v :
  (forall lw, lw ∈ dec -> fst lw <> k) ->
  blind k (distribute dec p g v) (fun _ => True).
Proof.
  revert g v. induction dec as [|[l w] dec IH]; intros g v H.
  - cbn [distribute]. apply blind_ret_True.
  - assert (l <> k) as Hl by (apply (H (l, w)); apply list_elem_of_here).
    destruct dec as [|lw dec].
    + cbn [distribute]. bstep. bstep. by apply blind_record_triple.
    + rewrite distribute_cons.
      eapply blind_bind; [by apply blind_oracle_leaf|].
      intros [gl vl] _. bstep. bstep.
      apply IH. intros lw' Hlw. apply H. by apply list_elem_of_further.
Qed.

Lemma blind_add_point f t : f <> k -> blind k (add_point f t) (fun _ => True).
Proof.
  intros Hne. unfold add_point.
  bstep. eapply blind_bind; [by apply blind_get_function|]. intros ff Hff.
  cbv beta in Hff.
  destruct (fclass ff); [by apply blind_record_triple|].
  eapply blind_bind; [by apply blind_record_triple|]. intros _ _.
  by apply blind_distribute.
Qed.

Lemma blind_stationary_point f :
  f <> k -> blind k (stationary_point f) (fun _ => True).
Proof.
  intros Hne. unfold stationary_point. bstep. bstep. bstep.
  eapply blind_bind; [by apply blind_add_point|]. intros _ _.
  apply blind_ret_True.
Qed.

Lemma blind_proximal_step x0 f step :
  f <> k -> blind k (proximal_step x0 f step) (fun _ => True).
Proof.
  intros Hne. unfold proximal_step. bstep. bstep. bstep. bstep.
  eapply blind_bind; [by apply blind_add_point|]. intros _ _.
  apply blind_ret_True.
Qed.

(** A trajectory on the combined Function [F] and on Functions older than
    [k] does not look at Function [k]. *)
Lemma blind_run_step F st env :
  F <> k -> step_refs_below k st ->
  blind k (run_step F st env) (fun _ => True).
Proof.
  intros HF Hst.
  destruct st as [|f|f p|p f step|a p b q|p c|p]; unfold run_step.
  - bstep. apply blind_ret_True.
  - eapply blind_bind; [apply blind_stationary_point; res_tac|].
    intros x _. apply blind_ret_True.
  - bstep. eapply blind_bind; [apply blind_oracle; res_tac|].
    intros gv _. apply blind_ret_True.
  - bstep. eapply blind_bind; [apply blind_proximal_step; res_tac|].
    intros ygv _. apply blind_ret_True.
  - bstep. bstep. bstep. bstep. bstep. apply blind_ret_True.
  - bstep. bstep. apply blind_ret_True.
  - bstep. bstep. apply blind_ret_True.
Qed.

Lemma blind_run_steps F steps env :
  F <> k -> Forall (step_refs_below k) steps ->
  blind k (run_steps F steps env) (fun _ => True).
Proof.
  intros HF Hsteps. revert env.
  induction Hsteps as [|st steps Hst _ IH]; intros env; cbn [run_steps].
  - apply blind_ret_True.
  - eapply blind_bind; [by apply blind_run_step|]. intros env' _. apply IH.
Qed.

(** The assembled problem does not depend on a Function object that was
    not declared. *)
Lemma flat_map_erase (fs : list Function) (l : list nat) :
  k ∉ l ->
  flat_map (fun f => function_constraints
                       (default empty_function (<[k := empty_function]> fs !! f))) l
  = flat_map (fun f => function_constraints (default empty_function (fs !! f))) l.
Proof.
  induction l as [|a l IH]; intros Hk; [done|]. simpl.
  rewrite list_lookup_insert_ne.
  - f_equal. apply IH. intros H. apply Hk. by apply list_elem_of_further.
  - intros ->. apply Hk. apply list_elem_of_here.
Qed.

Lemma assemble_erase s : k ∉ declared s -> assemble (erase k s) = assemble s.
Proof.
  intros Hk. unfold assemble, interpolation_constraints.
  change (functions (erase k s)) with (<[k := empty_function]> (functions s)).
  change (declared (erase k s)) with (declared s).
  rewrite flat_map_erase by done. reflexivity.
Qed.

End Blind.

(** ** The two bracketings of [f1 + f2 + f3] *)

Section Associativity.

Lemma insert_middle {A} (l : list A) (x y : A) (l' : list A) :
  <[length l := y]> (l ++ x :: l') = l ++ y :: l'.
Proof. induction l as [|a l IH]; [done|]. simpl. f_equal. exact IH. Qed.

Lemma lookup_snoc_here {A} (l : list A) (x : A) : (l ++ [x]) !! length l = Some x.
Proof. induction l as [|a l IH]; [done|]. exact IH. Qed.

Lemma bind_run {A B} (m : M A) (f : A -> M B) s s' a :
  m s = (s', Ok a) -> bind m f s = f a s'.
Proof. intros H. unfold bind. by rewrite H. Qed.

Lemma Function_add_run f g s :
  Function_add f g s
  = (set_functions
       (functions s ++
          [mkFunction None
             (merge_dict Nat.eqb (fdec (default empty_function (functions s !! f)))
                                 (fdec (default empty_function (functions s !! g))))
             []]) s,
     Ok (length (functions s))).
Proof. reflexivity. Qed.

(** The state in which the trajectory starts: the two new Function objects
    after those of [s]. *)
Lemma problem_left_run f1 f2 f3 steps s :
  (f3 < length (functions s))%nat ->
  problem_left f1 f2 f3 steps s
  = run_steps (S (length (functions s))) steps []
      (set_functions
         (functions s ++
            [mkFunction None
               (merge_dict Nat.eqb
                  (fdec (default empty_function (functions s !! f1)))
                  (fdec (default empty_function (functions s !! f2)))) [];
             mkFunction None
               (merge_dict Nat.eqb
                  (merge_dict Nat.eqb
                     (fdec (default empty_function (functions s !! f1)))
                     (fdec (default empty_function (functions s !! f2))))
                  (fdec (default empty_function (functions s !! f3)))) []]) s).
Proof.
  intros H3. unfold problem_left.
  rewrite (bind_run _ _ s _ _ (Function_add_run f1 f2 s)).
  rewrite (bind_run _ _ _ _ _ (Function_add_run _ f3 _)).
  cbn [functions set_functions].
  rewrite lookup_snoc_here, (lookup_app_l _ _ f3) by done.
  rewrite length_app, Nat.add_1_r, <- app_assoc.
  reflexivity.
Qed.

Lemma problem_right_run f1 f2 f3 steps s :
  (f1 < length (functions s))%nat ->
  problem_right f1 f2 f3 steps s
  = run_steps (S (length (functions s))) steps []
      (set_functions
         (functions s ++
            [mkFunction None
               (merge_dict Nat.eqb
                  (fdec (default empty_function (functions s !! f2)))
                  (fdec (default empty_function (functions s !! f3)))) [];
             mkFunction None
               (merge_dict Nat.eqb
                  (merge_dict Nat.eqb
                     (fdec (default empty_function (functions s !! f1)))
                     (fdec (default empty_function (functions s !! f2))))
                  (fdec (default empty_function (functions s !! f3)))) []]) s).
Proof.
  intros H1. unfold problem_right.
  rewrite (bind_run _ _ s _ _ (Function_add_run f2 f3 s)).
  rewrite (bind_run _ _ _ _ _ (Function_add_run f1 _ _)).
  cbn [functions set_functions].
  rewrite lookup_snoc_here, (lookup_app_l _ _ f1) by done.
  rewrite length_app, Nat.add_1_r, <- app_assoc.
  cbn [fdec from_option id].
  rewrite <- merge_dict_assoc.
  reflexivity.
Qed.

(** Decompositions refer to Functions of the registry. *)
Lemma keys_below_fdec s f :
  well_formed s ->
  forall lw, lw ∈ fdec (default empty_function (functions s !! f)) ->
    (fst lw < length (functions s))%nat.
Proof.
  intros Hwf lw Hlw. destruct (functions s !! f) as [fn|] eqn:Hf; simpl in Hlw.
  - destruct (Hwf f fn Hf lw Hlw) as (fl & cls & Hl & _).
    by eapply lookup_lt_Some.
  - by apply elem_of_nil in Hlw.
Qed.

Lemma keys_below_merge (n : nat) (d1 d2 : list (nat * Q)) :
  (forall lw, lw ∈ d1 -> (fst lw < n)%nat) ->
  (forall lw, lw ∈ d2 -> (fst lw < n)%nat) ->
  forall lw, lw ∈ merge_dict Nat.eqb d1 d2 -> (fst lw < n)%nat.
Proof.
  intros H1 H2 lw Hlw.
  apply elem_of_merge_dict in Hlw as (lw' & [H|H] & Heq); rewrite <- Heq; auto.
Qed.

Lemma hidden_combined s (A B : Function) :
  well_formed s -> declared_in_registry s ->
  (forall lw, lw ∈ fdec A -> (fst lw < length (functions s))%nat) ->
  (forall lw, lw ∈ fdec B -> (fst lw < length (functions s))%nat) ->
  hidden (length (functions s)) (set_functions (functions s ++ [A; B]) s).
Proof.
  intros Hwf Hdecl HA HB. split.
  - intros i fn Hi lw Hlw. cbn [functions set_functions] in Hi.
    apply lookup_app_Some in Hi as [Hi|[Hge Hi]].
    + destruct (Hwf i fn Hi lw Hlw) as (fl & cls & Hl & _).
      apply lookup_lt_Some in Hl. lia.
    + destruct (i - length (functions s))%nat as [|[|n]]; simpl in Hi.
      * injection Hi as <-. specialize (HA lw Hlw). lia.
      * injection Hi as <-. specialize (HB lw Hlw). lia.
      * by rewrite ?lookup_nil in Hi.
  - cbn [declared set_functions]. intros Hin. specialize (Hdecl _ Hin). lia.
Qed.

Lemma erase_combined s (A A' B : Function) :
  erase (length (functions s)) (set_functions (functions s ++ [A; B]) s)
  = erase (length (functions s)) (set_functions (functions s ++ [A'; B]) s).
Proof. unfold erase, set_functions. cbn. by rewrite !insert_middle. Qed.

End Associativity.

(** C7. Combination of Functions is associative: from a registry whose
    decompositions refer to declared Functions, the same trajectory (on
    the combined Function and on Functions that existed before the
    combination) run on [(f1 + f2) + f3] and on [f1 + (f2 + f3)] has the
    same outcome, leaves the same state except for the intermediate
    Function object ([f1 + f2], respectively [f2 + f3]), so every leaf
    Function holds the same triples and as many oracle calls were made,
    and the two Problems assemble to the same problem, with the same
    constraints. *)
Theorem Function_add_associative s f1 f2 f3 steps :
  well_formed s -> declared_in_registry s ->
  (f1 < length (functions s))%nat ->
  (f2 < length (functions s))%nat ->
  (f3 < length (functions s))%nat ->
  Forall (step_refs_below (length (functions s))) steps ->
  snd (problem_left f1 f2 f3 steps s) = snd (problem_right f1 f2 f3 steps s) /\
  erase (length (functions s)) (fst (problem_left f1 f2 f3 steps s))
  = erase (length (functions s)) (fst (problem_right f1 f2 f3 steps s)) /\
  (forall f, (f < length (functions s))%nat ->
     functions (fst (problem_left f1 f2 f3 steps s)) !! f
     = functions (fst (problem_right f1 f2 f3 steps s)) !! f) /\
  counter_gens (fst (problem_left f1 f2 f3 steps s))
  = counter_gens (fst (problem_right f1 f2 f3 steps s)) /\
  assemble (fst (problem_left f1 f2 f3 steps s))
  = assemble (fst (problem_right f1 f2 f3 steps s)) /\
  Permutation
    (sdp_constraints (assemble (fst (problem_left f1 f2 f3 steps s))))
    (sdp_constraints (assemble (fst (problem_right f1 f2 f3 steps s)))).
Proof.
  intros Hwf Hdecl H1 H2 H3 Hsteps.
  rewrite problem_left_run, problem_right_run by done.
  set (k := length (functions s)) in *.
  set (d1 := fdec (default empty_function (functions s !! f1))).
  set (d2 := fdec (default empty_function (functions s !! f2))).
  set (d3 := fdec (default empty_function (functions s !! f3))).
  set (B := mkFunction None (merge_dict Nat.eqb (merge_dict Nat.eqb d1 d2) d3) []).
  set (sL := set_functions (functions s ++ [mkFunction None (merge_dict Nat.eqb d1 d2) []; B]) s).
  set (sR := set_functions (functions s ++ [mkFunction None (merge_dict Nat.eqb d2 d3) []; B]) s).
  assert (forall lw, lw ∈ d1 -> (fst lw < k)%nat) as K1 by by apply keys_below_fdec.
  assert (forall lw, lw ∈ d2 -> (fst lw < k)%nat) as K2 by by apply keys_below_fdec.
  assert (forall lw, lw ∈ d3 -> (fst lw < k)%nat) as K3 by by apply keys_below_fdec.
  assert (hidden k sL) as HL.
  { apply hidden_combined; [done|done| |]; simpl;
      repeat (apply keys_below_merge; try done). }
  assert (hidden k sR) as HR.
  { apply hidden_combined; [done|done| |]; simpl;
      repeat (apply keys_below_merge; try done). }
  assert (erase k sL = erase k sR) as HE by apply erase_combined.
  assert (S k <> k) as HF by lia.
  pose proof (blind_run_steps k (S k) steps [] HF Hsteps) as Hb.
  destruct (Hb sL HL) as (Hr1 & He1 & Hh1 & _).
  destruct (Hb sR HR) as (Hr2 & He2 & Hh2 & _).
  rewrite HE in Hr1, He1.
  set (L := run_steps (S k) steps [] sL) in *.
  set (R := run_steps (S k) steps [] sR) in *.
  assert (erase k (fst L) = erase k (fst R)) as Hfin by congruence.
  assert (assemble (fst L) = assemble (fst R)) as Has.
  { rewrite <- (assemble_erase k (fst L)) by apply Hh1.
    rewrite <- (assemble_erase k (fst R)) by apply Hh2.
    by rewrite Hfin. }
  split; [congruence|]. split; [exact Hfin|]. split.
  { intros f Hf.
    assert (functions (erase k (fst L)) !! f = functions (erase k (fst R)) !! f)
      as Hlook by by rewrite Hfin.
    cbn [functions erase set_functions] in Hlook.
    rewrite !list_lookup_insert_ne in Hlook by lia. exact Hlook. }
  split.
  { change (counter_gens (erase k (fst L)) = counter_gens (erase k (fst R))).
    by rewrite Hfin. }
  split; [exact Has|]. by rewrite Has.
Qed.

Lemma Function_add_associative_witness :
  let s := fst ((let* _ := declare_function (ConvexFunction true) in
                 let* _ := declare_function (SmoothStronglyConvexFunction 0 1) in
                 declare_function (ConvexIndicatorFunction None)) PEP_init) in
  let steps := [StInitialPoint; StStationary Combined; StOracle Combined 0;
                StProximal 0 (Other 1) 1; StOracle (Other 0) 2;
                StCombine 1 0 (-1) 1; StInitialCondition 4 1; StMetric 2] in
  (well_formed s /\ declared_in_registry s /\
   Forall (step_refs_below (length (functions s))) steps) /\
  (exists env, snd (problem_left 0 1 2 steps s) = Ok env) /\
  snd (problem_left 0 1 2 steps s) = snd (problem_right 0 1 2 steps s) /\
  assemble (fst (problem_left 0 1 2 steps s))
  = assemble (fst (problem_right 0 1 2 steps s)).
Proof.
  intros s steps. vm_compute in s.
  assert (well_formed s) as Hwf.
  { intros f fn Hf lw Hlw.
    destruct f as [|[|[|f]]]; simpl in Hf; try discriminate;
      injection Hf as <-; simpl in Hlw;
      repeat (apply elem_of_cons in Hlw as [->|Hlw]);
      try (by apply elem_of_nil in Hlw);
      simpl; eexists _, _; (split; [reflexivity|reflexivity]). }
  assert (declared_in_registry s) as Hdecl.
  { intros f Hf. simpl in Hf.
    repeat (apply elem_of_cons in Hf as [->|Hf]);
      try (by apply elem_of_nil in Hf); simpl; lia. }
  assert (Forall (step_refs_below (length (functions s))) steps) as Hsteps.
  { repeat constructor; simpl; lia. }
  split; [done|].
  split; [eexists; vm_compute; reflexivity|].
  destruct (Function_add_associative s 0%nat 1%nat 2%nat steps Hwf Hdecl
              ltac:(simpl; lia) ltac:(simpl; lia) ltac:(simpl; lia) Hsteps)
    as (Hr & _ & _ & _ & Has & _).
  split; [exact Hr|exact Has].
Defined.

(** * Further properties of the scripts *)

(** ** Heavy ball and accelerated proximal gradient *)

Section Outcomes.
Variable solver : option string -> SDP -> SolverOutput.

Lemma for_loop_raise_first {A} (body : Z -> A -> M A) rng acc s e :
  rng <> [] -> (forall i a, body i a s = (s, Raise e)) ->
  for_loop body rng acc s = (s, Raise e).
Proof.
  intros Hne Hb. destruct rng as [|i rng]; [done|].
  simpl. unfold bind. by rewrite Hb.
Qed.

Lemma ready_trace T C Ms R s : ready T C Ms R s -> trace s = T.
Proof. by intros (_ & ? & _). Qed.

(** Every run of [wc_heavyball]: [1 / L] is evaluated after the initial
    condition is registered and before the loop. *)
Lemma wc_heavyball_run mu L alpha beta n :
  wp (wc_heavyball solver mu L alpha beta n) PEP_init
     (fun s' r =>
        if Qeq_bool L 0 then raised_after_condition ZeroDivisionError s' r
        else solved_with solver None (fun wc => Ok wc) s' r).
Proof.
  unfold wc_heavyball.
  eapply wp_declare_function; [apply ready_init|].
  intros s1 Hst1 Hleaf1 Hlen1 Hr1. simpl in Hr1 |- *.
  do 4 wp_eng.
  eapply wp_set_initial_condition; [eassumption|]. intros s6 Hr6 _.
  wp_eng.
  destruct (Qeq_bool L 0) eqn:HL.
  - eapply wp_bind_raise; [by apply py_div_zero|].
    split; [done|]. eexists. by eapply ready_trace.
  - eapply wp_engine; cycle 1; [eassumption| |by apply engine_py_div].
    intros invL s8 -> Hst8 Hr8.
    do 3 wp_eng.
    eapply (wp_engine _ _ (fun _ => True)); cycle 1.
    { eassumption. }
    2:{ apply engine_for_loop; [|exact I].
        intros i [[xn xo] gn] _ _. cbv beta iota.
        eapply engine_bind; [by apply engine_py_div|]. intros ? _.
        engine_tac. }
    intros [[xn xo] gn] s12 _ Hst12 Hr12.
    wp_eng.
    eapply wp_set_performance_metric; [eassumption|]. intros s14 Hr14 _.
    eapply wp_solve; [eassumption|]. intros s15 sdp Ht Hobj.
    destruct (status (solver None sdp)) eqn:Hstat;
      try (eexists _, _, sdp; rewrite Hstat, Ht; done).
    eapply (wp_plain _ _ (fun _ => True)); [apply plain_print|].
    intros _ s16 _ Ht16.
    eapply (wp_plain _ _ (fun _ => True)); [apply plain_print|].
    intros _ s17 _ Ht17. apply wp_ret.
    eexists _, _, sdp. rewrite Hstat, Ht17, Ht16, Ht. done.
Qed.

Lemma apg_denominator n :
  (1 <= n)%Z -> Qeq_bool (inject_Z (n ^ 2 + 5 * n + 2)) 0 = false.
Proof. intros Hn. apply Qeq_bool_inject_Z. nia. Qed.

(** Every run of [wc_accelerated_proximal_gradient]. *)
Lemma wc_accelerated_proximal_gradient_run mu L n verbose :
  wp (wc_accelerated_proximal_gradient solver mu L n verbose) PEP_init
     (fun s' r =>
        if (n <=? 0)%Z then raised_after_condition (NameError "hx_new") s' r
        else if Qeq_bool L 0 then raised_after_condition ZeroDivisionError s' r
        else solved_with solver None
               (fun tau => Ok (tau, 2 * L / inject_Z (n ^ 2 + 5 * n + 2))) s' r).
Proof.
  unfold wc_accelerated_proximal_gradient.
  eapply wp_declare_function; [apply ready_init|].
  intros s1 Hst1 Hleaf1 Hlen1 Hr1. simpl in Hleaf1, Hlen1, Hr1 |- *.
  eapply wp_declare_function; [eassumption|].
  intros s2 Hst2 Hleaf2 Hlen2 Hr2. rewrite Hlen1 in Hleaf2, Hlen2, Hr2 |- *.
  eapply wp_Function_add; [eassumption| |exact Hleaf2|done|].
  { eapply leaf_preserved; [apply Hst2|exact Hleaf1]. }
  intros s3 Hst3 Hlen3 Hr3. rewrite Hlen2 in Hlen3, Hr3 |- *.
  do 4 wp_eng.
  eapply wp_set_initial_condition; [eassumption|]. intros s8 Hr8 _.
  destruct (Z.leb_spec n 0) as [Hn|Hn].
  - rewrite range_nonpos by done. simpl.
    apply wp_bind_ok, ok_ret.
    wp_eng.
    eapply wp_bind_raise; [reflexivity|].
    split; [done|]. eexists. by eapply ready_trace.
  - destruct (Qeq_bool L 0) eqn:HL.
    + eapply wp_bind_raise.
      { apply for_loop_raise_first; [apply range_pos; lia|].
        intros i [[[xn y] xo] hx]. unfold bind. by rewrite py_div_zero. }
      split; [done|]. eexists. by eapply ready_trace.
    + eapply (wp_engine _ _ (fun acc => is_Some (snd acc))); cycle 1.
      { eassumption. }
      2:{ apply engine_for_loop_nonempty; [apply range_pos; lia|].
          intros i [[[xn y] xo] hx] Hi. apply elem_of_range in Hi.
          cbv beta iota.
          eapply engine_bind; [by apply engine_py_div|]. intros ? _.
          eapply engine_bind; [solve [eauto with engine]|]. intros ? _.
          eapply engine_bind; [solve [eauto with engine]|]. intros ? _.
          eapply engine_bind; [solve [eauto with engine]|]. intros ? _.
          eapply engine_bind; [by apply engine_py_div|]. intros ? _.
          eapply engine_bind; [apply engine_proximal_step; in_list|].
          intros [[x' gx'] hx'] _. cbv beta iota.
          eapply engine_bind; [apply engine_py_div, Qeq_bool_inject_Z; lia|].
          intros ? _.
          eapply engine_bind; [solve [eauto with engine]|]. intros ? _.
          eapply engine_bind; [solve [eauto with engine]|]. intros ? _.
          eapply engine_bind; [solve [eauto with engine]|]. intros ? _.
          apply engine_ret. simpl. eauto. }
      intros [[[xn y] xo] [hx|]] s10 Hsome Hst10 Hr10; [|by destruct Hsome].
      wp_eng.
      change (read_var "hx_new" (Some hx)) with (ret (A:=Expression) hx).
      apply wp_bind_ok, ok_ret.
      eapply wp_set_performance_metric; [eassumption|]. intros s13 Hr13 _.
      eapply wp_solve; [eassumption|]. intros s14 sdp Ht Hobj.
      destruct (status (solver None sdp)) eqn:Hstat;
        try (eexists _, _, sdp; rewrite Hstat, Ht; done).
      eapply (wp_plain _ _ (fun t => t = 2 * L / inject_Z (n ^ 2 + 5 * n + 2))).
      { destruct (Qeq_bool mu 0).
        - apply plain_py_div, apg_denominator. lia.
        - eapply plain_bind; [apply plain_py_div, apg_denominator; lia|].
          intros t ->.
          eapply plain_bind; [apply plain_print|]. intros _ _.
          by apply plain_ret. }
      intros t s15 -> Ht15.
      eapply (wp_plain _ _ (fun _ => True)).
      { destruct verbose; [|by apply plain_ret].
        repeat (eapply plain_bind; [apply plain_print|intros _ _]).
        apply plain_print. }
      intros _ s16 _ Ht16. apply wp_ret.
      eexists _, _, sdp. rewrite Hstat, Ht16, Ht15, Ht. done.
Qed.

End Outcomes.




(** ** The reference value of gradient descent on quadratics *)

Section QuadraticsDivision.

Lemma Qeq_bool_nonzero q : ~ q == 0 -> Qeq_bool q 0 = false.
Proof.
  intros H. apply not_true_is_false. intros He. by apply Qeq_bool_eq in He.
Qed.

Lemma gdq_theoretical_tau_raises mu L gamma n s :
  L == 0 \/ gamma == 0 ->
  gdq_theoretical_tau mu L gamma n s = (s, Raise ZeroDivisionError).
Proof.
  intros H. unfold gdq_theoretical_tau, bind.
  rewrite py_div_zero; [done|]. apply Qeq_eq_bool.
  destruct H as [H|H]; rewrite H; ring.
Qed.

Lemma gdq_theoretical_tau_returns mu L gamma n :
  (0 <= n)%Z -> ~ L == 0 -> ~ gamma == 0 ->
  exists r, pure_result (gdq_theoretical_tau mu L gamma n) (Ok r).
Proof.
  intros Hn HL Hg.
  assert (Qeq_bool (L * gamma * inject_Z (2 * n + 1)) 0 = false) as Hd.
  { apply Qeq_bool_nonzero. intros H.
    apply Qmult_integral in H as [H|H].
    - apply Qmult_integral in H as [H|H]; auto.
    - unfold Qeq, inject_Z in H. simpl in H. lia. }
  assert ((2 * n <? 0)%Z = false) as Hpow by lia.
  pose proof (Qeq_bool_nonzero L HL) as HL'.
  destruct (Qlt_bool (1 / (L * gamma * inject_Z (2 * n + 1))) (mu / L)) eqn:E1;
    [|destruct (Qlt_bool 1 (1 / (L * gamma * inject_Z (2 * n + 1)))) eqn:E2];
    eexists; intros s;
    unfold gdq_theoretical_tau, bind, py_div, py_pow, ret;
    rewrite Hd, HL', Hpow; simpl; rewrite ?E1, ?E2; simpl;
    rewrite ?HL'; reflexivity.
Qed.

End QuadraticsDivision.



(** X4. [wc_heavyball] called with L = 0 registers its initial condition
    and then raises the division-by-zero error of [1/L*alpha*g_old], for
    every n: no performance metric is registered and the solver is not
    called. *)
Theorem wc_heavyball_zero_smoothness
  (solver : option string -> SDP -> SolverOutput) (mu L alpha beta : Q) (n : Z) :
  mu <= L -> L == 0 ->
  snd (wc_heavyball solver mu L alpha beta n PEP_init) = Raise ZeroDivisionError /\
  exists c, trace (fst (wc_heavyball solver mu L alpha beta n PEP_init))
            = [EvInitialCondition c].
Proof.
  intros _ HL. pose proof (wc_heavyball_run solver mu L alpha beta n) as H.
  unfold wp in H. rewrite (Qeq_eq_bool _ _ HL) in H. exact H.
Qed.

Lemma wc_heavyball_zero_smoothness_witness :
  0 <= 0 /\ 0 == 0 /\
  snd (wc_heavyball (stub_solver 1) 0 0 1 (1 # 2) 3 PEP_init)
  = Raise ZeroDivisionError.
Proof.
  split; [by vm_compute|]. split; [reflexivity|].
  apply (wc_heavyball_zero_smoothness (stub_solver 1) 0 0 1 (1 # 2) 3);
    [by vm_compute|reflexivity].
Defined.



(** X6. [wc_accelerated_proximal_gradient] called with n <= 0 never binds
    [hx_new]: after it has registered its initial condition and evaluated
    [f.value(x_new)], building the performance metric raises the
    unbound-variable error; no metric is registered and the solver is not
    called. *)
Theorem wc_accelerated_proximal_gradient_unbound_hx_new
  (solver : option string -> SDP -> SolverOutput) (mu L : Q) (n : Z) (verbose : bool) :
  mu <= L -> (n <= 0)%Z ->
  snd (wc_accelerated_proximal_gradient solver mu L n verbose PEP_init)
  = Raise (NameError "hx_new") /\
  exists c, trace (fst (wc_accelerated_proximal_gradient solver mu L n verbose PEP_init))
            = [EvInitialCondition c].
Proof.
  intros _ Hn.
  pose proof (wc_accelerated_proximal_gradient_run solver mu L n verbose) as H.
  unfold wp in H. replace (n <=? 0)%Z with true in H by lia. exact H.
Qed.

Lemma wc_accelerated_proximal_gradient_unbound_hx_new_witness :
  0 <= 1 /\ (0 <= 0)%Z /\
  snd (wc_accelerated_proximal_gradient (stub_solver 1) 0 1 0 true PEP_init)
  = Raise (NameError "hx_new").
Proof.
  split; [by vm_compute|]. split; [lia|].
  apply (wc_accelerated_proximal_gradient_unbound_hx_new (stub_solver 1) 0 1 0 true);
    [by vm_compute|lia].
Defined.

(** X7. [wc_accelerated_proximal_gradient] called with n >= 1 and L = 0
    raises the division-by-zero error of [1 / L] in its first iteration,
    after the initial condition is registered and before any metric or
    solve. *)
Theorem wc_accelerated_proximal_gradient_zero_smoothness
  (solver : option string -> SDP -> SolverOutput) (mu L : Q) (n : Z) (verbose : bool) :
  mu <= L -> (1 <= n)%Z -> L == 0 ->
  snd (wc_accelerated_proximal_gradient solver mu L n verbose PEP_init)
  = Raise ZeroDivisionError /\
  exists c, trace (fst (wc_accelerated_proximal_gradient solver mu L n verbose PEP_init))
            = [EvInitialCondition c].
Proof.
  intros _ Hn HL.
  pose proof (wc_accelerated_proximal_gradient_run solver mu L n verbose) as H.
  unfold wp in H. replace (n <=? 0)%Z with false in H by lia.
  rewrite (Qeq_eq_bool _ _ HL) in H. exact H.
Qed.

Lemma wc_accelerated_proximal_gradient_zero_smoothness_witness :
  0 <= 0 /\ (1 <= 4)%Z /\ 0 == 0 /\
  snd (wc_accelerated_proximal_gradient (stub_solver 1) 0 0 4 true PEP_init)
  = Raise ZeroDivisionError.
Proof.
  split; [by vm_compute|]. split; [lia|]. split; [reflexivity|].
  apply (wc_accelerated_proximal_gradient_zero_smoothness (stub_solver 1) 0 0 4 true);
    [by vm_compute|lia|reflexivity].
Defined.



(** ** Accelerated Douglas-Rachford splitting: the scheme's parameter *)

(** One step through the body of the loop of [wc_adrs]: list reads and
    writes within bounds, divisions by non-zero integers, engine steps. *)
Ltac adrs_body :=
  first
    [ progress cbv beta in *
    | match goal with
      | |- engine _ (match ?x with _ => _ end) _ => destruct x
      end
    | eapply engine_bind; [ apply engine_list_get; lia | intros ? _ ]
    | eapply engine_bind; [ apply engine_list_set; lia | intros ? ? ]
    | eapply engine_bind;
      [ apply engine_py_div, Qeq_bool_inject_Z; lia | intros ? _ ]
    | eapply engine_bind; [ solve [eauto with engine] | intros ? _ ]
    | apply engine_list_set; lia ].

Section DouglasRachfordTheta.
Variable solver : option string -> SDP -> SolverOutput.

(** [theta] is computed before the initial condition is registered. *)
Lemma wc_adrs_theta_run mu L alpha n verbose :
  alpha * L == -1 ->
  wp (wc_adrs solver mu L alpha n verbose) PEP_init
     (raised_before_any_call ZeroDivisionError).
Proof.
  intros Ha. unfold wc_adrs.
  apply wp_bind_ok. eapply ok_weaken; [apply wc_adrs_declarations_run|].
  intros a s0 [(xs & fs & ->) Hr0]. cbv beta iota.
  do 4 wp_eng.
  eapply wp_bind_raise.
  - apply py_div_zero. apply Qeq_eq_bool. rewrite Ha. reflexivity.
  - split; [done|]. by eapply ready_trace.
Qed.

Lemma Qinv_nonzero q : ~ q == 0 -> ~ / q == 0.
Proof.
  intros Hq H. apply Hq. rewrite <- (Qinv_involutive q), H. reflexivity.
Qed.

Lemma adrs_denominator alpha L n :
  (1 <= n)%Z -> ~ alpha == 0 -> ~ alpha * L == 1 -> ~ alpha * L == -1 ->
  Qeq_bool (alpha * ((1 - alpha * L) / (1 + alpha * L)) * inject_Z ((n + 3) ^ 2)) 0
  = false.
Proof.
  intros Hn Ha H1 Hm1. apply Qeq_bool_nonzero. intros H.
  apply Qmult_integral in H as [H|H].
  - apply Qmult_integral in H as [H|H]; [done|].
    unfold Qdiv in H. apply Qmult_integral in H as [H|H].
    + apply H1. lra.
    + revert H. apply Qinv_nonzero. intros H. apply Hm1. lra.
  - unfold Qeq, inject_Z in H. simpl in H. nia.
Qed.

(** Every run of [wc_adrs] with at least one iteration and non-zero
    denominators. *)
Lemma wc_adrs_returns_run mu L alpha n verbose :
  (1 <= n)%Z -> ~ alpha == 0 -> ~ alpha * L == 1 -> ~ alpha * L == -1 ->
  wp (wc_adrs solver mu L alpha n verbose) PEP_init
     (solved_with solver None
        (fun tau =>
           Ok (tau, 2 / (alpha * ((1 - alpha * L) / (1 + alpha * L))
                         * inject_Z ((n + 3) ^ 2))))).
Proof.
  intros Hn Ha H1 Hm1. unfold wc_adrs.
  apply wp_bind_ok. eapply ok_weaken; [apply wc_adrs_declarations_run|].
  intros a s0 [(xs & fs & ->) Hr0]. cbv beta iota.
  do 4 wp_eng.
  assert (Qeq_bool (1 + alpha * L) 0 = false) as Hden.
  { apply Qeq_bool_nonzero. intros Hz. apply Hm1. lra. }
  eapply wp_engine; cycle 1; [eassumption| |by apply engine_py_div].
  intros theta s5 -> Hst5 Hr5.
  do 3 wp_eng.
  eapply wp_set_initial_condition; [eassumption|]. intros s9 Hr9 _.
  eapply (wp_engine _ _ (adrs_bound n)); cycle 1.
  { eassumption. }
  2:{ apply (engine_for_loop_first _ _ _ _ (adrs_lists n)).
      - apply range_pos. lia.
      - intros i [[[[x w] u] y] fy] Hi (Hx & Hw & Hu).
        apply elem_of_range in Hi.
        eapply engine_weaken with (P := adrs_bound n); [|auto].
        repeat adrs_body.
        eapply engine_bind with (P1 := fun l' => length l' = length u).
        { destruct (1 <=? i)%Z; repeat adrs_body. }
        intros u0 Hu0. apply engine_ret.
        unfold adrs_bound, adrs_lists; simpl. repeat split; eauto; lia.
      - intros acc [Hacc _]. exact Hacc.
      - unfold adrs_lists. rewrite !length_map, !length_range.
        repeat split; lia. }
  intros [[[[x w] u] [y|]] [fy|]] s10 (_ & Hy & Hfy) Hst10 Hr10;
    try (by destruct Hy); try (by destruct Hfy).
  do 3 wp_eng.
  eapply wp_set_performance_metric; [eassumption|]. intros s14 Hr14 _.
  eapply wp_solve; [eassumption|]. intros s15 sdp Ht Hobj.
  destruct (status (solver None sdp)) eqn:Hstat;
    try (eexists _, _, sdp; rewrite Hstat, Ht; done).
  eapply wp_plain; [by apply plain_py_div, adrs_denominator|].
  intros theta s16 -> Ht16.
  eapply (wp_plain _ _ (fun _ => True)).
  { destruct verbose; [|by apply plain_ret].
    repeat (eapply plain_bind; [apply plain_print|intros _ _]).
    apply plain_print. }
  intros _ s17 _ Ht17. apply wp_ret.
  eexists _, _, sdp. rewrite Hstat, Ht17, Ht16, Ht. done.
Qed.

End DouglasRachfordTheta.

(** X9. [wc_adrs] called with alpha * L = -1 raises the division-by-zero
    error of [theta = (1 - alpha * L) / (1 + alpha * L)] before any
    lifecycle call, for every n: neither the initial condition nor a
    metric is registered and the solver is not called. *)
Theorem wc_adrs_theta_division_by_zero
  (solver : option string -> SDP -> SolverOutput)
  (mu L alpha : Q) (n : Z) (verbose : bool) :
  mu <= L -> alpha * L == -1 ->
  snd (wc_adrs solver mu L alpha n verbose PEP_init) = Raise ZeroDivisionError /\
  trace (fst (wc_adrs solver mu L alpha n verbose PEP_init)) = [].
Proof.
  intros _ Ha. exact (wc_adrs_theta_run solver mu L alpha n verbose Ha).
Qed.

Lemma wc_adrs_theta_division_by_zero_witness :
  1 # 10 <= 1 /\ -1 * 1 == -1 /\
  snd (wc_adrs (stub_solver 1) (1 # 10) 1 (-1) 2 true PEP_init)
  = Raise ZeroDivisionError.
Proof.
  split; [by vm_compute|]. split; [reflexivity|].
  apply (wc_adrs_theta_division_by_zero (stub_solver 1) (1 # 10) 1 (-1) 2 true);
    [by vm_compute|reflexivity].
Defined.



(** ** NoLips: Functions built by algebra, and the Bregman step *)

Lemma has_dec_steady f d s s' : steady s s' -> has_dec f d s -> has_dec f d s'.
Proof.
  intros Hst (fn & Hf & Hd).
  destruct (steady_functions _ _ Hst f fn Hf) as (fn' & Hf' & _ & Hd').
  exists fn'. split; [done|congruence].
Qed.

(** Carry the known decompositions along the steady steps. *)
Ltac dec_steady :=
  repeat match goal with
         | Hst : steady ?s ?s', H : has_dec ?f ?d ?s |- _ =>
             lazymatch goal with
             | _ : has_dec f d s' |- _ => fail
             | _ => pose proof (has_dec_steady f d s s' Hst H)
             end
         end.

Section NoLips.
Variable solver : option string -> SDP -> SolverOutput.

Lemma leaf_has_dec f s : leaf f s -> has_dec f [(f, 1)] s.
Proof. intros (fn & cls & Hf & _ & Hd). by exists fn. Qed.

Lemma has_dec_functions f d s s' :
  functions s' = functions s -> has_dec f d s -> has_dec f d s'.
Proof. intros Heq (fn & Hf & Hd). exists fn. by rewrite Heq. Qed.

Lemma ready_weaken T C Ms R R' s :
  (forall f, f ∈ R' -> f ∈ R) -> ready T C Ms R s -> ready T C Ms R' s.
Proof. intros Hsub (? & ? & ? & ? & HR). repeat split; auto. Qed.

Lemma ready_cons_dec T C Ms R f d s :
  has_dec f d s -> weights_ok d -> ready T C Ms R s -> ready T C Ms (f :: R) s.
Proof.
  intros (fn & Hf & Hd) Hw (? & ? & ? & ? & HR). repeat split; auto.
  intros g Hg. apply elem_of_cons in Hg as [->|Hg]; [|auto].
  exists fn. split; [done|]. right. by rewrite Hd.
Qed.

Lemma wp_bind_assoc {A B C} (m : M A) (f : A -> M B) (k : B -> M C) s Q :
  wp (bind m (fun a => bind (f a) k)) s Q -> wp (bind (bind m f) k) s Q.
Proof. unfold wp, bind. by destruct (m s) as [s1 [a|e]]. Qed.

Lemma wp_py_div {B} a b (k : Q -> M B) s Q :
  Qeq_bool b 0 = false -> wp (k (a / b)) s Q -> wp (bind (py_div a b) k) s Q.
Proof. intros Hb H. unfold wp, bind, py_div in *. by rewrite Hb. Qed.

(** [f + g] and [a * f] with the decomposition of the new Function. *)
Lemma wp_Function_add_dec {B} f g df dg (k : nat -> M B) T C Ms R s Q :
  ready T C Ms R s -> has_dec f df s -> has_dec g dg s ->
  (forall s1, steady s s1 ->
              length (functions s1) = S (length (functions s)) ->
              has_dec (length (functions s)) (merge_dict Nat.eqb df dg) s1 ->
              ready T C Ms R s1 ->
              wp (k (length (functions s))) s1 Q) ->
  wp (bind (Function_add f g) k) s Q.
Proof.
  intros Hr (ff & Hf & <-) (gg & Hg & <-) Hk.
  apply wp_bind_ok. unfold Function_add, bind, get_function, new_function, ok.
  rewrite Hf, Hg. simpl. eexists _, _. split; [reflexivity|].
  match goal with |- wp _ ?s1 _ => assert (steady s s1) as Hst end.
  { split; try done. apply preserved_app. }
  apply Hk; [done| | |by eapply ready_steady].
  - simpl. rewrite length_app. simpl. lia.
  - eexists. split; [apply lookup_snoc_here|done].
Qed.

Lemma wp_Function_rmul_dec {B} a f df (k : nat -> M B) T C Ms R s Q :
  ready T C Ms R s -> has_dec f df s ->
  (forall s1, steady s s1 ->
              length (functions s1) = S (length (functions s)) ->
              has_dec (length (functions s)) (scale_dict a df) s1 ->
              ready T C Ms R s1 ->
              wp (k (length (functions s))) s1 Q) ->
  wp (bind (Function_rmul a f) k) s Q.
Proof.
  intros Hr (ff & Hf & <-) Hk.
  apply wp_bind_ok. unfold Function_rmul, bind, get_function, new_function, ok.
  rewrite Hf. simpl. eexists _, _. split; [reflexivity|].
  match goal with |- wp _ ?s1 _ => assert (steady s s1) as Hst end.
  { split; try done. apply preserved_app. }
  apply Hk; [done| | |by eapply ready_steady].
  - simpl. rewrite length_app. simpl. lia.
  - eexists. split; [apply lookup_snoc_here|done].
Qed.

Lemma engine_bregman_gradient_step R gx0 sx0 f step :
  f ∈ R -> engine R (bregman_gradient_step gx0 sx0 f step) (fun _ => True).
Proof.
  intros Hin. unfold bregman_gradient_step.
  pose proof (engine_add_point R f). pose proof (engine_Point_rmul R).
  pose proof (engine_Point_sub R). engine_tac.
Qed.

(** One iteration: a new Function [func2 + h], a Bregman step on it, two
    oracle calls, and one more performance metric. *)
Lemma no_lips2_body_ok func1 func2 h gamma d2 dh i acc T C Ms s :
  weights_ok (merge_dict Nat.eqb d2 dh) ->
  ready T C Ms [] s -> has_dec func2 d2 s -> has_dec h dh s ->
  ok (no_lips2_body func1 func2 h gamma i acc) s
     (fun _ s' =>
        exists e, ready (T ++ [EvPerformanceMetric e]) C (Ms ++ [e]) [] s' /\
                  has_dec func2 d2 s' /\ has_dec h dh s').
Proof.
  intros Hw Hr H2 Hh. destruct acc as [[[[[x1 x2] gfx] ghx] hx1] hx2].
  apply ok_of_wp. unfold no_lips2_body.
  eapply wp_Function_add_dec; [eassumption|exact H2|exact Hh|].
  intros s1 Hst1 _ Hm Hr1.
  assert (ready T C Ms [length (functions s)] s1) as Hr1'
    by (eapply ready_cons_dec; eauto).
  eapply wp_engine; cycle 1;
    [exact Hr1'| |apply engine_bregman_gradient_step; in_list].
  intros [[x2' sx] hx] s2 _ Hst2 Hr2.
  eapply wp_engine; cycle 1; [exact Hr2| |apply engine_oracle].
  intros [gfx' fx'] s3 _ Hst3 Hr3.
  eapply wp_engine; cycle 1; [exact Hr3| |apply engine_oracle].
  intros [ghx' hx2'] s4 _ Hst4 Hr4.
  eapply wp_engine; cycle 1; [exact Hr4| |apply engine_Point_sub].
  intros dx s5 _ Hst5 Hr5.
  eapply wp_set_performance_metric; [exact Hr5|]. intros s6 Hr6 Hfun.
  apply wp_ret. eexists. split; [reflexivity|].
  dec_steady.
  eexists. split; [|split; eapply has_dec_functions; eauto].
  eapply ready_weaken; [|exact Hr6]. intros f Hf. by apply elem_of_nil in Hf.
Qed.

Lemma no_lips2_loop_ok func1 func2 h gamma d2 dh rng :
  weights_ok (merge_dict Nat.eqb d2 dh) ->
  forall acc T C Ms s,
    ready T C Ms [] s -> has_dec func2 d2 s -> has_dec h dh s ->
    ok (for_loop (no_lips2_body func1 func2 h gamma) rng acc) s
       (fun _ s' =>
          exists es, length es = length rng /\
                     ready (T ++ map EvPerformanceMetric es) C (Ms ++ es) [] s').
Proof.
  intros Hw. induction rng as [|i rng IH]; intros acc T C Ms s Hr H2 Hh.
  - apply ok_ret. exists []. simpl. by rewrite !app_nil_r.
  - simpl. apply ok_bind.
    eapply ok_weaken; [by apply (no_lips2_body_ok func1 func2 h gamma d2 dh)|].
    intros a s1 (e & Hr1 & H21 & Hh1). simpl.
    eapply ok_weaken; [by apply IH|].
    intros a' s2 (es & Hlen & Hr2). exists (e :: es). simpl.
    rewrite <- !app_assoc in Hr2. simpl in Hr2.
    split; [lia|exact Hr2].
Qed.

End NoLips.

Section NoLipsRun.
Variable solver : option string -> SDP -> SolverOutput.

Lemma nolips_weights L :
  Qeq_bool L 0 = false ->
  weights_ok
    (merge_dict Nat.eqb [(8%nat, 1)]
       (scale_dict (1 / 2)
          (scale_dict (1 / L) (merge_dict Nat.eqb [(0%nat, 1)] [(1%nat, 1)])))).
Proof.
  intros HL. unfold weights_ok. simpl.
  apply Qeq_bool_nonzero. intros H.
  assert (~ L == 0) as HL'.
  { intros Hz. apply Qeq_eq_bool in Hz. congruence. }
  apply (Qinv_nonzero L HL').
  assert (1 * (1 / L) * (1 / 2) == / L * (1 # 2)) as Heq by (field; exact HL').
  rewrite Heq in H. apply Qmult_integral in H as [H|H]; [exact H|].
  by vm_compute in H.
Qed.

(** Every run of [wc_no_lips2]. *)
Lemma wc_no_lips2_run L gamma n verbose :
  wp (wc_no_lips2 solver L gamma n verbose) PEP_init
     (fun s' r =>
        if Qeq_bool L 0 then raised_before_any_call ZeroDivisionError s' r
        else
          exists es c sdp,
            length es = Z.to_nat n /\
            trace s' = map EvPerformanceMetric es
                       ++ [EvInitialCondition c; EvSolve sdp] /\
            sdp_objectives sdp = es /\
            r = match status (solver None sdp) with
                | optimal =>
                    if Qeq_bool (inject_Z n) 0 then Raise ZeroDivisionError
                    else Ok (objective (solver None sdp), gamma / inject_Z n)
                | st => Raise (SolveFailure st)
                end).
Proof.
  unfold wc_no_lips2, Function_sub, Function_neg, Function_div.
  eapply wp_declare_function; [apply ready_init|].
  intros s1 Hst1 Hleaf1 Hlen1 Hr1. simpl in Hleaf1, Hlen1, Hr1 |- *.
  eapply wp_declare_function; [eassumption|].
  intros s2 Hst2 Hleaf2 Hlen2 Hr2. rewrite Hlen1 in Hleaf2, Hlen2, Hr2 |- *.
  pose proof (leaf_has_dec _ _ Hleaf1) as D0.
  pose proof (leaf_has_dec _ _ Hleaf2) as D1.
  dec_steady.
  apply wp_bind_assoc.
  eapply wp_Function_rmul_dec; [eassumption|eassumption|].
  intros s3 Hst3 Hlen3 D2 Hr3. rewrite Hlen2 in Hlen3, D2 |- *.
  dec_steady.
  eapply wp_Function_add_dec; [eassumption|eassumption|eassumption|].
  intros s4 Hst4 Hlen4 D3 Hr4. rewrite Hlen3 in Hlen4, D3 |- *.
  dec_steady.
  apply wp_bind_assoc. apply wp_py_div; [reflexivity|].
  eapply wp_Function_rmul_dec; [eassumption|eassumption|].
  intros s5 Hst5 Hlen5 D4 Hr5. rewrite Hlen4 in Hlen5, D4 |- *.
  dec_steady.
  eapply wp_Function_add_dec; [eassumption|eassumption|eassumption|].
  intros s6 Hst6 Hlen6 D5 Hr6. rewrite Hlen5 in Hlen6, D5 |- *.
  dec_steady.
  apply wp_bind_assoc.
  destruct (Qeq_bool L 0) eqn:HL.
  { eapply wp_bind_raise; [by apply py_div_zero|].
    split; [done|]. by eapply ready_trace. }
  apply wp_py_div; [exact HL|].
  eapply wp_Function_rmul_dec; [eassumption|eassumption|].
  intros s7 Hst7 Hlen7 D6 Hr7. rewrite Hlen6 in Hlen7, D6 |- *.
  dec_steady.
  apply wp_bind_assoc. apply wp_py_div; [reflexivity|].
  eapply wp_Function_rmul_dec; [eassumption|eassumption|].
  intros s8 Hst8 Hlen8 D7 Hr8. rewrite Hlen7 in Hlen8, D7 |- *.
  dec_steady.
  eapply wp_declare_function; [eassumption|].
  intros s9 Hst9 Hleaf9 Hlen9 Hr9. rewrite Hlen8 in Hleaf9, Hlen9, Hr9 |- *.
  pose proof (leaf_has_dec _ _ Hleaf9) as D8.
  dec_steady.
  eapply wp_Function_add_dec; [eassumption|eassumption|eassumption|].
  intros s10 Hst10 Hlen10 D9 Hr10. rewrite Hlen9 in Hlen10, D9 |- *.
  dec_steady.
  do 4 wp_eng.
  dec_steady.
  apply wp_bind_ok.
  eapply ok_weaken.
  { eapply (no_lips2_loop_ok 4 8 7 gamma _ _ (range n) (nolips_weights L HL)).
    - eapply ready_weaken; [|eassumption].
      intros f Hf. by apply elem_of_nil in Hf.
    - eassumption.
    - eassumption. }
  intros [[[[[x1 x2] gfx] ghx] hx1] hx2] s15 (es & Hlen & Hr15). cbv beta iota.
  rewrite length_range in Hlen.
  wp_eng.
  eapply wp_set_initial_condition; [eassumption|]. intros s17 Hr17 _.
  eapply wp_solve; [eassumption|]. intros s18 sdp Ht Hobj.
  simpl in Ht, Hobj.
  destruct (status (solver None sdp)) eqn:Hstat;
    try (exists es; eexists _, sdp; rewrite Hstat, Ht, <- app_assoc; done).
  destruct (Qeq_bool (inject_Z n) 0) eqn:Hn.
  { eapply wp_bind_raise; [by apply py_div_zero|].
    exists es. eexists _, sdp. rewrite Hstat, Ht, <- app_assoc. done. }
  eapply wp_plain; [by apply plain_py_div|].
  intros theta s19 -> Ht19.
  eapply (wp_plain _ _ (fun _ => True)).
  { destruct verbose; [|by apply plain_ret].
    repeat (eapply plain_bind; [apply plain_print|intros _ _]).
    apply plain_print. }
  intros _ s20 _ Ht20. apply wp_ret.
  exists es. eexists _, sdp. rewrite Hstat, Ht20, Ht19, Ht, <- app_assoc. done.
Qed.

End NoLipsRun.

(** X11. [wc_no_lips2] called with L = 0 raises the division-by-zero error
    of [h = (d1 + d2) / L / 2] while it builds its Functions, before any
    lifecycle call, for every n and gamma: no metric and no initial
    condition are registered and the solver is not called. *)
Theorem wc_no_lips2_zero_smoothness
  (solver : option string -> SDP -> SolverOutput)
  (L gamma : Q) (n : Z) (verbose : bool) :
  L == 0 ->
  snd (wc_no_lips2 solver L gamma n verbose PEP_init) = Raise ZeroDivisionError /\
  trace (fst (wc_no_lips2 solver L gamma n verbose PEP_init)) = [].
Proof.
  intros HL. pose proof (wc_no_lips2_run solver L gamma n verbose) as H.
  unfold wp in H. rewrite (Qeq_eq_bool _ _ HL) in H. exact H.
Qed.

Lemma wc_no_lips2_zero_smoothness_witness :
  0 == 0 /\
  snd (wc_no_lips2 (stub_solver 1) 0 1 3 true PEP_init) = Raise ZeroDivisionError.
Proof.
  split; [reflexivity|].
  apply (wc_no_lips2_zero_smoothness (stub_solver 1) 0 1 3 true). reflexivity.
Defined.

(** X12. [wc_no_lips2] called with n = 0 (and L <> 0) never returns a
    value: it registers no performance metric, registers its initial
    condition, hands the solver a problem without objective, and, when the
    solver reports an optimal value, raises the division-by-zero error of
    [gamma / n]. *)
Theorem wc_no_lips2_no_iteration
  (solver : option string -> SDP -> SolverOutput)
  (L gamma : Q) (verbose : bool) :
  ~ L == 0 ->
  exists c sdp,
    trace (fst (wc_no_lips2 solver L gamma 0 verbose PEP_init))
    = [EvInitialCondition c; EvSolve sdp] /\
    sdp_objectives sdp = [] /\
    snd (wc_no_lips2 solver L gamma 0 verbose PEP_init)
    = match status (solver None sdp) with
      | optimal => Raise ZeroDivisionError
      | st => Raise (SolveFailure st)
      end.
Proof.
  intros HL. pose proof (wc_no_lips2_run solver L gamma 0 verbose) as H.
  unfold wp in H. rewrite (Qeq_bool_nonzero _ HL) in H.
  destruct H as (es & c & sdp & Hlen & Ht & Hobj & Hr).
  destruct es as [|e es]; [|discriminate Hlen].
  exists c, sdp. split; [exact Ht|]. split; [exact Hobj|]. exact Hr.
Qed.

Lemma wc_no_lips2_no_iteration_witness :
  ~ 1 == 0 /\
  snd (wc_no_lips2 (stub_solver 1) 1 1 0 true PEP_init) = Raise ZeroDivisionError.
Proof.
  split; [by vm_compute|].
  destruct (wc_no_lips2_no_iteration (stub_solver 1) 1 1 true)
    as (c & sdp & _ & _ & H); [by vm_compute|].
  exact H.
Defined.



(** ** Gradient descent: the size of the problem *)

Section PairCount.

Lemma length_inner_pairs {A B} (g : nat * A -> B) (i : nat) (l : list A) (a : nat) :
  length (flat_map (fun jt => if (i =? fst jt)%nat then [] else [g jt])
            (combine (seq a (length l)) l))
  = (length l - (if (a <=? i)%nat && (i <? a + length l)%nat then 1 else 0))%nat.
Proof.
  revert a. induction l as [|x l IH]; intros a.
  - simpl. by destruct (_ && _).
  - simpl combine. simpl flat_map. rewrite length_app, IH. simpl fst.
    destruct (Nat.eqb_spec i a) as [->|Hne]; simpl length;
      repeat match goal with
             | |- context [(?x <=? ?y)%nat] => destruct (Nat.leb_spec x y)
             | |- context [(?x <? ?y)%nat] => destruct (Nat.ltb_spec x y)
             end; simpl; lia.
Qed.

(** Every ordered pair of distinct recorded triples, once. *)
Lemma length_pairwise (l : list Triple) :
  length (pairwise l) = (length l * (length l - 1))%nat.
Proof.
  unfold pairwise.
  rewrite (flat_map_constant_length (c := (length l - 1)%nat)).
  - unfold enumerate. rewrite length_combine, length_seq. f_equal. lia.
  - intros [i t] Hin. unfold enumerate in *. simpl fst. simpl snd.
    rewrite (length_inner_pairs (fun jt => (t, snd jt)) i l 0).
    apply in_combine_l, in_seq in Hin.
    destruct (Nat.leb_spec 0 i); [|lia].
    destruct (Nat.ltb_spec i (0 + length l)); [|lia]. reflexivity.
Qed.

End PairCount.

Section GradientDescentSize.
Variable solver : option string -> SDP -> SolverOutput.

Lemma find_triple_fresh p (l : list Triple) :
  (forall t, t ∈ l -> (pkey (fst (fst t)) < pkey p)%nat) ->
  find_triple p l = None.
Proof.
  induction l as [|[[x g] v] l IH]; intros H; [done|]. simpl.
  pose proof (H (x, g, v) (list_elem_of_here _ _)) as Hx. simpl in Hx.
  destruct (Nat.eqb_spec (pkey x) (pkey p)); [lia|].
  apply IH. intros t Ht. apply H. by apply list_elem_of_further.
Qed.

(** [oracle] on a declared Function at a Point that is not in its cache:
    one more Point, basis generator, scalar unknown and triple. *)
Lemma oracle_miss s f p fn cls :
  frozen s = false -> functions s !! f = Some fn -> fclass fn = Some cls ->
  find_triple p (fpoints fn) = None ->
  oracle f p s
  = (mkPEP (S (counter_points s)) (S (counter_gens s)) (S (counter_scalars s))
       (<[f := mkFunction (Some cls) (fdec fn)
                 (fpoints fn ++ [(p, mkPoint (counter_points s) [(counter_gens s, 1)],
                                  mkExpr [(counter_scalars s, 1)] [] 0)])]>
          (functions s))
       (declared s) (list_of_conditions s) (list_of_performance_metrics s)
       false (trace s) (stdout s),
     Ok (mkPoint (counter_points s) [(counter_gens s, 1)],
         mkExpr [(counter_scalars s, 1)] [] 0)).
Proof.
  intros Hfr Hf Hcls Hc.
  unfold oracle, bind at 1 2, check_not_frozen, get_function.
  rewrite Hfr, Hf. simpl. rewrite Hc, Hcls.
  unfold oracle_leaf, bind, check_not_frozen, get_function.
  rewrite Hfr, Hf. simpl. rewrite Hc. simpl.
  unfold ret, set_functions, set_counters. simpl.
  rewrite ?Hfr, ?Hf. simpl. rewrite ?Hcls. reflexivity.
Qed.

(** One gradient step keeps the registries in shape. *)
Lemma gd_body_ok L gamma i k x s :
  gd_state L k x s ->
  exists x' s', gd_body 0 gamma i x s = (s', Ok x') /\ gd_state L (S k) x' s'.
Proof.
  intros (Hfr & Hg & Hs & Hd & Hc & Hm & Ht & Hx & fn & Hfn & Hcls & Hlen & Hold).
  assert (functions s !! 0%nat = Some fn) as Hf by (by rewrite Hfn).
  pose proof (oracle_miss s 0 x fn _ Hfr Hf Hcls (find_triple_fresh x _ Hold)) as Ho.
  unfold gd_body, gradient, bind. rewrite Ho. simpl.
  eexists _, _. split; [reflexivity|].
  unfold gd_state. simpl. rewrite Hfn. simpl.
  split; [done|]. split; [lia|]. split; [lia|]. split; [done|].
  split; [done|]. split; [done|]. split; [done|]. split; [lia|].
  eexists. split; [reflexivity|]. split; [reflexivity|].
  split; [simpl; rewrite length_app; simpl; lia|].
  intros t Ht'. simpl in Ht'. apply elem_of_app in Ht' as [Ht'|Ht'].
  - specialize (Hold t Ht'). simpl. lia.
  - apply list_elem_of_singleton in Ht' as ->. simpl. lia.
Qed.

Lemma gd_loop_ok L gamma rng :
  forall k x s, gd_state L k x s ->
  exists x' s', for_loop (gd_body 0 gamma) rng x s = (s', Ok x') /\
                gd_state L (k + length rng) x' s'.
Proof.
  induction rng as [|i rng IH]; intros k x s H.
  - exists x, s. split; [reflexivity|]. simpl. by rewrite Nat.add_0_r.
  - destruct (gd_body_ok L gamma i k x s H) as (x1 & s1 & Hb & H1).
    destruct (IH (S k) x1 s1 H1) as (x' & s' & Hl & H').
    exists x', s'. split.
    + simpl. unfold bind. rewrite Hb. exact Hl.
    + simpl. by replace (k + S (length rng))%nat with (S k + length rng)%nat by lia.
Qed.

Lemma wp_step {A B} (m : M A) (k : A -> M B) s s1 a Q :
  m s = (s1, Ok a) -> wp (k a) s1 Q -> wp (bind m k) s Q.
Proof. intros Hm H. unfold wp, bind in *. by rewrite Hm. Qed.

Lemma wp_solve_exact {B} v h (k : Q -> M B) s Q0 :
  (forall s1, trace s1 = trace s ++ [EvSolve (assemble s)] ->
     match status (solver h (assemble s)) with
     | optimal => wp (k (objective (solver h (assemble s)))) s1 Q0
     | st => Q0 s1 (Raise (SolveFailure st))
     end) ->
  wp (bind (solve solver v h) k) s Q0.
Proof.
  intros H. unfold wp, bind, solve.
  match goal with |- context [mkPEP ?a ?b ?c ?d ?e ?f ?g true ?t ?o] =>
    specialize (H (mkPEP a b c d e f g true t o) eq_refl) end.
  by destruct (status (solver h (assemble s))).
Qed.

End GradientDescentSize.

(** Run a step of a script on a known state. *)
Ltac wp_compute :=
  lazymatch goal with
  | |- wp (bind ?m ?k) ?s ?Q =>
      let r := eval vm_compute in (m s) in
      lazymatch r with
      | (?s1, Ok ?a) =>
          apply (wp_step m k s s1 a Q);
            [vm_compute; reflexivity | cbv beta iota zeta]
      end
  end.

Section GradientDescentSizeRun.
Variable solver : option string -> SDP -> SolverOutput.

Lemma wc_gd_size_run L gamma n verbose :
  wp (wc_gd solver L gamma n verbose) PEP_init
     (fun s' r =>
        exists c e sdp,
          trace s' = [EvInitialCondition c; EvPerformanceMetric e; EvSolve sdp] /\
          sdp_dim sdp = (Z.to_nat n + 3)%nat /\
          sdp_scalars sdp = (Z.to_nat n + 2)%nat /\
          sdp_objectives sdp = [e] /\
          length (sdp_constraints sdp)
          = (1 + (Z.to_nat n + 2) * (Z.to_nat n + 1))%nat).
Proof.
  unfold wc_gd.
  do 6 wp_compute.
  apply wp_bind_ok.
  match goal with
  | |- ok (for_loop _ _ ?x0) ?s6 _ =>
      destruct (gd_loop_ok L gamma (range n) 0 x0 s6)
        as (x & s & Hrun & Hinv)
  end.
  { unfold gd_state. simpl.
    repeat (split; [first [done | lia | by eexists]|]).
    eexists. split; [reflexivity|]. split; [reflexivity|]. split; [done|].
    intros t Ht. apply list_elem_of_singleton in Ht as ->. simpl. lia. }
  exists x, s. split; [exact Hrun|].
  rewrite length_range in Hinv. simpl in Hinv.
  destruct Hinv
    as (Hfr & Hg & Hs & Hd & Hc & Hm & [c Ht] & Hx & fn & Hfn & Hcls & Hlen & Hold).
  assert (functions s !! 0%nat = Some fn) as Hf by (by rewrite Hfn).
  pose proof (oracle_miss s 0 x fn _ Hfr Hf Hcls (find_triple_fresh x _ Hold)) as Ho.
  eapply wp_step; [unfold value, bind; rewrite Ho; reflexivity|].
  eapply wp_step; [reflexivity|].
  apply wp_solve_exact. intros s10 Ht10.
  match type of Ht10 with
  | context [assemble ?s9'] => set (s9 := s9') in *
  end.
  assert (exists e, trace s9 = [EvInitialCondition c; EvPerformanceMetric e] /\
                    list_of_performance_metrics s9 = [e]) as (e & Ht9 & Hm9).
  { eexists. unfold s9. simpl. rewrite Ht, Hm. split; reflexivity. }
  assert (counter_gens s9 = (Z.to_nat n + 3)%nat /\
          counter_scalars s9 = (Z.to_nat n + 2)%nat /\
          length (list_of_conditions s9 ++ interpolation_constraints s9)
          = (1 + (Z.to_nat n + 2) * (Z.to_nat n + 1))%nat) as (Hdim & Hsc & Hcons).
  { unfold s9, interpolation_constraints. simpl.
    rewrite Hd, Hfn, Hg, Hs. simpl.
    split; [lia|]. split; [lia|].
    rewrite length_app, Hc, app_nil_r. unfold function_constraints. simpl.
    rewrite length_map, length_pairwise, length_app, Hlen. simpl. lia. }
  clearbody s9. rewrite Ht9 in Ht10. simpl in Ht10.
  assert (exists c e sdp,
            trace s10 = [EvInitialCondition c; EvPerformanceMetric e; EvSolve sdp] /\
            sdp_dim sdp = (Z.to_nat n + 3)%nat /\
            sdp_scalars sdp = (Z.to_nat n + 2)%nat /\
            sdp_objectives sdp = [e] /\
            length (sdp_constraints sdp)
            = (1 + (Z.to_nat n + 2) * (Z.to_nat n + 1))%nat) as Hpost.
  { exists c, e, (assemble s9). done. }
  destruct (status (solver None (assemble s9))) eqn:Hstat; try exact Hpost.
  eapply wp_plain; [apply plain_py_div, odd_double_nonzero|].
  intros theta s11 -> Ht11.
  eapply (wp_plain _ _ (fun _ => True)).
  { destruct verbose; [|by apply plain_ret].
    repeat (eapply plain_bind; [apply plain_print|intros _ _]).
    apply plain_print. }
  intros _ s12 _ Ht12. apply wp_ret.
  rewrite Ht12, Ht11. exact Hpost.
Qed.

End GradientDescentSizeRun.


(** ** Past extragradient: the sign of the returned value *)

Section PastExtragradientMetric.
Variable solver : option string -> SDP -> SolverOutput.

(** Every run of [wc_past_extragradient] with at least one iteration: the
    metric is the squared norm of a Point. *)
Lemma wc_past_extragradient_metric_run n gamma L verbose :
  (1 <= n)%Z ->
  wp (wc_past_extragradient solver n gamma L verbose) PEP_init
     (fun s' r =>
        exists d d0 sdp,
          trace s' = [EvInitialCondition (Expr_le_const (Point_sq d0) 1);
                      EvPerformanceMetric (Point_sq d);
                      EvSolve sdp] /\
          sdp_objectives sdp = [Point_sq d] /\
          r = match status (solver None sdp) with
              | optimal => Ok (objective (solver None sdp), None)
              | st => Raise (SolveFailure st)
              end).
Proof.
  intros Hn. unfold wc_past_extragradient.
  eapply wp_declare_function; [apply ready_init|].
  intros s1 Hst1 Hleaf1 Hlen1 Hr1. simpl in Hleaf1, Hlen1, Hr1 |- *.
  eapply wp_declare_function; [eassumption|].
  intros s2 Hst2 Hleaf2 Hlen2 Hr2. rewrite Hlen1 in Hleaf2, Hlen2, Hr2 |- *.
  eapply wp_Function_add; [eassumption|exact Hleaf2| |done|].
  { eapply leaf_preserved; [apply Hst2|exact Hleaf1]. }
  intros s3 Hst3 Hlen3 Hr3. rewrite Hlen2 in Hlen3, Hr3 |- *.
  do 3 wp_eng.
  eapply wp_set_initial_condition; [eassumption|]. intros s7 Hr7 _.
  eapply wp_engine; cycle 1;
    [eassumption| |apply engine_proximal_step; in_list].
  intros [[x gx] fx] s8 _ Hst8 Hr8.
  wp_eng.
  eapply (wp_engine _ _ (fun acc => is_Some (snd acc))); cycle 1.
  { eassumption. }
  2:{ apply engine_for_loop_nonempty; [apply range_pos; lia|].
      intros i [[[x' xt'] V'] prev'] _.
      eapply engine_weaken with (P := fun acc => is_Some (snd acc)).
      - repeat first
          [ progress cbv beta
          | eapply engine_bind; [ solve [eauto with engine] | intros ? _ ]
          | match goal with
            | |- engine _ (match ?x with _ => _ end) _ => destruct x
            end ].
        apply engine_ret. simpl. eauto.
      - auto. }
  intros [[[xn xtn] Vn] [prev|]] s10 Hsome Hst10 Hr10;
    [|by destruct Hsome].
  do 2 wp_eng.
  eapply wp_set_performance_metric; [eassumption|]. intros s13 Hr13 _.
  eapply wp_solve; [eassumption|]. intros s14 sdp Ht Hobj.
  destruct (status (solver None sdp)) eqn:Hstat;
    try (eexists _, _, sdp; rewrite Hstat, Ht; done).
  eapply (wp_plain _ _ (fun _ => True)).
  { destruct (verbose =? -1)%Z; [by apply plain_ret|].
    repeat (eapply plain_bind; [apply plain_print|intros _ _]).
    apply plain_print. }
  intros _ s15 _ Ht15. apply wp_ret.
  eexists _, _, sdp. rewrite Hstat, Ht15, Ht. done.
Qed.

End PastExtragradientMetric.



(** ** Alternate projections: the size of the problem *)

Section AlternateProjectionsSize.
Variable solver : option string -> SDP -> SolverOutput.

(** A proximal step on a declared Function: one more basis generator,
    scalar unknown and triple; nothing else changes. *)
Lemma proximal_step_leaf s x f fn cls step :
  frozen s = false -> functions s !! f = Some fn -> fclass fn = Some cls ->
  exists r s',
    proximal_step x f step s = (s', Ok r) /\
    frozen s' = false /\
    counter_gens s' = S (counter_gens s) /\
    counter_scalars s' = S (counter_scalars s) /\
    declared s' = declared s /\
    list_of_conditions s' = list_of_conditions s /\
    list_of_performance_metrics s' = list_of_performance_metrics s /\
    trace s' = trace s /\
    exists t, functions s'
              = <[f := mkFunction (Some cls) (fdec fn) (fpoints fn ++ [t])]>
                  (functions s).
Proof.
  intros Hfr Hf Hcls.
  unfold proximal_step, add_point, bind, check_not_frozen, get_function,
    Point_sub, Point_neg, Point_add, Point_rmul, Point_new, Point_leaf,
    Expr_leaf, record_triple, bind, ret.
  simpl. repeat (first [rewrite Hfr | rewrite Hf | rewrite Hcls]; simpl).
  eexists _, _. split; [reflexivity|]. simpl.
  repeat (split; [done|]). eexists. reflexivity.
Qed.

Lemma alt_body_ok i k x s :
  alt_state k s ->
  exists x' s', alt_body 0 1 i x s = (s', Ok x') /\ alt_state (S k) s'.
Proof.
  intros (Hfr & Hg & Hd & Hc & Hm & Ht & f1 & f2 & F & Hfn & Hc1 & Hc2 & Hl1 & Hl2).
  assert (functions s !! 0%nat = Some f1) as Hf1 by (by rewrite Hfn).
  destruct (proximal_step_leaf s x 0 f1 _ 1 Hfr Hf1 Hc1)
    as ([[y gy] fy] & s1 & Hp1 & Hfr1 & Hg1 & _ & Hd1 & Hcd1 & Hm1 & Ht1 & t1 & Hfn1).
  rewrite Hfn in Hfn1. simpl in Hfn1.
  assert (functions s1 !! 1%nat = Some f2) as Hf2 by (by rewrite Hfn1).
  destruct (proximal_step_leaf s1 y 1 f2 _ 1 Hfr1 Hf2 Hc2)
    as ([[x' gx'] fx'] & s2 & Hp2 & Hfr2 & Hg2 & _ & Hd2 & Hcd2 & Hm2 & Ht2 & t2 & Hfn2).
  rewrite Hfn1 in Hfn2. simpl in Hfn2.
  exists x', s2. split.
  - unfold alt_body, bind. rewrite Hp1, Hp2. reflexivity.
  - unfold alt_state. rewrite Hfr2, Hg2, Hg1, Hg, Hd2, Hd1, Hd, Hcd2, Hcd1, Hc,
      Hm2, Hm1, Hm, Ht2, Ht1, Ht, Hfn2.
    repeat (split; [first [done | lia]|]).
    eexists _, _, _. split; [reflexivity|]. simpl.
    rewrite !length_app. simpl. repeat split; first [done | lia].
Qed.

Lemma alt_loop_ok rng :
  forall k x s, alt_state k s ->
  exists x' s', for_loop (alt_body 0 1) rng x s = (s', Ok x') /\
                alt_state (k + length rng) s'.
Proof.
  induction rng as [|i rng IH]; intros k x s H.
  - exists x, s. split; [reflexivity|]. simpl. by rewrite Nat.add_0_r.
  - destruct (alt_body_ok i k x s H) as (x1 & s1 & Hb & H1).
    destruct (IH (S k) x1 s1 H1) as (x' & s' & Hl & H').
    exists x', s'. split.
    + simpl. unfold bind. rewrite Hb. exact Hl.
    + simpl. by replace (k + S (length rng))%nat with (S k + length rng)%nat by lia.
Qed.

(** An indicator function with m recorded points emits m * m constraints:
    one inequality per ordered pair of distinct points, one equality per
    point. *)
Lemma length_indicator_constraints D (l : list Triple) :
  length (class_constraints (ConvexIndicatorFunction D) l)
  = (length l * length l)%nat.
Proof.
  assert (forall m, m * (m - 1) + m = m * m)%nat as H by (intros [|m]; nia).
  simpl. rewrite length_app, !length_map, length_pairwise. apply H.
Qed.

Lemma wc_alternate_projections_size_run n verbose :
  wp (wc_alternate_projections solver n verbose) PEP_init
     (fun s' r =>
        exists c e sdp,
          trace s' = [EvPerformanceMetric e; EvInitialCondition c; EvSolve sdp] /\
          sdp_dim sdp = (2 * Z.to_nat n + 4)%nat /\
          sdp_objectives sdp = [e] /\
          length (sdp_constraints sdp)
          = (1 + (Z.to_nat n + 2) * (Z.to_nat n + 2)
               + (Z.to_nat n + 1) * (Z.to_nat n + 1))%nat).
Proof.
  unfold wc_alternate_projections.
  do 5 wp_compute.
  apply wp_bind_ok.
  match goal with
  | |- ok (for_loop _ _ ?x0) ?s5 _ =>
      destruct (alt_loop_ok (range n) 0 x0 s5) as (x & s & Hrun & Hinv)
  end.
  { unfold alt_state. simpl.
    repeat (split; [first [done | lia]|]).
    eexists _, _, _. split; [reflexivity|]. simpl. done. }
  exists x, s. split; [exact Hrun|].
  clear Hrun. rewrite length_range in Hinv. simpl in Hinv.
  destruct Hinv
    as (Hfr & Hg & Hd & Hc & Hm & Ht & f1 & f2 & F & Hfn & Hc1 & Hc2 & Hl1 & Hl2).
  assert (functions s !! 0%nat = Some f1) as Hf1 by (by rewrite Hfn).
  destruct (proximal_step_leaf s x 0 f1 _ 1 Hfr Hf1 Hc1)
    as ([[p gp] fp] & s1 & Hp1 & Hfr1 & Hg1 & _ & Hd1 & Hcd1 & Hm1 & Ht1 & t1 & Hfn1).
  rewrite Hfn in Hfn1. simpl in Hfn1.
  eapply wp_step; [exact Hp1|]. cbv beta iota.
  eapply wp_step; [reflexivity|].
  eapply wp_step; [reflexivity|].
  eapply wp_step; [reflexivity|].
  eapply wp_step; [reflexivity|].
  apply wp_solve_exact. intros s10 Ht10.
  match type of Ht10 with
  | context [assemble ?s9'] => set (s9 := s9') in *
  end.
  assert (exists c e, trace s9 = [EvPerformanceMetric e; EvInitialCondition c] /\
                      list_of_performance_metrics s9 = [e]) as (c & e & Ht9 & Hm9).
  { eexists _, _. unfold s9. simpl. rewrite Ht1, Ht, Hm1, Hm. split; reflexivity. }
  assert (counter_gens s9 = (2 * Z.to_nat n + 4)%nat /\
          length (list_of_conditions s9 ++ interpolation_constraints s9)
          = (1 + (Z.to_nat n + 2) * (Z.to_nat n + 2)
               + (Z.to_nat n + 1) * (Z.to_nat n + 1))%nat) as (Hdim & Hcons).
  { unfold s9, interpolation_constraints. simpl.
    rewrite Hd1, Hd, Hfn1, Hg1, Hg, Hcd1, Hc. simpl.
    split; [lia|]. unfold function_constraints. simpl. rewrite Hc2. 
    rewrite app_nil_r, length_app. f_equal.
    change (length (class_constraints (ConvexIndicatorFunction None) (fpoints f1 ++ [t1]))
            + length (class_constraints (ConvexIndicatorFunction None) (fpoints f2))
            = (Z.to_nat n + 2) * (Z.to_nat n + 2)
              + (Z.to_nat n + 1) * (Z.to_nat n + 1))%nat.
    rewrite !length_indicator_constraints, length_app, Hl1, Hl2.
    simpl. nia. }
  clearbody s9. rewrite Ht9 in Ht10. simpl in Ht10.
  assert (exists c e sdp,
            trace s10 = [EvPerformanceMetric e; EvInitialCondition c; EvSolve sdp] /\
            sdp_dim sdp = (2 * Z.to_nat n + 4)%nat /\
            sdp_objectives sdp = [e] /\
            length (sdp_constraints sdp)
            = (1 + (Z.to_nat n + 2) * (Z.to_nat n + 2)
                 + (Z.to_nat n + 1) * (Z.to_nat n + 1))%nat) as Hpost.
  { exists c, e, (assemble s9). done. }
  destruct (status (solver (Some "logdet1"%string) (assemble s9))) eqn:Hstat;
    try exact Hpost.
  eapply (wp_plain _ _ (fun _ => True)).
  { destruct (verbose =? -1)%Z; [by apply plain_ret|].
    repeat (eapply plain_bind; [apply plain_print|intros _ _]).
    apply plain_print. }
  intros _ s11 _ Ht11. apply wp_ret.
  rewrite Ht11. exact Hpost.
Qed.

End AlternateProjectionsSize.

(** X16. The problem that [wc_alternate_projections] hands to the solver
    after n >= 0 pairs of projections has a Gram matrix of side 2n + 4,
    one objective, and 1 + (n + 2)^2 + (n + 1)^2 constraints: the initial
    condition, (n + 2)^2 interpolation constraints for the first indicator
    function and (n + 1)^2 for the second; for n = 10, the 24x24 matrix
    and the 144 and 121 constraints of the script's docstring. *)
Theorem wc_alternate_projections_problem_size
  (solver : option string -> SDP -> SolverOutput) (n verbose : Z) :
  exists c e sdp,
    trace (fst (wc_alternate_projections solver n verbose PEP_init))
    = [EvPerformanceMetric e; EvInitialCondition c; EvSolve sdp] /\
    sdp_dim sdp = (2 * Z.to_nat n + 4)%nat /\
    sdp_objectives sdp = [e] /\
    length (sdp_constraints sdp)
    = (1 + (Z.to_nat n + 2) * (Z.to_nat n + 2)
         + (Z.to_nat n + 1) * (Z.to_nat n + 1))%nat.
Proof. exact (wc_alternate_projections_size_run solver n verbose). Qed.

(** ** Past extragradient: the size of the problem *)

Section PastExtragradientSize.
Variable solver : option string -> SDP -> SolverOutput.

Lemma pe_regs_Point_new L g a b d s :
  pe_regs L g a b s -> ok (Point_new d) s (fun _ s' => pe_regs L g a b s').
Proof.
  intros (Hfr & Hg & Hd & Hc & Hm & Ht & f0 & f1 & F & Hfn & Hc0 & Hc1 & Hl0 & Hl1 & Hk).
  eexists _, _. split; [reflexivity|]. unfold pe_regs. simpl.
  repeat (split; [done|]). exists f0, f1, F.
  repeat (split; [done|]). intros t Ht'. specialize (Hk t Ht'). lia.
Qed.

Lemma pe_regs_Point_rmul L g a b c p s :
  pe_regs L g a b s -> ok (Point_rmul c p) s (fun _ s' => pe_regs L g a b s').
Proof. apply pe_regs_Point_new. Qed.

Lemma pe_regs_Point_sub L g a b p q s :
  pe_regs L g a b s -> ok (Point_sub p q) s (fun _ s' => pe_regs L g a b s').
Proof.
  intros H. unfold Point_sub, Point_neg. apply ok_bind.
  eapply ok_weaken; [by apply pe_regs_Point_rmul|].
  intros nq s1 H1. by apply pe_regs_Point_new.
Qed.

(** A proximal step on the indicator function returns a new Point, more
    recent than every Point recorded on the operator. *)
Lemma pe_regs_proximal_step L g a b x step s :
  pe_regs L g a b s ->
  ok (proximal_step x 0 step) s
     (fun r s' =>
        pe_regs L (S g) (S a) b s' /\
        (pkey (fst (fst r)) < counter_points s')%nat /\
        forall f1, functions s' !! 1%nat = Some f1 ->
          forall t, t ∈ fpoints f1 -> (pkey (fst (fst t)) < pkey (fst (fst r)))%nat).
Proof.
  intros (Hfr & Hg & Hd & Hc & Hm & Ht & f0 & f1 & F & Hfn & Hc0 & Hc1 & Hl0 & Hl1 & Hk).
  unfold ok, proximal_step, add_point, bind, check_not_frozen, get_function,
    Point_sub, Point_neg, Point_add, Point_rmul, Point_new, Point_leaf,
    Expr_leaf, record_triple, bind, ret.
  simpl. rewrite Hfr. simpl. rewrite Hfn. simpl. rewrite Hc0. simpl.
  eexists _, _. split; [reflexivity|]. unfold pe_regs. simpl.
  rewrite Hfn. simpl.
  split; [|split; [lia|]].
  - repeat (split; [first [done | lia]|]). eexists _, _, _.
    split; [reflexivity|]. simpl. rewrite length_app. simpl.
    repeat (split; [first [done | lia]|]).
    intros t Ht'. specialize (Hk t Ht'). lia.
  - intros f1' Hf1' t Ht'. injection Hf1' as <-. specialize (Hk t Ht'). lia.
Qed.

(** The operator evaluated at a Point it has not recorded. *)
Lemma pe_regs_gradient L g a b x s :
  pe_regs L g a b s ->
  (pkey x < counter_points s)%nat ->
  (forall f1, functions s !! 1%nat = Some f1 ->
     forall t, t ∈ fpoints f1 -> (pkey (fst (fst t)) < pkey x)%nat) ->
  ok (gradient 1 x) s (fun _ s' => pe_regs L (S g) a (S b) s').
Proof.
  intros (Hfr & Hg & Hd & Hc & Hm & Ht & f0 & f1 & F & Hfn & Hc0 & Hc1 & Hl0 & Hl1 & Hk)
    Hx Hfresh.
  assert (functions s !! 1%nat = Some f1) as Hf1 by (by rewrite Hfn).
  pose proof (oracle_miss s 1 x f1 _ Hfr Hf1 Hc1
                (find_triple_fresh x _ (Hfresh f1 Hf1))) as Ho.
  unfold ok, gradient, bind. rewrite Ho. simpl.
  eexists _, _. split; [reflexivity|]. unfold pe_regs. simpl.
  rewrite Hfn. simpl.
  repeat (split; [first [done | lia]|]). eexists _, _, _.
  split; [reflexivity|]. simpl. rewrite length_app. simpl.
  repeat (split; [first [done | lia]|]).
  intros t Ht'. apply elem_of_app in Ht' as [Ht'|Ht'].
  - specialize (Hk t Ht'). lia.
  - apply list_elem_of_singleton in Ht' as ->. simpl. lia.
Qed.

Lemma pe_body_ok L gamma i g a b acc s :
  pe_regs L g a b s ->
  ok (pe_body 0 1 gamma i acc) s
     (fun acc' s' => pe_regs L (3 + g) (2 + a) (1 + b) s' /\ is_Some (snd acc')).
Proof.
  intros H. destruct acc as [[[x xt] V] prev]. unfold pe_body.
  apply ok_bind. eapply ok_weaken; [by apply pe_regs_Point_rmul|].
  intros gV s1 H1. cbv beta in *.
  apply ok_bind. eapply ok_weaken; [by apply pe_regs_Point_sub|].
  intros pa s2 H2. cbv beta in *.
  apply ok_bind. eapply ok_weaken; [by apply pe_regs_proximal_step|].
  intros [[xt' gx] fx] s3 (H3 & Hx3 & Hfresh3). cbv beta iota in *.
  apply ok_bind. eapply ok_weaken; [by apply pe_regs_gradient|].
  intros V' s4 H4. cbv beta in *.
  apply ok_bind. eapply ok_weaken; [by apply pe_regs_Point_rmul|].
  intros gV' s5 H5. cbv beta in *.
  apply ok_bind. eapply ok_weaken; [by apply pe_regs_Point_sub|].
  intros pb s6 H6. cbv beta in *.
  apply ok_bind. eapply ok_weaken; [by apply pe_regs_proximal_step|].
  intros [[x' gx'] fx'] s7 (H7 & _ & _). cbv beta iota in *.
  apply ok_ret. split; [exact H7|]. simpl. eauto.
Qed.

Lemma pe_loop_ok L gamma rng :
  rng <> [] ->
  forall g a b acc s, pe_regs L g a b s ->
  ok (for_loop (pe_body 0 1 gamma) rng acc) s
     (fun acc' s' =>
        pe_regs L (3 * length rng + g) (2 * length rng + a) (length rng + b) s' /\
        is_Some (snd acc')).
Proof.
  induction rng as [|i rng IH]; intros Hne g a b acc s H; [done|].
  simpl for_loop. apply ok_bind.
  eapply ok_weaken; [by apply pe_body_ok|].
  intros acc1 s1 [H1 Hs1]. cbv beta.
  destruct rng as [|j rng].
  - simpl. apply ok_ret. split; [exact H1|exact Hs1].
  - eapply ok_weaken; [apply IH; [done|exact H1]|].
    intros acc2 s2 [H2 Hs2]. split; [|exact Hs2].
    simpl length in *.
    replace (3 * S (S (length rng)) + g)%nat
      with (3 * S (length rng) + (3 + g))%nat by lia.
    replace (2 * S (S (length rng)) + a)%nat
      with (2 * S (length rng) + (2 + a))%nat by lia.
    replace (S (S (length rng)) + b)%nat
      with (S (length rng) + (1 + b))%nat by lia.
    exact H2.
Qed.

End PastExtragradientSize.

Section PastExtragradientSizeRun.
Variable solver : option string -> SDP -> SolverOutput.

(** A Lipschitz strongly monotone operator with m recorded points emits
    two inequalities per ordered pair of distinct points. *)
Lemma length_operator_constraints mu L (l : list Triple) :
  length (class_constraints (LipschitzStronglyMonotoneOperator mu L) l)
  = (2 * (length l * (length l - 1)))%nat.
Proof.
  simpl. rewrite (flat_map_constant_length (c := 2%nat)); [|done].
  rewrite length_pairwise. lia.
Qed.

Lemma wc_past_extragradient_size_run n gamma L verbose :
  (1 <= n)%Z ->
  wp (wc_past_extragradient solver n gamma L verbose) PEP_init
     (fun s' r =>
        exists c e sdp,
          trace s' = [EvInitialCondition c; EvPerformanceMetric e; EvSolve sdp] /\
          sdp_dim sdp = (3 * Z.to_nat n + 5)%nat /\
          sdp_objectives sdp = [e] /\
          length (sdp_constraints sdp)
          = (1 + (2 * Z.to_nat n + 2) * (2 * Z.to_nat n + 2)
               + 2 * ((Z.to_nat n + 2) * (Z.to_nat n + 1)))%nat).
Proof.
  intros Hn. unfold wc_past_extragradient.
  do 9 wp_compute.
  apply wp_bind_ok.
  eapply ok_weaken.
  { apply (pe_loop_ok L gamma (range n) (range_pos n Hn) 5 2 2).
    unfold pe_regs. simpl.
    repeat (split; [first [done | lia | by eexists]|]).
    eexists _, _, _. split; [reflexivity|]. simpl.
    repeat (split; [first [done | lia]|]).
    intros t Ht.
    repeat (apply elem_of_cons in Ht as [->|Ht]; [simpl; lia|]).
    by apply elem_of_nil in Ht. }
  intros [[[x xt] V] [prev|]] s [H Hsome]; [|by destruct Hsome].
  cbv beta iota. rewrite length_range in H.
  change (read_var "previous_x" (Some prev)) with (ret (A:=Point) prev).
  eapply wp_step; [reflexivity|].
  apply wp_bind_ok. eapply ok_weaken; [by apply pe_regs_Point_sub|].
  intros d s1 H1. cbv beta in *. clear H.
  destruct H1
    as (Hfr & Hg & Hd & Hc & Hm & [c Ht] & f0 & f1 & F & Hfn & Hc0 & Hc1 & Hl0 & Hl1 & _).
  eapply wp_step; [reflexivity|].
  apply wp_solve_exact. intros s10 Ht10.
  match type of Ht10 with
  | context [assemble ?s9'] => set (s9 := s9') in *
  end.
  assert (exists e, trace s9 = [EvInitialCondition c; EvPerformanceMetric e] /\
                    list_of_performance_metrics s9 = [e]) as (e & Ht9 & Hm9).
  { eexists. unfold s9. simpl. rewrite Ht, Hm. split; reflexivity. }
  assert (counter_gens s9 = (3 * Z.to_nat n + 5)%nat /\
          length (list_of_conditions s9 ++ interpolation_constraints s9)
          = (1 + (2 * Z.to_nat n + 2) * (2 * Z.to_nat n + 2)
               + 2 * ((Z.to_nat n + 2) * (Z.to_nat n + 1)))%nat) as (Hdim & Hcons).
  { unfold s9, interpolation_constraints, function_constraints. simpl.
    rewrite Hd, Hfn, Hg. simpl. rewrite Hc0, Hc1.
    split; [lia|].
    rewrite app_nil_r, !length_app, Hc, length_indicator_constraints,
      length_operator_constraints, Hl0, Hl1.
    nia. }
  clearbody s9. rewrite Ht9 in Ht10. simpl in Ht10.
  assert (exists c e sdp,
            trace s10 = [EvInitialCondition c; EvPerformanceMetric e; EvSolve sdp] /\
            sdp_dim sdp = (3 * Z.to_nat n + 5)%nat /\
            sdp_objectives sdp = [e] /\
            length (sdp_constraints sdp)
            = (1 + (2 * Z.to_nat n + 2) * (2 * Z.to_nat n + 2)
                 + 2 * ((Z.to_nat n + 2) * (Z.to_nat n + 1)))%nat) as Hpost.
  { exists c, e, (assemble s9). done. }
  destruct (status (solver None (assemble s9))) eqn:Hstat; try exact Hpost.
  eapply (wp_plain _ _ (fun _ => True)).
  { destruct (verbose =? -1)%Z; [by apply plain_ret|].
    repeat (eapply plain_bind; [apply plain_print|intros _ _]).
    apply plain_print. }
  intros _ s11 _ Ht11. apply wp_ret.
  rewrite Ht11. exact Hpost.
Qed.

End PastExtragradientSizeRun.

(** X17. For n >= 1, the problem that [wc_past_extragradient] hands to
    the solver has a Gram matrix of side 3n + 5, one objective, and
    1 + (2n + 2)^2 + 2(n + 2)(n + 1) constraints: the initial condition,
    (2n + 2)^2 interpolation constraints for the indicator function and
    two inequalities per ordered pair of the n + 2 points recorded on the
    operator; for n = 5, the 20x20 matrix and the 144 and 84 constraints
    of the script's docstring. *)
Theorem wc_past_extragradient_problem_size
  (solver : option string -> SDP -> SolverOutput)
  (n : Z) (gamma L : Q) (verbose : Z) :
  (1 <= n)%Z -> 0 <= L ->
  exists c e sdp,
    trace (fst (wc_past_extragradient solver n gamma L verbose PEP_init))
    = [EvInitialCondition c; EvPerformanceMetric e; EvSolve sdp] /\
    sdp_dim sdp = (3 * Z.to_nat n + 5)%nat /\
    sdp_objectives sdp = [e] /\
    length (sdp_constraints sdp)
    = (1 + (2 * Z.to_nat n + 2) * (2 * Z.to_nat n + 2)
         + 2 * ((Z.to_nat n + 2) * (Z.to_nat n + 1)))%nat.
Proof.
  intros Hn _. exact (wc_past_extragradient_size_run solver n gamma L verbose Hn).
Qed.

Lemma wc_past_extragradient_problem_size_witness :
  (1 <= 5)%Z /\ 0 <= 1 /\
  exists c e sdp,
    trace (fst (wc_past_extragradient (stub_solver 1) 5 (1 # 4) 1 1 PEP_init))
    = [EvInitialCondition c; EvPerformanceMetric e; EvSolve sdp] /\
    sdp_dim sdp = 20%nat /\
    length (sdp_constraints sdp) = (1 + 144 + 84)%nat.
Proof.
  split; [lia|]. split; [by vm_compute|].
  destruct (wc_past_extragradient_problem_size (stub_solver 1) 5 (1 # 4) 1 1)
    as (c & e & sdp & Ht & Hdim & _ & Hcons); [lia|by vm_compute|].
  exists c, e, sdp. split; [exact Ht|]. split; [exact Hdim|exact Hcons].
Defined.

(** ** The sign and the monotonicity of two reference values *)

Section ReferenceValues.

Lemma adrs_reference_negative alpha L n :
  (1 <= n)%Z -> 0 < L -> 1 < alpha * L ->
  2 / (alpha * ((1 - alpha * L) / (1 + alpha * L)) * inject_Z ((n + 3) ^ 2)) < 0.
Proof.
  intros Hn HL Ha.
  assert (0 < alpha) as Hpos.
  { destruct (Qlt_le_dec 0 alpha) as [|Hle]; [done|].
    exfalso. assert (alpha * L <= 0) by nra. lra. }
  assert (0 < inject_Z ((n + 3) ^ 2)) as HN.
  { unfold Qlt, inject_Z. simpl. nia. }
  set (N := inject_Z ((n + 3) ^ 2)) in *.
  set (P := alpha * ((alpha * L - 1) / (1 + alpha * L)) * N).
  assert (0 < P) as HP.
  { unfold P. apply Qmult_lt_0_compat; [|done].
    apply Qmult_lt_0_compat; [done|].
    apply Qlt_shift_div_l; lra. }
  assert (2 / (alpha * ((1 - alpha * L) / (1 + alpha * L)) * N) == - (2 / P)) as ->.
  { unfold P. field. repeat split; lra. }
  assert (0 < 2 / P) by (apply Qlt_shift_div_l; lra).
  lra.
Qed.

Lemma apg_reference_decreasing L n :
  (1 <= n)%Z -> 0 < L ->
  0 < 2 * L / inject_Z ((n + 1) ^ 2 + 5 * (n + 1) + 2) /\
  2 * L / inject_Z ((n + 1) ^ 2 + 5 * (n + 1) + 2)
  < 2 * L / inject_Z (n ^ 2 + 5 * n + 2).
Proof.
  intros Hn HL.
  assert (0 < inject_Z (n ^ 2 + 5 * n + 2)) as H1.
  { unfold Qlt, inject_Z. simpl. nia. }
  assert (0 < inject_Z ((n + 1) ^ 2 + 5 * (n + 1) + 2)) as H2.
  { unfold Qlt, inject_Z. simpl. nia. }
  split.
  - apply Qlt_shift_div_l; [done|]. lra.
  - unfold Qdiv. apply Qmult_lt_l; [lra|].
    apply -> Qinv_lt_contravar; [|done|done].
    unfold Qlt, inject_Z. simpl. nia.
Qed.

End ReferenceValues.




